(** * Independent weight of a binary source: a Rocq model of
      [IndependentWeightAlgorithm.ipynb]

    The notebook computes the independent weight of a probability
    distribution [P] over [d] binary random variables and the Bernoulli
    parameters of an independent source achieving it.

    Numeric model.  Python floats and NumPy doubles are idealised as the
    real numbers of the Standard Library: [*], [/], [np.log] and [np.exp]
    are the exact real operations, comparisons are exact.  Python
    exceptions that the notebook can raise are kept as values of an error
    monad.  Outcome strings over the characters '0' and '1' are lists of
    booleans ('0' is [false], '1' is [true]). *)

From Stdlib Require Import Reals List Arith Bool Lia Lra.
Import ListNotations.
Open Scope R_scope.


(** ** Python exceptions as an error monad *)

(** The two [ValueError]s of the notebook are kept apart by their message. *)
Inductive exn : Set :=
| IndexError            (* list index out of range *)
| ValueError_empty_max  (* ValueError: max() arg is an empty sequence *)
| ValueError_not_found  (* ValueError: x is not in list *)
| ZeroDivisionError     (* float division by zero *)
| OverflowError.        (* int() of an infinite float *)

Inductive result (A : Type) : Type :=
| Ok (a : A)
| Raise (e : exn).

Arguments Ok {A} a.
Arguments Raise {A} e.

Definition bind {A B : Type} (m : result A) (k : A -> result B) : result B :=
  match m with
  | Ok a => k a
  | Raise e => Raise e
  end.

Notation "x <- m ;; k" := (bind m (fun x => k))
  (at level 61, m at next level, right associativity).
Notation "' p <- m ;; k" := (bind m (fun p => k))
  (at level 61, p pattern, m at next level, right associativity).

(** [l[i]] for a non-negative index. *)
Definition get {A : Type} (l : list A) (i : nat) : result A :=
  match nth_error l i with
  | Some a => Ok a
  | None => Raise IndexError
  end.

(** ** Comparisons of reals as booleans *)

Definition Rltb (x y : R) : bool := if Rlt_dec x y then true else false.
Definition Rleb (x y : R) : bool := if Rle_dec x y then true else false.
Definition Reqb (x y : R) : bool := if Req_dec_T x y then true else false.

(** ** [itertools.product(alphabet, repeat=d)]: the first coordinate is the
       most significant, so the tuples come in lexicographic order. *)

Fixpoint product {X : Type} (alphabet : list X) (d : nat) : list (list X) :=
  match d with
  | O => [[]]
  | S d' => flat_map (fun a => map (cons a) (product alphabet d')) alphabet
  end.

(** An outcome is a string of '0' and '1'. *)
Abbreviation outcome := (list bool) (only parsing).

(** [Range = list(map(''.join, itertools.product(['0','1'], repeat=d)))] *)
Definition outcomes (d : nat) : list outcome := product [false; true] d.

(** [float(ch)] for a character of an outcome string. *)
Definition float_of_bit (b : bool) : R := if b then 1 else 0.

(** [x ** y] on floats.  A zero exponent gives [1.0] and a unit exponent
    gives the base back whatever the base is (so [0.0 ** 0.0 = 1.0]); on a
    positive base the power is the real power. *)
Definition float_pow (x y : R) : R :=
  if Req_dec_T y 0 then 1
  else if Req_dec_T y 1 then x
  else Rpower x y.

(** ** createIndependentSource *)

(** The factor of one coordinate:
    [(p**float(ch))*(1.-p)**(1.-float(ch))]. *)
Definition bernoulli_factor (p : R) (ch : bool) : R :=
  float_pow p (float_of_bit ch) * float_pow (1 - p) (1 - float_of_bit ch).

Definition createIndependentSource (params : list R) : list R :=
  let d := length params in
  let Range := outcomes d in
  map (fun x : outcome =>
         fold_left
           (fun pk j => pk * bernoulli_factor (nth j params 0) (nth j x false))
           (seq 0 d) 1)
      Range.

(** ** compatible *)

(** [int(np.log2(n))]: [np.log2(0)] is [-inf], which [int] refuses; for the
    length of a list the float logarithm truncates to the integer one. *)
Definition int_log2 (n : nat) : result nat :=
  match n with
  | O => Raise OverflowError
  | _ => Ok (Nat.log2 n)
  end.

(** The loop [for j in range(len(P))]; [and] evaluates [Q[j]] only when
    [P[j] == 0]. *)
Fixpoint compatible_loop (P Q : list R) (js : list nat) : result bool :=
  match js with
  | [] => Ok true
  | j :: js' =>
      Pj <- get P j ;;
      if Reqb Pj 0 then
        Qj <- get Q j ;;
        if negb (Reqb Qj 0) then Ok false else compatible_loop P Q js'
      else compatible_loop P Q js'
  end.

(** [d] and [Range] are computed and never used; only [int] can fail. *)
Definition compatible (c : list R) (P : list R) : result bool :=
  _ <- int_log2 (length P) ;;
  let Q := createIndependentSource c in
  compatible_loop P Q (seq 0 (length P)).

(** ** Monadic list traversals (comprehensions whose body can raise) *)

Fixpoint filterM {A : Type} (f : A -> result bool) (l : list A)
  : result (list A) :=
  match l with
  | [] => Ok []
  | x :: t =>
      keep <- f x ;;
      r <- filterM f t ;;
      Ok (if keep then x :: r else r)
  end.

Fixpoint mapM {A B : Type} (f : A -> result B) (l : list A)
  : result (list B) :=
  match l with
  | [] => Ok []
  | x :: t =>
      y <- f x ;;
      r <- mapM f t ;;
      Ok (y :: r)
  end.

(** [l.index(x)]: position of the first element equal to [x]. *)
Fixpoint index {A : Type} (eqb : A -> A -> bool) (x : A) (l : list A)
  : result nat :=
  match l with
  | [] => Raise ValueError_not_found
  | y :: l' =>
      if eqb y x then Ok O
      else i <- index eqb x l' ;; Ok (S i)
  end.

Fixpoint outcome_eqb (x y : outcome) : bool :=
  match x, y with
  | [], [] => true
  | a :: x', b :: y' => Bool.eqb a b && outcome_eqb x' y'
  | _, _ => false
  end.

(** [max(l)]: the first of the largest items; an empty [l] raises. *)
Fixpoint max_from (m : R) (l : list R) : R :=
  match l with
  | [] => m
  | v :: t => max_from (if Rltb m v then v else m) t
  end.

Definition py_max (l : list R) : result R :=
  match l with
  | [] => Raise ValueError_empty_max
  | x :: t => Ok (max_from x t)
  end.

(** [itertools.combinations(l, r)], in lexicographic order of positions. *)
Fixpoint combinations {X : Type} (l : list X) (r : nat) {struct l}
  : list (list X) :=
  match r, l with
  | O, _ => [[]]
  | S _, [] => []
  | S r', x :: t => map (cons x) (combinations t r') ++ combinations t r
  end.

(** ** Linear algebra *)

(** [np.dot] of two vectors and [np.prod] of a vector. *)
Fixpoint dot (u v : list R) : R :=
  match u, v with
  | a :: u', b :: v' => a * b + dot u' v'
  | _, _ => 0
  end.

Definition prod (l : list R) : R := fold_right Rmult 1 l.

(** [np.linalg.solve] is library code.  Over the reals it returns the one
    solution of a non-singular square system and raises [LinAlgError] on a
    singular one; the model is Gaussian elimination on augmented rows, and
    [None] stands for the [LinAlgError] that the caller catches.  The
    lemmas [solve_sound], [solve_unique] and [solve_singular] below show
    that the model meets this contract. *)

Definition arow : Type := (list R * R)%type.

Fixpoint find_pivot (rows : list arow) : option (arow * list arow) :=
  match rows with
  | [] => None
  | r :: rest =>
      if Reqb (hd 0 (fst r)) 0 then
        match find_pivot rest with
        | Some (p, others) => Some (p, r :: others)
        | None => None
        end
      else Some (r, rest)
  end.

Fixpoint axpy (f : R) (u v : list R) : list R :=
  match u, v with
  | a :: u', b :: v' => (b - f * a) :: axpy f u' v'
  | _, _ => []
  end.

Definition eliminate (p r : arow) : arow :=
  let f := hd 0 (fst r) / hd 0 (fst p) in
  (axpy f (tl (fst p)) (tl (fst r)), snd r - f * snd p).

Fixpoint gauss (n : nat) (rows : list arow) : option (list R) :=
  match n with
  | O => Some []
  | S n' =>
      match find_pivot rows with
      | None => None
      | Some (p, others) =>
          match gauss n' (map (eliminate p) others) with
          | None => None
          | Some xs =>
              Some ((snd p - dot (tl (fst p)) xs) / hd 0 (fst p) :: xs)
          end
      end
  end.

Definition solve (A : list (list R)) (b : list R) : option (list R) :=
  gauss (length A) (combine A b).

(** ** computeVerticesHoles *)

(** The default tolerance [10**-5]. *)
Definition epsilon_default : R := 1 / 100000.

(** The loop that builds [A] and [b], one row per outcome [j] other than
    [K] with [P[j] > 0] and [Q[j] > 0].  [P[j]/P[K]] divides Python floats
    and raises on a zero divisor.  On a distribution the quotient is
    positive whenever the search makes the call; [np.log] of a negative
    quotient, which needs a negative entry in [P], is [nan] and outside the
    model. *)
Fixpoint system_loop (P Q : list R) (Range : list outcome) (K : nat)
         (variables : list nat) (js : list nat)
  : result (list (list R) * list R) :=
  match js with
  | [] => Ok ([], [])
  | j :: js' =>
      take <- (if negb (j =? K)%nat then
                 Pj <- get P j ;;
                 if Rltb 0 Pj then Qj <- get Q j ;; Ok (Rltb 0 Qj)
                 else Ok false
               else Ok false) ;;
      if take then
        Pj <- get P j ;;
        PK <- get P K ;;
        if Reqb PK 0 then Raise ZeroDivisionError
        else
          let bj := ln (Pj / PK) in
          let row :=
            map (fun i =>
                   if negb (Bool.eqb (nth i (nth j Range []) false)
                                     (nth i (nth K Range []) false))
                   then 1 else 0)
                variables in
          '(A, b) <- system_loop P Q Range K variables js' ;;
          Ok (row :: A, bj :: b)
      else system_loop P Q Range K variables js'
  end.

(** [np.all(np.dot(A, ytilde) <= b + epsilon)] *)
Definition feasible (A : list (list R)) (b : list R) (epsilon : R)
           (ytilde : list R) : bool :=
  forallb (fun rb : list R * R => Rleb (dot (fst rb) ytilde) (snd rb + epsilon))
          (combine A b).

(** The loop over the square subsystems.  [np.array([])] has one axis, so
    [A[list(subset),:]] raises [IndexError] when there is no row at all;
    the positions in [subset] come from [range(len(A))]. *)
Fixpoint vertices_loop (A : list (list R)) (b : list R) (epsilon : R)
         (subsets : list (list nat)) : result (list (list R)) :=
  match subsets with
  | [] => Ok []
  | subset :: rest =>
      match A with
      | [] => Raise IndexError
      | _ :: _ =>
          let Atilde := map (fun i => nth i A []) subset in
          let btilde := map (fun i => nth i b 0) subset in
          match solve Atilde btilde with
          | Some ytilde =>
              if feasible A b epsilon ytilde then
                vs <- vertices_loop A b epsilon rest ;;
                Ok (ytilde :: vs)
              else vertices_loop A b epsilon rest
          | None => vertices_loop A b epsilon rest
          end
      end
  end.

(** The loop that rebuilds the [d] Bernoulli parameters; [l] counts the
    free coordinates met so far. *)
Fixpoint reconstruct (variables : list nat) (yhat : list R) (k : outcome)
         (c : list R) (js : list nat) (l : nat) : result (list R) :=
  match js with
  | [] => Ok []
  | j :: js' =>
      if existsb (Nat.eqb j) variables then
        yl <- get yhat l ;;
        kl <- get k l ;;
        let s := float_pow (exp yl) (1 - 2 * float_of_bit kl) in
        q <- reconstruct variables yhat k c js' (S l) ;;
        Ok (s / (1 + s) :: q)
      else
        cj <- get c j ;;
        q <- reconstruct variables yhat k c js' l ;;
        Ok (cj :: q)
  end.

(** [variables = [x for x in range(d) if 0<c[x]<1]] *)
Definition free_coordinates (c : list R) (d : nat) : result (list nat) :=
  filterM (fun x => cx <- get c x ;; Ok (Rltb 0 cx && Rltb cx 1)) (seq 0 d).

(** [P[K]*np.prod(1+np.exp(y))] *)
Definition objective (PK : R) (y : list R) : R :=
  PK * prod (map (fun v => 1 + exp v) y).

Definition computeVerticesHoles (P : list R) (k : outcome) (c : list R)
           (epsilon : R) : result (R * list R) :=
  let Q := createIndependentSource c in
  let d := length k in
  let Range := outcomes d in
  _ <- filterM (fun x => Qx <- get Q x ;; Ok (Reqb Qx 0)) (seq 0 (2 ^ d)) ;;
  variables <- free_coordinates c d ;;
  let e := length variables in
  K <- index outcome_eqb k Range ;;
  '(A, b) <- system_loop P Q Range K variables (seq 0 (length Range)) ;;
  let subsets := combinations (seq 0 (length A)) e in
  vertices <- vertices_loop A b epsilon subsets ;;
  critVals <- mapM (fun y => PK <- get P K ;; Ok (objective PK y)) vertices ;;
  M <- py_max critVals ;;
  i <- index Reqb M critVals ;;
  yhat <- get vertices i ;;
  q <- reconstruct variables yhat k c (seq 0 d) 0 ;;
  Ok (M, q).

(** ** indWeightHoles *)

(** [c.count(x)] *)
Definition count (x : R) (c : list R) : nat :=
  length (filter (fun v => Reqb v x) c).

(** [for I in Range: if Q[Range.index(I)]>0: ...] for one configuration. *)
Fixpoint inner_loop (P : list R) (c Q : list R) (Range : list outcome)
         (Is : list outcome) : result (list (R * list R)) :=
  match Is with
  | [] => Ok []
  | I0 :: Is' =>
      i <- index outcome_eqb I0 Range ;;
      Qi <- get Q i ;;
      if Rltb 0 Qi then
        r <- computeVerticesHoles P I0 c epsilon_default ;;
        rs <- inner_loop P c Q Range Is' ;;
        Ok (r :: rs)
      else inner_loop P c Q Range Is'
  end.

(** [for c in compatibles: ...]; the result pairs [objectives] with
    [maximisers], in the order of the appends. *)
Fixpoint outer_loop (P : list R) (Range : list outcome)
         (compatibles : list (list R)) : result (list (R * list R)) :=
  match compatibles with
  | [] => Ok []
  | c :: cs =>
      let Q := createIndependentSource c in
      rs <- inner_loop P c Q Range Range ;;
      rs' <- outer_loop P Range cs ;;
      Ok (rs ++ rs')
  end.

(** The configurations kept by the first loop. *)
Definition compatible_configurations (P : list R) (d : nat)
  : result (list (list R)) :=
  filterM (fun c => ok <- compatible c P ;;
                    Ok (ok && (0 <? count (1 / 2) c)%nat))
          (product [0; 1; 1 / 2] d).

Definition indWeightHoles (P : list R) : result (R * list R) :=
  d <- int_log2 (length P) ;;
  compatibles <- compatible_configurations P d ;;
  let Range := outcomes d in
  results <- outer_loop P Range compatibles ;;
  let objectives := map fst results in
  let maximisers := map snd results in
  Lambda <- py_max objectives ;;
  i <- index Reqb Lambda objectives ;;
  m <- get maximisers i ;;
  Ok (Lambda, m).

(** * Notions used to state the properties *)

(** The rank of an outcome in lexicographic order: its value as a binary
    numeral, first character most significant. *)
Fixpoint outcome_index (x : outcome) : nat :=
  match x with
  | [] => O
  | ch :: x' => ((if ch then 2 ^ length x' else 0) + outcome_index x')%nat
  end.

(** The probability of outcome [x] under independent Bernoulli coordinates:
    the product over the coordinates of [p] when the bit is 1 and of
    [1 - p] when it is 0. *)
Definition product_probability (params : list R) (x : outcome) : R :=
  prod (map (fun pb : R * bool => if snd pb then fst pb else 1 - fst pb)
            (combine params x)).

(** Some outcome has probability exactly zero under [P] and not under [Q]. *)
Definition hole_mismatch (P Q : list R) : Prop :=
  exists j, get P j = Ok 0 /\ exists q, get Q j = Ok q /\ q <> 0.

(** The distribution that puts all the mass on the outcome [x]. *)
Definition point_mass (x : outcome) : list R :=
  map (fun y => if outcome_eqb y x then 1 else 0) (outcomes (length x)).

(** An outcome in the support of the source of [c] that differs from [x] at
    every free coordinate: the fixed coordinates take their value, the
    others the opposite of the bit of [x]. *)
Fixpoint sidestep (c : list R) (x : outcome) : outcome :=
  match c, x with
  | v :: c', ch :: x' =>
      (if Reqb v 0 then false else if Reqb v 1 then true else negb ch)
        :: sidestep c' x'
  | _, _ => []
  end.

(** [indWeightHoles P] reaches the call [computeVerticesHoles(P, I0, c)]
    only for a configuration [c] kept by the first loop and an outcome
    [I0] with [Q[Range.index(I0)] > 0]. *)
Definition invokes (P : list R) (c : list R) (I0 : outcome) : Prop :=
  exists d compatibles i Qi,
    int_log2 (length P) = Ok d /\
    compatible_configurations P d = Ok compatibles /\
    In c compatibles /\
    In I0 (outcomes d) /\
    index outcome_eqb I0 (outcomes d) = Ok i /\
    get (createIndependentSource c) i = Ok Qi /\
    0 < Qi.

(** [sum(l)] *)
Definition sum_list (l : list R) : R := fold_right Rplus 0 l.

(** The row of [A] for the outcome [x] against the reference outcome [k]:
    one entry per free coordinate of [c], 1 where [x] and [k] differ. *)
Fixpoint diff_row (c : list R) (k x : outcome) : list R :=
  match c, k, x with
  | v :: c', kb :: k', xb :: x' =>
      if Rltb 0 v && Rltb v 1
      then (if negb (Bool.eqb xb kb) then 1 else 0) :: diff_row c' k' x'
      else diff_row c' k' x'
  | _, _, _ => []
  end.

(** A valid distribution close to the uniform one: three outcomes weigh
    [100001/400003] and the last one [100000/400003]; [tilt] is the
    logarithm of the ratio of the two weights. *)
Definition tilted : list R :=
  [100001 / 400003; 100001 / 400003; 100001 / 400003; 100000 / 400003].

Definition tilt : R := ln (100001 / 100000).

(** The loop of [compatible] stops at [j]: [P[j]] is zero and [Q[j]] is
    missing or non-zero. *)
Definition stops_at (P Q : list R) (j : nat) : Prop :=
  nth j P 0 = 0 /\ ((length Q <= j)%nat \/ nth j Q 0 <> 0).

(** When [P] is the source of [p], the point at which every row of the
    system of [c] and [k] is met with equality: for each free coordinate
    the logarithm of the odds of flipping the bit of [k]. *)
Fixpoint log_odds (c : list R) (k : outcome) (p : list R) : list R :=
  match c, k, p with
  | v :: c', kb :: k', pj :: p' =>
      if Rltb 0 v && Rltb v 1
      then ln (if kb then (1 - pj) / pj else pj / (1 - pj)) :: log_odds c' k' p'
      else log_odds c' k' p'
  | _, _, _ => []
  end.

(** Number of free coordinates of [c] at which [x] and [k] differ. *)
Fixpoint distance (c : list R) (k x : outcome) : nat :=
  match c, k, x with
  | v :: c', kb :: k', xb :: x' =>
      if Rltb 0 v && Rltb v 1
      then ((if negb (Bool.eqb xb kb) then 1 else 0) + distance c' k' x')%nat
      else distance c' k' x'
  | _, _, _ => O
  end.

(** The outcomes that give a row of the system of [c] and [k] when no
    entry of [P] is zero, in the order of the rows, and those among them
    that differ from [k] at exactly one free coordinate. *)
Definition row_outcomes (c : list R) (k : outcome) : list outcome :=
  filter (fun x => negb (outcome_eqb x k) && Rltb 0 (product_probability c x))
         (outcomes (length c)).

Definition unit_outcomes (c : list R) (k : outcome) : list outcome :=
  filter (fun x => (distance c k x =? 1)%nat) (row_outcomes c k).

(** * Basic facts *)

(** ** Boolean comparisons *)

Lemma Rltb_true x y : x < y -> Rltb x y = true.
Proof. intros H; unfold Rltb; destruct (Rlt_dec x y); [reflexivity | contradiction]. Qed.

Lemma Rltb_false x y : ~ x < y -> Rltb x y = false.
Proof. intros H; unfold Rltb; destruct (Rlt_dec x y); [contradiction | reflexivity]. Qed.

Lemma Rleb_true x y : x <= y -> Rleb x y = true.
Proof. intros H; unfold Rleb; destruct (Rle_dec x y); [reflexivity | contradiction]. Qed.

Lemma Rleb_false x y : ~ x <= y -> Rleb x y = false.
Proof. intros H; unfold Rleb; destruct (Rle_dec x y); [contradiction | reflexivity]. Qed.

Lemma Reqb_true x y : x = y -> Reqb x y = true.
Proof. intros H; unfold Reqb; destruct (Req_dec_T x y); [reflexivity | contradiction]. Qed.

Lemma Reqb_false x y : x <> y -> Reqb x y = false.
Proof. intros H; unfold Reqb; destruct (Req_dec_T x y); [contradiction | reflexivity]. Qed.

Lemma Rltb_spec x y : Rltb x y = true <-> x < y.
Proof. unfold Rltb; destruct (Rlt_dec x y); split; intros; try assumption; try reflexivity; try discriminate; contradiction. Qed.

Lemma Rleb_spec x y : Rleb x y = true <-> x <= y.
Proof. unfold Rleb; destruct (Rle_dec x y); split; intros; try assumption; try reflexivity; try discriminate; contradiction. Qed.

Lemma Reqb_spec x y : Reqb x y = true <-> x = y.
Proof. unfold Reqb; destruct (Req_dec_T x y); split; intros; try assumption; try reflexivity; try discriminate; contradiction. Qed.

(** ** Powers with a bit as exponent *)

Lemma float_pow_0 x : float_pow x 0 = 1.
Proof. unfold float_pow; destruct (Req_dec_T 0 0); [reflexivity | lra]. Qed.

Lemma float_pow_1 x : float_pow x 1 = x.
Proof.
  unfold float_pow; destruct (Req_dec_T 1 0); [lra |].
  destruct (Req_dec_T 1 1); [reflexivity | lra].
Qed.

Lemma bernoulli_factor_eq p ch :
  bernoulli_factor p ch = if ch then p else 1 - p.
Proof.
  unfold bernoulli_factor; destruct ch; simpl.
  - replace (1 - 1) with 0 by lra. rewrite float_pow_1, float_pow_0. lra.
  - replace (1 - 0) with 1 by lra. rewrite float_pow_1, float_pow_0. lra.
Qed.

(** ** The error monad *)

Lemma bind_Ok {A B} (m : result A) (k : A -> result B) b :
  bind m k = Ok b -> exists a, m = Ok a /\ k a = Ok b.
Proof. destruct m; simpl; intros H; [eauto | discriminate]. Qed.

Lemma get_Ok {A} (l : list A) i a : get l i = Ok a <-> nth_error l i = Some a.
Proof.
  unfold get; destruct (nth_error l i); split; intros H; inversion H; reflexivity.
Qed.

Lemma get_lt {A} (l : list A) i : (i < length l)%nat -> exists a, get l i = Ok a.
Proof.
  intros H. unfold get. destruct (nth_error l i) eqn:E; [eauto |].
  apply nth_error_None in E. lia.
Qed.

Lemma get_nth {A} (l : list A) i (dflt : A) :
  (i < length l)%nat -> get l i = Ok (nth i l dflt).
Proof.
  intros H. unfold get. rewrite (nth_error_nth' l dflt H). reflexivity.
Qed.

Lemma get_ge {A} (l : list A) i : (length l <= i)%nat -> get l i = Raise IndexError.
Proof.
  intros H. unfold get. apply nth_error_None in H. rewrite H. reflexivity.
Qed.

(** ** The outcomes in lexicographic order *)

Lemma outcomes_S d :
  outcomes (S d) = map (cons false) (outcomes d) ++ map (cons true) (outcomes d).
Proof. unfold outcomes; simpl. rewrite app_nil_r. reflexivity. Qed.

Lemma outcomes_length d : length (outcomes d) = (2 ^ d)%nat.
Proof.
  induction d as [|d IH]; [reflexivity |].
  rewrite outcomes_S, length_app, !length_map, IH. simpl. lia.
Qed.

Lemma outcomes_In_length d x : In x (outcomes d) -> length x = d.
Proof.
  revert x; induction d as [|d IH]; intros x H.
  - destruct H as [<- | []]. reflexivity.
  - rewrite outcomes_S in H. apply in_app_or in H.
    destruct H as [H | H]; apply in_map_iff in H; destruct H as (x' & <- & H');
      simpl; f_equal; apply IH; assumption.
Qed.

Lemma outcome_index_lt x : (outcome_index x < 2 ^ length x)%nat.
Proof.
  induction x as [|ch x IH]; simpl; [lia |]. destruct ch; lia.
Qed.

Lemma outcomes_nth_error x :
  nth_error (outcomes (length x)) (outcome_index x) = Some x.
Proof.
  induction x as [|ch x IH]; [reflexivity |].
  cbn [length outcome_index]. rewrite outcomes_S.
  pose proof (outcome_index_lt x) as Hlt.
  destruct ch.
  - rewrite nth_error_app2; rewrite length_map, outcomes_length; [| lia].
    replace (2 ^ length x + outcome_index x - 2 ^ length x)%nat
      with (outcome_index x) by lia.
    rewrite nth_error_map, IH. reflexivity.
  - rewrite nth_error_app1; [| rewrite length_map, outcomes_length; simpl; lia].
    simpl. rewrite nth_error_map, IH. reflexivity.
Qed.

Lemma outcomes_nth_error_inv d j x :
  nth_error (outcomes d) j = Some x -> length x = d /\ outcome_index x = j.
Proof.
  revert j x; induction d as [|d IH]; intros j x H.
  - destruct j as [|j]; simpl in H; [inversion H; auto | destruct j; discriminate].
  - rewrite outcomes_S in H.
    destruct (Nat.lt_ge_cases j (2 ^ d)) as [Hj | Hj].
    + rewrite nth_error_app1 in H by (rewrite length_map, outcomes_length; exact Hj).
      rewrite nth_error_map in H.
      destruct (nth_error (outcomes d) j) as [x'|] eqn:E; [| discriminate].
      inversion H; subst x. destruct (IH _ _ E) as [Hl Hi].
      simpl. split; [congruence | exact Hi].
    + rewrite nth_error_app2 in H by (rewrite length_map, outcomes_length; exact Hj).
      rewrite length_map, outcomes_length, nth_error_map in H.
      destruct (nth_error (outcomes d) (j - 2 ^ d)) as [x'|] eqn:E; [| discriminate].
      inversion H; subst x. destruct (IH _ _ E) as [Hl Hi].
      simpl. split; [congruence |]. rewrite Hl, Hi. lia.
Qed.

Lemma outcome_eqb_eq x y : outcome_eqb x y = true <-> x = y.
Proof.
  revert y; induction x as [|a x IH]; intros [|b y]; simpl; split; intros H;
    try reflexivity; try discriminate.
  - apply andb_true_iff in H. destruct H as [H1 H2].
    apply eqb_prop in H1. apply IH in H2. congruence.
  - inversion H; subst. rewrite eqb_reflx. apply IH. reflexivity.
Qed.

(** * createIndependentSource *)

Lemma fold_left_map {A B C} (f : A -> B -> A) (g : C -> B) l a :
  fold_left f (map g l) a = fold_left (fun a x => f a (g x)) l a.
Proof. revert a; induction l as [|x l IH]; intros a; simpl; [reflexivity | apply IH]. Qed.

Lemma fold_left_factors (F : R -> bool -> R) params : forall (x : outcome) acc,
  length x = length params ->
  fold_left (fun pk j => pk * F (nth j params 0) (nth j x false))
            (seq 0 (length params)) acc
  = acc * prod (map (fun pb : R * bool => F (fst pb) (snd pb)) (combine params x)).
Proof.
  induction params as [|p params IH]; intros x acc Hx.
  - simpl. unfold prod; simpl. lra.
  - destruct x as [|ch x]; [discriminate |].
    cbn [length seq fold_left]. rewrite <- seq_shift, fold_left_map.
    cbn [nth]. rewrite IH by (simpl in Hx; lia).
    unfold prod; simpl. lra.
Qed.

Lemma createIndependentSource_length params :
  length (createIndependentSource params) = (2 ^ length params)%nat.
Proof. unfold createIndependentSource. rewrite length_map. apply outcomes_length. Qed.

Lemma createIndependentSource_nth params (x : outcome) :
  length x = length params ->
  nth_error (createIndependentSource params) (outcome_index x)
  = Some (product_probability params x).
Proof.
  intros Hx. unfold createIndependentSource.
  rewrite nth_error_map, <- Hx, outcomes_nth_error. simpl. f_equal.
  rewrite Hx, fold_left_factors by exact Hx.
  unfold product_probability. rewrite Rmult_1_l. f_equal.
  apply map_ext. intros [p ch]. apply bernoulli_factor_eq.
Qed.

(** C2: [createIndependentSource params] has [2^d] entries; the entry at the
    lexicographic rank of an outcome [x] (its value as a binary numeral) is
    the product over the coordinates of [params[j]] where the bit of [x] is
    1 and of [1 - params[j]] where it is 0; a coordinate fixed to 0 or to 1
    contributes 1 when the bit agrees with it and 0 otherwise, the power
    [0 ** 0] being 1. *)
Theorem createIndependentSource_spec (params : list R) :
  length (createIndependentSource params) = (2 ^ length params)%nat /\
  (forall x : outcome, length x = length params ->
     nth_error (outcomes (length params)) (outcome_index x) = Some x /\
     get (createIndependentSource params) (outcome_index x)
     = Ok (product_probability params x)) /\
  (forall ch, bernoulli_factor 0 ch = if ch then 0 else 1) /\
  (forall ch, bernoulli_factor 1 ch = if ch then 1 else 0) /\
  float_pow 0 0 = 1.
Proof.
  split; [apply createIndependentSource_length |].
  split.
  - intros x Hx. split.
    + rewrite <- Hx. apply outcomes_nth_error.
    + apply get_Ok. apply createIndependentSource_nth. exact Hx.
  - split; [| split]; try apply float_pow_0;
      intros ch; rewrite bernoulli_factor_eq; destruct ch; lra.
Qed.

(** * compatible *)

Lemma int_log2_pos n : (0 < n)%nat -> int_log2 n = Ok (Nat.log2 n).
Proof. destruct n; [lia | reflexivity]. Qed.

Lemma compatible_loop_spec P Q js :
  (forall j, In j js -> (j < length P)%nat /\ (j < length Q)%nat) ->
  (compatible_loop P Q js = Ok false /\
   exists j, In j js /\ nth j P 0 = 0 /\ nth j Q 0 <> 0) \/
  (compatible_loop P Q js = Ok true /\
   forall j, In j js -> ~ (nth j P 0 = 0 /\ nth j Q 0 <> 0)).
Proof.
  induction js as [|j js IH]; intros Hin.
  - right. split; [reflexivity | intros j []].
  - destruct (Hin j (or_introl eq_refl)) as [HP HQ].
    assert (Hin' : forall i, In i js -> (i < length P)%nat /\ (i < length Q)%nat)
      by (intros i Hi; apply Hin; right; exact Hi).
    specialize (IH Hin').
    cbn [compatible_loop]. rewrite (get_nth P j 0 HP). cbn [bind].
    destruct (Req_dec_T (nth j P 0) 0) as [E | E].
    + rewrite (Reqb_true _ _ E), (get_nth Q j 0 HQ). cbn [bind].
      destruct (Req_dec_T (nth j Q 0) 0) as [E' | E'].
      * rewrite (Reqb_true _ _ E'). cbn [negb].
        destruct IH as [(H1 & i & Hi & H2) | (H1 & H2)].
        -- left. split; [exact H1 | exists i; split; [right; exact Hi | exact H2]].
        -- right. split; [exact H1 |].
           intros i [<- | Hi]; [intros [_ H]; contradiction | apply H2; exact Hi].
      * rewrite (Reqb_false _ _ E'). cbn [negb]. left.
        split; [reflexivity | exists j; split; [left; reflexivity | split; assumption]].
    + rewrite (Reqb_false _ _ E).
      destruct IH as [(H1 & i & Hi & H2) | (H1 & H2)].
      * left. split; [exact H1 | exists i; split; [right; exact Hi | exact H2]].
      * right. split; [exact H1 |].
        intros i [<- | Hi]; [intros [H _]; contradiction | apply H2; exact Hi].
Qed.

Lemma hole_mismatch_nth P Q :
  length P = length Q ->
  hole_mismatch P Q <->
  exists j, In j (seq 0 (length P)) /\ nth j P 0 = 0 /\ nth j Q 0 <> 0.
Proof.
  intros Hlen. split.
  - intros (j & HP & q & HQ & Hq).
    apply get_Ok in HP, HQ.
    assert (Hj : (j < length P)%nat) by (apply nth_error_Some; congruence).
    exists j. split; [apply in_seq; lia |].
    split.
    + apply nth_error_nth with (d := 0) in HP. exact HP.
    + apply nth_error_nth with (d := 0) in HQ. rewrite HQ. exact Hq.
  - intros (j & Hj & HP & HQ). apply in_seq in Hj.
    exists j. split.
    + rewrite (get_nth P j 0) by lia. rewrite HP. reflexivity.
    + exists (nth j Q 0). split; [apply get_nth; lia | exact HQ].
Qed.

Lemma compatible_decides (c P : list R) :
  length P = (2 ^ length c)%nat ->
  (hole_mismatch P (createIndependentSource c) /\ compatible c P = Ok false) \/
  (~ hole_mismatch P (createIndependentSource c) /\ compatible c P = Ok true).
Proof.
  intros Hlen.
  assert (HlenQ : length P = length (createIndependentSource c))
    by (rewrite createIndependentSource_length; exact Hlen).
  assert (Hpos : (0 < length P)%nat).
  { rewrite Hlen. apply Nat.neq_0_lt_0, Nat.pow_nonzero. discriminate. }
  unfold compatible. rewrite (int_log2_pos _ Hpos). cbn [bind].
  rewrite (hole_mismatch_nth _ _ HlenQ).
  destruct (compatible_loop_spec P (createIndependentSource c) (seq 0 (length P)))
    as [(H1 & H2) | (H1 & H2)].
  - intros j Hj. apply in_seq in Hj. lia.
  - left. split; assumption.
  - right. split; [| exact H1].
    intros (j & Hj & H). exact (H2 j Hj H).
Qed.

(** C3: on a distribution of matching dimension, [compatible c P] returns
    [False] exactly when some outcome has [P] exactly zero and [Q] non-zero,
    and [True] otherwise. *)
Theorem compatible_spec (c P : list R) :
  length P = (2 ^ length c)%nat ->
  (compatible c P = Ok false <-> hole_mismatch P (createIndependentSource c)) /\
  (~ hole_mismatch P (createIndependentSource c) -> compatible c P = Ok true).
Proof.
  intros Hlen.
  destruct (compatible_decides c P Hlen) as [[Hm Hr] | [Hm Hr]]; rewrite Hr.
  - split; [split; [intros _; exact Hm | reflexivity] |].
    intros Hn. contradiction.
  - split; [| reflexivity].
    split; [discriminate | intros H; contradiction].
Qed.

Lemma compatible_spec_witness :
  length [1; 0] = (2 ^ length [1 / 2])%nat /\
  (compatible [1 / 2] [1; 0] = Ok false
   <-> hole_mismatch [1; 0] (createIndependentSource [1 / 2])).
Proof.
  split; [reflexivity |].
  apply (compatible_spec [1 / 2] [1; 0]). reflexivity.
Defined.

Lemma compatible_loop_self Q js :
  (forall j, In j js -> (j < length Q)%nat) ->
  compatible_loop Q Q js = Ok true.
Proof.
  induction js as [|j js IH]; intros Hin; [reflexivity |].
  cbn [compatible_loop].
  rewrite (get_nth Q j 0) by (apply Hin; left; reflexivity). cbn [bind].
  destruct (Reqb (nth j Q 0) 0) eqn:E.
  - cbn [bind negb]. apply IH. intros i Hi. apply Hin. right. exact Hi.
  - apply IH. intros i Hi. apply Hin. right. exact Hi.
Qed.

(** C8: a source built from a configuration is compatible with itself. *)
Theorem compatible_createIndependentSource (c : list R) :
  compatible c (createIndependentSource c) = Ok true.
Proof.
  unfold compatible.
  rewrite int_log2_pos.
  - cbn [bind]. apply compatible_loop_self.
    intros j Hj. apply in_seq in Hj. lia.
  - rewrite createIndependentSource_length.
    apply Nat.neq_0_lt_0, Nat.pow_nonzero. discriminate.
Qed.

(** * Evaluating the model on concrete inputs *)

Ltac rdecide :=
  match goal with
  | |- context [Rltb ?a ?b] =>
      first [rewrite (Rltb_true a b) by lra | rewrite (Rltb_false a b) by lra]
  | |- context [Rleb ?a ?b] =>
      first [rewrite (Rleb_true a b) by lra | rewrite (Rleb_false a b) by lra]
  | |- context [Reqb ?a ?b] =>
      first [rewrite (Reqb_true a b) by lra | rewrite (Reqb_false a b) by lra]
  end.

Ltac reval :=
  repeat (progress cbn -[solve feasible objective float_pow float_of_bit
                         computeVerticesHoles createIndependentSource
                         compatible max_from]
          || rdecide).

Lemma max_from_nil m : max_from m [] = m.
Proof. reflexivity. Qed.

Lemma max_from_lt m v t : m < v -> max_from m (v :: t) = max_from v t.
Proof. intros H. cbn [max_from]. rewrite (Rltb_true _ _ H). reflexivity. Qed.

Lemma max_from_ge m v t : ~ m < v -> max_from m (v :: t) = max_from m t.
Proof. intros H. cbn [max_from]. rewrite (Rltb_false _ _ H). reflexivity. Qed.

Ltac max_eval :=
  repeat first [ rewrite max_from_nil
               | rewrite max_from_lt by lra
               | rewrite max_from_ge by lra ].

Ltac list_eq :=
  repeat (match goal with
          | |- cons _ _ = cons _ _ => apply f_equal2; [try lra |]
          end);
  try reflexivity.

Ltac source_eval :=
  unfold createIndependentSource; cbn; rewrite !bernoulli_factor_eq; list_eq.

(** ** The solver on the systems that occur for one and two free
       coordinates *)

Lemma solve_1 b : solve [[1]] [b] = Some [b].
Proof. unfold solve. repeat (progress cbn || rdecide). f_equal. list_eq. Qed.

Lemma solve_01_10 b1 b2 : solve [[0; 1]; [1; 0]] [b1; b2] = Some [b2; b1].
Proof. unfold solve. repeat (progress cbn || rdecide). f_equal. list_eq. Qed.

Lemma solve_10_01 b1 b2 : solve [[1; 0]; [0; 1]] [b1; b2] = Some [b1; b2].
Proof. unfold solve. repeat (progress cbn || rdecide). f_equal. list_eq. Qed.

Lemma solve_01_11 b1 b2 : solve [[0; 1]; [1; 1]] [b1; b2] = Some [b2 - b1; b1].
Proof. unfold solve. repeat (progress cbn || rdecide). f_equal. list_eq. Qed.

Lemma solve_11_01 b1 b2 : solve [[1; 1]; [0; 1]] [b1; b2] = Some [b1 - b2; b2].
Proof. unfold solve. repeat (progress cbn || rdecide). f_equal. list_eq. Qed.

Lemma solve_10_11 b1 b2 : solve [[1; 0]; [1; 1]] [b1; b2] = Some [b1; b2 - b1].
Proof. unfold solve. repeat (progress cbn || rdecide). f_equal. list_eq. Qed.

Lemma solve_11_10 b1 b2 : solve [[1; 1]; [1; 0]] [b1; b2] = Some [b2; b1 - b2].
Proof. unfold solve. repeat (progress cbn || rdecide). f_equal. list_eq. Qed.

Ltac solve_eval :=
  rewrite ?solve_1, ?solve_01_10, ?solve_10_01, ?solve_01_11, ?solve_11_01,
    ?solve_10_11, ?solve_11_10.

(** ** The sign flip of the logistic transform *)

Lemma float_pow_sign x ch :
  0 < x -> float_pow x (1 - 2 * float_of_bit ch) = if ch then / x else x.
Proof.
  intros Hx. destruct ch; simpl.
  - replace (1 - 2 * 1) with (- (1)) by lra.
    unfold float_pow.
    destruct (Req_dec_T (- (1)) 0); [lra |].
    destruct (Req_dec_T (- (1)) 1); [lra |].
    rewrite Rpower_Ropp, Rpower_1 by exact Hx. reflexivity.
  - replace (1 - 2 * 0) with 1 by lra. apply float_pow_1.
Qed.

(** ** Sources of the configurations over two coordinates *)

Lemma source_0_free : createIndependentSource [0; 1 / 2] = [1 / 2; 1 / 2; 0; 0].
Proof. source_eval. Qed.

Lemma source_1_free : createIndependentSource [1; 1 / 2] = [0; 0; 1 / 2; 1 / 2].
Proof. source_eval. Qed.

Lemma source_free_0 : createIndependentSource [1 / 2; 0] = [1 / 2; 0; 1 / 2; 0].
Proof. source_eval. Qed.

Lemma source_free_1 : createIndependentSource [1 / 2; 1] = [0; 1 / 2; 0; 1 / 2].
Proof. source_eval. Qed.

Lemma source_free_free :
  createIndependentSource [1 / 2; 1 / 2] = [1 / 4; 1 / 4; 1 / 4; 1 / 4].
Proof. source_eval. Qed.

Ltac sources_eval :=
  rewrite ?source_0_free, ?source_1_free, ?source_free_0, ?source_free_1,
    ?source_free_free.

(** C5: on the distribution [1/2, 0, 0, 1/2] with both coordinates free and
    reference outcome 00 there is one row for two unknowns, no square
    subsystem and no vertex: [max] of the empty list raises. *)
Theorem computeVerticesHoles_no_vertex :
  computeVerticesHoles [1 / 2; 0; 0; 1 / 2] [false; false] [1 / 2; 1 / 2]
                       epsilon_default
  = Raise ValueError_empty_max.
Proof.
  unfold computeVerticesHoles, free_coordinates. sources_eval. reval.
  reflexivity.
Qed.

(** ** A distribution without holes is compatible with every configuration *)

Lemma compatible_loop_no_hole P Q js :
  Forall (fun p => p <> 0) P ->
  (forall j, In j js -> (j < length P)%nat) ->
  compatible_loop P Q js = Ok true.
Proof.
  intros HP. induction js as [|j js IH]; intros Hin; [reflexivity |].
  cbn [compatible_loop].
  assert (Hj : (j < length P)%nat) by (apply Hin; left; reflexivity).
  rewrite (get_nth P j 0 Hj). cbn [bind].
  rewrite Reqb_false.
  - apply IH. intros i Hi. apply Hin. right. exact Hi.
  - rewrite Forall_forall in HP. apply HP. apply nth_In. exact Hj.
Qed.

Lemma compatible_no_hole c P :
  P <> [] -> Forall (fun p => p <> 0) P -> compatible c P = Ok true.
Proof.
  intros Hne HP. unfold compatible.
  rewrite int_log2_pos by (destruct P; [contradiction | simpl; lia]).
  cbn [bind]. apply compatible_loop_no_hole; [exact HP |].
  intros j Hj. apply in_seq in Hj. lia.
Qed.

(** ** The uniform distribution over two coordinates *)

Lemma ln_quarter : ln (1 / 4 / (1 / 4)) = 0.
Proof. replace (1 / 4 / (1 / 4)) with 1 by lra. apply ln_1. Qed.

Ltac norm_exp0 :=
  repeat match goal with
  | |- context [exp ?t] =>
      lazymatch t with
      | 0 => fail
      | _ => replace t with 0 by lra
      end
  end;
  rewrite ?exp_0.

Ltac cvh_eval_with norm :=
  unfold computeVerticesHoles, free_coordinates, epsilon_default;
  sources_eval;
  repeat (first
    [ progress reval
    | progress norm
    | progress solve_eval
    | progress unfold feasible
    | progress unfold objective, prod
    | progress max_eval
    | rewrite float_pow_sign by lra ]).

Ltac norm_uniform := rewrite ?ln_quarter; norm_exp0.

Ltac cvh_eval := cvh_eval_with norm_uniform.

Ltac cvh_done := apply f_equal; apply f_equal2; [try lra | list_eq].

Lemma uniform_0f_00 :
  computeVerticesHoles [1 / 4; 1 / 4; 1 / 4; 1 / 4] [false; false] [0; 1 / 2]
                       epsilon_default
  = Ok (1 / 2, [0; 1 / 2]).
Proof. cvh_eval. cvh_done. Qed.

Lemma uniform_0f_01 :
  computeVerticesHoles [1 / 4; 1 / 4; 1 / 4; 1 / 4] [false; true] [0; 1 / 2]
                       epsilon_default
  = Ok (1 / 2, [0; 1 / 2]).
Proof. cvh_eval. cvh_done. Qed.

Lemma uniform_1f_10 :
  computeVerticesHoles [1 / 4; 1 / 4; 1 / 4; 1 / 4] [true; false] [1; 1 / 2]
                       epsilon_default
  = Ok (1 / 2, [1; 1 / 2]).
Proof. cvh_eval. cvh_done. Qed.

Lemma uniform_1f_11 :
  computeVerticesHoles [1 / 4; 1 / 4; 1 / 4; 1 / 4] [true; true] [1; 1 / 2]
                       epsilon_default
  = Ok (1 / 2, [1; 1 / 2]).
Proof. cvh_eval. cvh_done. Qed.

Lemma uniform_f0_00 :
  computeVerticesHoles [1 / 4; 1 / 4; 1 / 4; 1 / 4] [false; false] [1 / 2; 0]
                       epsilon_default
  = Ok (1 / 2, [1 / 2; 0]).
Proof. cvh_eval. cvh_done. Qed.

Lemma uniform_f0_10 :
  computeVerticesHoles [1 / 4; 1 / 4; 1 / 4; 1 / 4] [true; false] [1 / 2; 0]
                       epsilon_default
  = Ok (1 / 2, [1 / 2; 0]).
Proof. cvh_eval. cvh_done. Qed.

Lemma uniform_f1_01 :
  computeVerticesHoles [1 / 4; 1 / 4; 1 / 4; 1 / 4] [false; true] [1 / 2; 1]
                       epsilon_default
  = Ok (1 / 2, [1 / 2; 1]).
Proof. cvh_eval. cvh_done. Qed.

Lemma uniform_f1_11 :
  computeVerticesHoles [1 / 4; 1 / 4; 1 / 4; 1 / 4] [true; true] [1 / 2; 1]
                       epsilon_default
  = Ok (1 / 2, [1 / 2; 1]).
Proof. cvh_eval. cvh_done. Qed.

Lemma uniform_ff_00 :
  computeVerticesHoles [1 / 4; 1 / 4; 1 / 4; 1 / 4] [false; false] [1 / 2; 1 / 2]
                       epsilon_default
  = Ok (1, [1 / 2; 1 / 2]).
Proof. cvh_eval. cvh_done. Qed.

Lemma uniform_ff_01 :
  computeVerticesHoles [1 / 4; 1 / 4; 1 / 4; 1 / 4] [false; true] [1 / 2; 1 / 2]
                       epsilon_default
  = Ok (1, [1 / 2; 1 / 2]).
Proof. cvh_eval. cvh_done. Qed.

Lemma uniform_ff_10 :
  computeVerticesHoles [1 / 4; 1 / 4; 1 / 4; 1 / 4] [true; false] [1 / 2; 1 / 2]
                       epsilon_default
  = Ok (1, [1 / 2; 1 / 2]).
Proof. cvh_eval. cvh_done. Qed.

Lemma uniform_ff_11 :
  computeVerticesHoles [1 / 4; 1 / 4; 1 / 4; 1 / 4] [true; true] [1 / 2; 1 / 2]
                       epsilon_default
  = Ok (1, [1 / 2; 1 / 2]).
Proof. cvh_eval. cvh_done. Qed.

Lemma uniform_compatible c :
  compatible c [1 / 4; 1 / 4; 1 / 4; 1 / 4] = Ok true.
Proof.
  apply compatible_no_hole; [discriminate |].
  repeat constructor; lra.
Qed.

(** C1: on the uniform distribution over two binary coordinates the search
    returns the weight 1 and the parameters [1/2, 1/2]. *)
Theorem indWeightHoles_uniform :
  indWeightHoles [1 / 4; 1 / 4; 1 / 4; 1 / 4] = Ok (1, [1 / 2; 1 / 2]).
Proof.
  unfold indWeightHoles, compatible_configurations. reval.
  rewrite !uniform_compatible. reval. sources_eval. reval.
  rewrite uniform_0f_00, uniform_0f_01, uniform_1f_10, uniform_1f_11,
    uniform_f0_00, uniform_f0_10, uniform_f1_01, uniform_f1_11,
    uniform_ff_00, uniform_ff_01, uniform_ff_10, uniform_ff_11.
  reval. max_eval. reval. reflexivity.
Qed.

(** * General facts about the list helpers *)

Lemma max_from_ge_start m l : m <= max_from m l.
Proof.
  revert m; induction l as [|v t IH]; intros m; cbn [max_from]; [lra |].
  unfold Rltb. destruct (Rlt_dec m v) as [H | H].
  - specialize (IH v). lra.
  - apply IH.
Qed.

Lemma max_from_upper m l v : In v l -> v <= max_from m l.
Proof.
  revert m; induction l as [|w t IH]; intros m Hin; [contradiction |].
  cbn [max_from]. destruct Hin as [-> | Hin]; [| apply IH; exact Hin].
  pose proof (max_from_ge_start (if Rltb m v then v else m) t) as H.
  unfold Rltb in *. destruct (Rlt_dec m v); lra.
Qed.

Lemma max_from_In m l : max_from m l = m \/ In (max_from m l) l.
Proof.
  revert m; induction l as [|v t IH]; intros m; cbn [max_from]; [left; reflexivity |].
  destruct (IH (if Rltb m v then v else m)) as [H | H].
  - rewrite H. destruct (Rltb m v); [right; left; reflexivity | left; reflexivity].
  - right. right. exact H.
Qed.

Lemma py_max_In l M : py_max l = Ok M -> In M l.
Proof.
  destruct l as [|x t]; [discriminate |].
  cbn [py_max]. intros H. inversion H; subst.
  destruct (max_from_In x t) as [-> | Hin]; [left; reflexivity | right; exact Hin].
Qed.

Lemma py_max_upper l M v : py_max l = Ok M -> In v l -> v <= M.
Proof.
  destruct l as [|x t]; [discriminate |].
  cbn [py_max]. intros H Hin. inversion H; subst.
  destruct Hin as [<- | Hin]; [apply max_from_ge_start | apply max_from_upper; exact Hin].
Qed.

Lemma py_max_nonempty l : l <> [] -> exists M, py_max l = Ok M.
Proof. destruct l; [contradiction | intros _; eexists; reflexivity]. Qed.

Lemma index_Reqb_In M l : In M l -> exists i, index Reqb M l = Ok i /\ (i < length l)%nat.
Proof.
  induction l as [|y l IH]; intros Hin; [contradiction |].
  cbn [index]. destruct (Req_dec_T y M) as [E | E].
  - rewrite (Reqb_true _ _ E). exists O. split; [reflexivity | simpl; lia].
  - rewrite (Reqb_false _ _ E). destruct Hin as [-> | Hin]; [contradiction |].
    destruct (IH Hin) as (i & Hi & Hlt). rewrite Hi. cbn [bind].
    exists (S i). split; [reflexivity | simpl; lia].
Qed.

Lemma index_Reqb_nth M l i : index Reqb M l = Ok i -> nth_error l i = Some M.
Proof.
  revert i; induction l as [|y l IH]; intros i H; [discriminate |].
  cbn [index] in H. destruct (Reqb y M) eqn:E.
  - inversion H; subst. apply Reqb_spec in E. subst. reflexivity.
  - apply bind_Ok in H. destruct H as (i' & Hi' & H). inversion H; subst.
    simpl. apply IH. exact Hi'.
Qed.

Lemma index_outcome k :
  index outcome_eqb k (outcomes (length k)) = Ok (outcome_index k).
Proof.
  assert (G : forall (l : list outcome) i,
             nth_error l i = Some k ->
             (forall j y, (j < i)%nat -> nth_error l j = Some y -> y <> k) ->
             index outcome_eqb k l = Ok i).
  { induction l as [|y l IH]; intros i Hi Hfirst; [destruct i; discriminate |].
    cbn [index]. destruct i as [|i].
    - simpl in Hi. inversion Hi; subst.
      rewrite (proj2 (outcome_eqb_eq k k) eq_refl). reflexivity.
    - destruct (outcome_eqb y k) eqn:E.
      + apply outcome_eqb_eq in E. exfalso.
        apply (Hfirst O y); [lia | reflexivity | exact E].
      + rewrite (IH i); [reflexivity | exact Hi |].
        intros j z Hj Hz. apply (Hfirst (S j) z); [lia | exact Hz]. }
  apply G; [apply outcomes_nth_error |].
  intros j y Hj Hy Heq. subst y.
  apply outcomes_nth_error_inv in Hy. lia.
Qed.

Lemma mapM_Ok {A B} (f : A -> result B) (g : A -> B) l :
  (forall x, In x l -> f x = Ok (g x)) -> mapM f l = Ok (map g l).
Proof.
  induction l as [|x l IH]; intros H; [reflexivity |].
  cbn [mapM map]. rewrite (H x (or_introl eq_refl)). cbn [bind].
  rewrite IH by (intros y Hy; apply H; right; exact Hy). reflexivity.
Qed.

Lemma mapM_inv {A B} (f : A -> result B) l r :
  mapM f l = Ok r -> Forall2 (fun x y => f x = Ok y) l r.
Proof.
  revert r; induction l as [|x l IH]; intros r H.
  - inversion H. constructor.
  - cbn [mapM] in H. apply bind_Ok in H. destruct H as (y & Hy & H).
    apply bind_Ok in H. destruct H as (r' & Hr' & H). inversion H; subst.
    constructor; [exact Hy | apply IH; exact Hr'].
Qed.

Lemma filterM_Ok {A} (f : A -> result bool) (g : A -> bool) l :
  (forall x, In x l -> f x = Ok (g x)) -> filterM f l = Ok (filter g l).
Proof.
  induction l as [|x l IH]; intros H; [reflexivity |].
  cbn [filterM filter]. rewrite (H x (or_introl eq_refl)). cbn [bind].
  rewrite IH by (intros y Hy; apply H; right; exact Hy). reflexivity.
Qed.

Lemma filterM_inv {A} (f : A -> result bool) l r :
  filterM f l = Ok r ->
  (forall x, In x l -> exists keep, f x = Ok keep) /\
  (forall x, In x r <-> In x l /\ f x = Ok true).
Proof.
  revert r; induction l as [|x l IH]; intros r H.
  - inversion H. split; [intros x [] |]. intros x; split; [intros [] | intros [[] _]].
  - cbn [filterM] in H. apply bind_Ok in H. destruct H as (keep & Hk & H).
    apply bind_Ok in H. destruct H as (r' & Hr' & H). inversion H; subst.
    destruct (IH _ Hr') as [IH1 IH2].
    split.
    + intros y [<- | Hy]; [eauto | apply IH1; exact Hy].
    + intros y. split.
      * intros Hy. destruct keep.
        -- destruct Hy as [<- | Hy]; [split; [left; reflexivity | exact Hk] |].
           apply IH2 in Hy. destruct Hy. split; [right |]; assumption.
        -- apply IH2 in Hy. destruct Hy. split; [right |]; assumption.
      * intros [[<- | Hy] Hf].
        -- rewrite Hk in Hf. inversion Hf; subst. left. reflexivity.
        -- assert (In y r') by (apply IH2; split; assumption).
           destruct keep; [right |]; assumption.
Qed.

(** * The feasibility test and the tolerance *)

Lemma feasible_spec A b epsilon y :
  feasible A b epsilon y = true <->
  forall row bi, In (row, bi) (combine A b) -> dot row y <= bi + epsilon.
Proof.
  unfold feasible. rewrite forallb_forall. split.
  - intros H row bi Hin. apply Rleb_spec. exact (H (row, bi) Hin).
  - intros H [row bi] Hin. apply Rleb_spec. apply H. exact Hin.
Qed.

Lemma feasible_mono A b eps1 eps2 y :
  eps1 <= eps2 -> feasible A b eps1 y = true -> feasible A b eps2 y = true.
Proof.
  intros Hle H. apply feasible_spec. intros row bi Hin.
  apply (proj1 (feasible_spec A b eps1 y) H) in Hin. lra.
Qed.

Lemma vertices_loop_In A b epsilon subsets vs :
  vertices_loop A b epsilon subsets = Ok vs ->
  forall y, In y vs <->
    exists subset, In subset subsets /\
      solve (map (fun i => nth i A []) subset) (map (fun i => nth i b 0) subset)
      = Some y /\
      feasible A b epsilon y = true.
Proof.
  revert vs; induction subsets as [|s rest IH]; intros vs H y.
  - inversion H. split; [intros [] | intros (s & [] & _)].
  - cbn [vertices_loop] in H. destruct A as [|r0 A0]; [discriminate |].
    set (A := r0 :: A0) in *.
    destruct (solve (map (fun i => nth i A []) s) (map (fun i => nth i b 0) s))
      as [yt|] eqn:Es.
    + destruct (feasible A b epsilon yt) eqn:Ef.
      * apply bind_Ok in H. destruct H as (vs' & Hvs' & H). inversion H; subst vs.
        specialize (IH _ Hvs' y). split.
        -- intros [<- | Hin].
           ++ exists s. split; [left; reflexivity | split; assumption].
           ++ apply IH in Hin. destruct Hin as (s' & Hs' & Hrest).
              exists s'. split; [right; exact Hs' | exact Hrest].
        -- intros (s' & [<- | Hs'] & Hsol & Hfeas).
           ++ left. congruence.
           ++ right. apply IH. exists s'. split; [exact Hs' | split; assumption].
      * specialize (IH _ H y). rewrite IH. split.
        -- intros (s' & Hs' & Hrest). exists s'. split; [right; exact Hs' | exact Hrest].
        -- intros (s' & [<- | Hs'] & Hsol & Hfeas).
           ++ rewrite Es in Hsol. inversion Hsol; subst. congruence.
           ++ exists s'. split; [exact Hs' | split; assumption].
    + specialize (IH _ H y). rewrite IH. split.
      * intros (s' & Hs' & Hrest). exists s'. split; [right; exact Hs' | exact Hrest].
      * intros (s' & [<- | Hs'] & Hsol & Hfeas).
        -- rewrite Es in Hsol. discriminate.
        -- exists s'. split; [exact Hs' | split; assumption].
Qed.

Lemma vertices_loop_mono A b eps1 eps2 subsets v1 :
  eps1 <= eps2 ->
  vertices_loop A b eps1 subsets = Ok v1 ->
  exists v2, vertices_loop A b eps2 subsets = Ok v2 /\ incl v1 v2.
Proof.
  intros Hle. revert v1; induction subsets as [|s rest IH]; intros v1 H.
  - inversion H. exists []. split; [reflexivity | apply incl_refl].
  - cbn [vertices_loop] in *. destruct A as [|r0 A0]; [discriminate |].
    set (A := r0 :: A0) in *.
    destruct (solve (map (fun i => nth i A []) s) (map (fun i => nth i b 0) s))
      as [yt|] eqn:Es; [| apply IH; exact H].
    destruct (feasible A b eps1 yt) eqn:Ef1.
    + rewrite (feasible_mono A b eps1 eps2 yt Hle Ef1).
      apply bind_Ok in H. destruct H as (vs' & Hvs' & H). inversion H; subst v1.
      destruct (IH _ Hvs') as (v2 & Hv2 & Hincl). rewrite Hv2. cbn [bind].
      exists (yt :: v2). split; [reflexivity |].
      intros y [<- | Hy]; [left; reflexivity | right; apply Hincl; exact Hy].
    + destruct (IH _ H) as (v2 & Hv2 & Hincl).
      destruct (feasible A b eps2 yt).
      * rewrite Hv2. cbn [bind]. exists (yt :: v2). split; [reflexivity |].
        intros y Hy. right. apply Hincl. exact Hy.
      * exists v2. split; assumption.
Qed.

(** ** The solver returns one value per unknown *)

Lemma gauss_length n : forall rows xs, gauss n rows = Some xs -> length xs = n.
Proof.
  induction n as [|n IH]; intros rows xs H.
  - inversion H. reflexivity.
  - cbn [gauss] in H. destruct (find_pivot rows) as [[p others]|]; [| discriminate].
    destruct (gauss n (map (eliminate p) others)) as [ys|] eqn:E; [| discriminate].
    inversion H; subst. simpl. f_equal. apply (IH _ _ E).
Qed.

Lemma solve_length A b y : solve A b = Some y -> length y = length A.
Proof. unfold solve. apply gauss_length. Qed.

Lemma combinations_length {X} (l : list X) : forall r s,
  In s (combinations l r) -> length s = r.
Proof.
  induction l as [|x t IH]; intros r s H.
  - destruct r; simpl in H; [destruct H as [<- | []]; reflexivity | contradiction].
  - destruct r as [|r]; simpl in H; [destruct H as [<- | []]; reflexivity |].
    apply in_app_or in H. destruct H as [H | H].
    + apply in_map_iff in H. destruct H as (s' & <- & Hs'). simpl. f_equal.
      apply IH. exact Hs'.
    + apply IH. exact H.
Qed.

Lemma vertices_length A b epsilon n e vs y :
  vertices_loop A b epsilon (combinations (seq 0 n) e) = Ok vs ->
  In y vs -> length y = e.
Proof.
  intros H Hy. apply (proj1 (vertices_loop_In _ _ _ _ _ H y)) in Hy.
  destruct Hy as (s & Hs & Hsol & _).
  apply solve_length in Hsol. rewrite length_map in Hsol.
  rewrite Hsol. apply (combinations_length _ _ _ Hs).
Qed.

(** ** The reconstruction loop has every index it needs *)

Lemma reconstruct_ok variables yhat (k : outcome) c : forall js l,
  (forall j, In j js -> (j < length c)%nat) ->
  (l + length (filter (fun j => existsb (Nat.eqb j) variables) js)
   <= length yhat)%nat ->
  (l + length (filter (fun j => existsb (Nat.eqb j) variables) js)
   <= length k)%nat ->
  exists q, reconstruct variables yhat k c js l = Ok q.
Proof.
  induction js as [|j js IH]; intros l Hc Hy Hk; [eexists; reflexivity |].
  cbn [reconstruct]. cbn [filter] in Hy, Hk.
  destruct (existsb (Nat.eqb j) variables).
  - cbn [length] in Hy, Hk.
    destruct (get_lt yhat l) as (yl & Hyl); [lia |].
    destruct (get_lt k l) as (kl & Hkl); [lia |].
    rewrite Hyl, Hkl. cbn [bind].
    destruct (IH (S l)) as (q & Hq); [intros i Hi; apply Hc; right; exact Hi | lia | lia |].
    rewrite Hq. cbn [bind]. eexists; reflexivity.
  - destruct (get_lt c j) as (cj & Hcj); [apply Hc; left; reflexivity |].
    rewrite Hcj. cbn [bind].
    destruct (IH l) as (q & Hq); [intros i Hi; apply Hc; right; exact Hi | lia | lia |].
    rewrite Hq. cbn [bind]. eexists; reflexivity.
Qed.

Lemma get_Ok_lt {A} (l : list A) i a : get l i = Ok a -> (i < length l)%nat.
Proof. intros H. apply get_Ok in H. apply nth_error_Some. congruence. Qed.

Lemma free_coordinates_inv c d variables :
  free_coordinates c d = Ok variables ->
  (d <= length c)%nat /\
  variables = filter (fun x => Rltb 0 (nth x c 0) && Rltb (nth x c 0) 1) (seq 0 d).
Proof.
  unfold free_coordinates. intros H.
  destruct (filterM_inv _ _ _ H) as [Hall _].
  assert (Hlt : forall x, In x (seq 0 d) -> (x < length c)%nat).
  { intros x Hx. destruct (Hall x Hx) as (keep & Hk).
    apply bind_Ok in Hk. destruct Hk as (cx & Hcx & _).
    apply (get_Ok_lt _ _ _ Hcx). }
  split.
  - destruct d as [|d]; [lia |].
    assert (d < length c)%nat by (apply Hlt; apply in_seq; lia). lia.
  - rewrite (filterM_Ok _ (fun x => Rltb 0 (nth x c 0) && Rltb (nth x c 0) 1)) in H.
    + inversion H. reflexivity.
    + intros x Hx. rewrite (get_nth c x 0 (Hlt x Hx)). reflexivity.
Qed.

Lemma filter_member_length (g : nat -> bool) l :
  length (filter (fun j => existsb (Nat.eqb j) (filter g l)) l)
  = length (filter g l).
Proof.
  f_equal. apply filter_ext_in. intros j Hj.
  destruct (g j) eqn:E.
  - apply existsb_exists. exists j. split; [| apply Nat.eqb_refl].
    apply filter_In. split; assumption.
  - destruct (existsb (Nat.eqb j) (filter g l)) eqn:E'; [| reflexivity].
    apply existsb_exists in E'. destruct E' as (x & Hx & Hjx).
    apply Nat.eqb_eq in Hjx. subst x. apply filter_In in Hx. destruct Hx. congruence.
Qed.

Lemma reconstruct_total c (k : outcome) variables yhat :
  free_coordinates c (length k) = Ok variables ->
  length yhat = length variables ->
  exists q, reconstruct variables yhat k c (seq 0 (length k)) 0 = Ok q.
Proof.
  intros Hv Hy. destruct (free_coordinates_inv _ _ _ Hv) as [Hd ->].
  pose proof (filter_length_le
                (fun x => Rltb 0 (nth x c 0) && Rltb (nth x c 0) 1)
                (seq 0 (length k))) as Hle.
  rewrite length_seq in Hle.
  apply reconstruct_ok.
  - intros j Hj. apply in_seq in Hj. lia.
  - rewrite filter_member_length. lia.
  - rewrite filter_member_length. lia.
Qed.

Lemma mapM_objective P K vs cv :
  mapM (fun y => PK <- get P K ;; Ok (objective PK y)) vs = Ok cv ->
  (vs = [] /\ cv = []) \/
  (exists PK, get P K = Ok PK /\ cv = map (objective PK) vs).
Proof.
  destruct vs as [|y vs]; intros H.
  - inversion H. left. split; reflexivity.
  - right. pose proof H as H'. cbn [mapM] in H'.
    apply bind_Ok in H'. destruct H' as (o & Ho & _).
    apply bind_Ok in Ho. destruct Ho as (PK & HPK & _).
    exists PK. split; [exact HPK |].
    rewrite (mapM_Ok _ (objective PK)) in H.
    + inversion H. reflexivity.
    + intros z _. rewrite HPK. reflexivity.
Qed.

(** C9: a solution of a square subsystem is kept as a vertex exactly when
    it satisfies every row of the full system within the tolerance; a
    larger tolerance keeps every vertex that a smaller one keeps, and the
    maximum objective value that is returned does not decrease. *)
Theorem tolerance_monotone (P : list R) (k : outcome) (c : list R)
        (eps1 eps2 : R) :
  eps1 <= eps2 ->
  (forall A b subsets vs,
      vertices_loop A b eps1 subsets = Ok vs ->
      forall y, In y vs <->
        exists subset, In subset subsets /\
          solve (map (fun i => nth i A []) subset)
                (map (fun i => nth i b 0) subset) = Some y /\
          forall row bi, In (row, bi) (combine A b) -> dot row y <= bi + eps1) /\
  (forall A b subsets v1,
      vertices_loop A b eps1 subsets = Ok v1 ->
      exists v2, vertices_loop A b eps2 subsets = Ok v2 /\ incl v1 v2) /\
  (forall M1 q1,
      computeVerticesHoles P k c eps1 = Ok (M1, q1) ->
      exists M2 q2,
        computeVerticesHoles P k c eps2 = Ok (M2, q2) /\ M1 <= M2).
Proof.
  intros Hle. split; [| split].
  - intros A b subsets vs H y.
    rewrite (vertices_loop_In _ _ _ _ _ H y).
    split; intros (s & Hs & Hsol & Hf); exists s; (split; [exact Hs |]);
      (split; [exact Hsol |]); apply feasible_spec; exact Hf.
  - intros A b subsets v1 H. apply (vertices_loop_mono _ _ _ _ _ _ Hle H).
  - intros M1 q1 H. unfold computeVerticesHoles in *.
    apply bind_Ok in H. destruct H as (holes & -> & H). cbn [bind].
    apply bind_Ok in H. destruct H as (variables & Hvars & H).
    rewrite Hvars. cbn [bind].
    apply bind_Ok in H. destruct H as (K & -> & H). cbn [bind].
    apply bind_Ok in H. destruct H as ([A b] & -> & H). cbn [bind].
    apply bind_Ok in H. destruct H as (v1 & Hv1 & H).
    apply bind_Ok in H. destruct H as (cv1 & Hcv1 & H).
    apply bind_Ok in H. destruct H as (M & HM & H).
    apply bind_Ok in H. destruct H as (i1 & _ & H).
    apply bind_Ok in H. destruct H as (yhat1 & _ & H).
    apply bind_Ok in H. destruct H as (q & _ & H).
    inversion H; subst M q. clear H.
    destruct (vertices_loop_mono _ _ _ _ _ _ Hle Hv1) as (v2 & Hv2 & Hincl).
    rewrite Hv2. cbn [bind].
    destruct (mapM_objective _ _ _ _ Hcv1) as [[-> ->] | (PK & HPK & ->)];
      [discriminate |].
    rewrite (mapM_Ok _ (objective PK))
      by (intros z _; rewrite HPK; reflexivity).
    cbn [bind].
    assert (Hin1 : In M1 (map (objective PK) v2)).
    { apply py_max_In in HM. apply in_map_iff in HM.
      destruct HM as (y & <- & Hy). apply in_map. apply Hincl. exact Hy. }
    destruct (py_max_nonempty (map (objective PK) v2)) as (M2 & HM2).
    { intros E. rewrite E in Hin1. contradiction. }
    rewrite HM2. cbn [bind].
    destruct (index_Reqb_In _ _ (py_max_In _ _ HM2)) as (i2 & Hi2 & Hlt).
    rewrite Hi2. cbn [bind]. rewrite length_map in Hlt.
    destruct (get_lt v2 i2 Hlt) as (yhat2 & Hyhat2). rewrite Hyhat2. cbn [bind].
    assert (Hlen : length yhat2 = length variables).
    { apply (vertices_length _ _ _ _ _ _ _ Hv2).
      apply get_Ok in Hyhat2. apply (nth_error_In _ _ Hyhat2). }
    destruct (reconstruct_total _ _ _ _ Hvars Hlen) as (q2 & Hq2).
    rewrite Hq2. cbn [bind].
    exists M2, q2. split; [reflexivity |].
    apply (py_max_upper _ _ _ HM2 Hin1).
Qed.

Lemma tolerance_monotone_witness :
  1 / 100000 <= 1 / 1000 /\
  (forall M1 q1,
      computeVerticesHoles [1 / 4; 1 / 4; 1 / 4; 1 / 4] [false; false]
                           [1 / 2; 1 / 2] (1 / 100000) = Ok (M1, q1) ->
      exists M2 q2,
        computeVerticesHoles [1 / 4; 1 / 4; 1 / 4; 1 / 4] [false; false]
                             [1 / 2; 1 / 2] (1 / 1000) = Ok (M2, q2) /\
        M1 <= M2).
Proof.
  split; [lra |].
  apply (tolerance_monotone [1 / 4; 1 / 4; 1 / 4; 1 / 4] [false; false]
                            [1 / 2; 1 / 2] (1 / 100000) (1 / 1000)).
  lra.
Defined.

(** ** The solver returns a solution of the system *)

Lemma axpy_length f u : forall v,
  length u = length v -> length (axpy f u v) = length v.
Proof.
  induction u as [|a u IH]; intros [|b v] H; try discriminate; [reflexivity |].
  simpl. f_equal. apply IH. simpl in H. lia.
Qed.

Lemma dot_axpy f u : forall v xs,
  length u = length v ->
  dot (axpy f u v) xs = dot v xs - f * dot u xs.
Proof.
  induction u as [|a u IH]; intros [|b v] xs H; try discriminate.
  - simpl. lra.
  - destruct xs as [|x xs]; cbn [axpy dot]; [lra |].
    rewrite IH by (simpl in H; lia). lra.
Qed.

Lemma find_pivot_spec rows : forall p others,
  find_pivot rows = Some (p, others) ->
  hd 0 (fst p) <> 0 /\
  length rows = S (length others) /\
  (forall r, In r rows <-> r = p \/ In r others).
Proof.
  induction rows as [|r0 rows IH]; intros p others H; [discriminate |].
  cbn [find_pivot] in H. destruct (Reqb (hd 0 (fst r0)) 0) eqn:E.
  - destruct (find_pivot rows) as [[p' others']|]; [| discriminate].
    inversion H; subst. destruct (IH _ _ eq_refl) as (Hp & Hl & Hin).
    split; [exact Hp |]. split; [simpl; lia |].
    intros r. cbn [In]. rewrite Hin. tauto.
  - inversion H; subst. split; [| split; [reflexivity |]].
    + intros Hz. apply Reqb_true in Hz. congruence.
    + intros r. cbn [In]. split; intros [Hr | Hr]; auto.
Qed.

Lemma gauss_sound n : forall rows xs,
  gauss n rows = Some xs ->
  length rows = n ->
  (forall r, In r rows -> length (fst r) = n) ->
  forall r, In r rows -> dot (fst r) xs = snd r.
Proof.
  induction n as [|n IH]; intros rows xs H Hrows Hlen r Hr.
  - destruct rows; [contradiction | discriminate].
  - cbn [gauss] in H.
    destruct (find_pivot rows) as [[p others]|] eqn:Ep; [| discriminate].
    destruct (gauss n (map (eliminate p) others)) as [ys|] eqn:Eg; [| discriminate].
    inversion H; subst xs. clear H.
    destruct (find_pivot_spec _ _ _ Ep) as (Hp & Hl & Hin).
    assert (Hplen : length (fst p) = S n)
      by (apply Hlen; apply Hin; left; reflexivity).
    destruct p as [prow prhs]. destruct prow as [|pa pu]; [discriminate |].
    cbn [fst snd hd tl] in *.
    assert (Hothers : forall r', In r' others ->
              dot (tl (fst r')) ys - hd 0 (fst r') / pa * dot pu ys
              = snd r' - hd 0 (fst r') / pa * prhs).
    { intros r' Hr'.
      assert (Htl : length pu = length (tl (fst r'))).
      { assert (length (fst r') = S n) by (apply Hlen; apply Hin; right; exact Hr').
        destruct (fst r'); [discriminate |]. simpl in *. lia. }
      rewrite <- (dot_axpy _ _ _ _ Htl).
      change (dot (fst (eliminate (pa :: pu, prhs) r')) ys
              = snd (eliminate (pa :: pu, prhs) r')).
      apply (IH (map (eliminate (pa :: pu, prhs)) others) ys Eg).
      - rewrite length_map. lia.
      - intros r2 Hr2. apply in_map_iff in Hr2. destruct Hr2 as (r3 & <- & Hr3).
        unfold eliminate. cbn [fst snd hd tl].
        assert (length (fst r3) = S n) by (apply Hlen; apply Hin; right; exact Hr3).
        rewrite axpy_length; destruct (fst r3); simpl in *; try discriminate; lia.
      - apply (in_map (eliminate (pa :: pu, prhs)) others r' Hr'). }
    apply Hin in Hr. destruct Hr as [-> | Hr'].
    + cbn [fst snd dot]. field. exact Hp.
    + pose proof (Hothers r Hr') as Heq.
      assert (Hrl : length (fst r) = S n) by (apply Hlen; apply Hin; right; exact Hr').
      destruct r as [row rhs]. destruct row as [|a u]; [discriminate |].
      cbn [fst snd hd tl dot] in *.
      replace (dot u ys) with (rhs - a / pa * prhs + a / pa * dot pu ys) by lra.
      field. exact Hp.
Qed.

Lemma solve_sound A b y :
  solve A b = Some y ->
  length b = length A ->
  (forall row, In row A -> length row = length A) ->
  forall row bi, In (row, bi) (combine A b) -> dot row y = bi.
Proof.
  unfold solve. intros H Hb HA row bi Hin.
  assert (Hrows : length (combine A b) = length A)
    by (rewrite length_combine; lia).
  assert (Hlen : forall r : arow, In r (combine A b) -> length (fst r) = length A).
  { intros [r0 b0] Hr. apply in_combine_l in Hr. apply HA. exact Hr. }
  exact (gauss_sound (length A) (combine A b) y H Hrows Hlen (row, bi) Hin).
Qed.

(** ** The solution that the solver returns is the only one *)

Lemma gauss_unique n : forall rows xs z,
  gauss n rows = Some xs ->
  (forall r, In r rows -> length (fst r) = n) ->
  length z = n ->
  (forall r, In r rows -> dot (fst r) z = snd r) ->
  z = xs.
Proof.
  induction n as [|n IH]; intros rows xs z H Hlen Hz Hsol.
  - inversion H. destruct z; [reflexivity | discriminate].
  - cbn [gauss] in H.
    destruct (find_pivot rows) as [[p others]|] eqn:Ep; [| discriminate].
    destruct (gauss n (map (eliminate p) others)) as [ys|] eqn:Eg; [| discriminate].
    inversion H; subst xs. clear H.
    destruct (find_pivot_spec _ _ _ Ep) as (Hp & _ & Hin).
    assert (Hplen : length (fst p) = S n)
      by (apply Hlen; apply Hin; left; reflexivity).
    pose proof (Hsol p (proj2 (Hin p) (or_introl eq_refl))) as Hpsol.
    destruct p as [prow prhs]. destruct prow as [|pa pu]; [discriminate |].
    destruct z as [|z0 z]; [discriminate |].
    cbn [fst snd hd tl dot] in *.
    assert (Hzy : z = ys).
    { apply (IH (map (eliminate (pa :: pu, prhs)) others) ys z Eg).
      - intros r2 Hr2. apply in_map_iff in Hr2. destruct Hr2 as (r3 & <- & Hr3).
        unfold eliminate. cbn [fst snd hd tl].
        assert (length (fst r3) = S n) by (apply Hlen; apply Hin; right; exact Hr3).
        rewrite axpy_length; destruct (fst r3); simpl in *; try discriminate; lia.
      - simpl in Hz. lia.
      - intros r2 Hr2. apply in_map_iff in Hr2. destruct Hr2 as (r3 & <- & Hr3).
        assert (Hr3l : length (fst r3) = S n)
          by (apply Hlen; apply Hin; right; exact Hr3).
        pose proof (Hsol r3 (proj2 (Hin r3) (or_intror Hr3))) as Hr3sol.
        unfold eliminate. cbn [fst snd hd tl].
        destruct r3 as [row rhs]. destruct row as [|a u]; [discriminate |].
        cbn [fst snd hd tl dot] in *.
        rewrite dot_axpy by (simpl in *; lia).
        replace (dot u z) with (rhs - a * z0) by lra.
        replace (dot pu z) with (prhs - pa * z0) by lra.
        field. exact Hp. }
    subst z. f_equal.
    replace (dot pu ys) with (prhs - pa * z0) by lra.
    field. exact Hp.
Qed.

Lemma solve_unique A b y z :
  solve A b = Some y ->
  length b = length A ->
  (forall row, In row A -> length row = length A) ->
  length z = length A ->
  (forall row bi, In (row, bi) (combine A b) -> dot row z = bi) ->
  z = y.
Proof.
  unfold solve. intros H Hb HA Hz Hsol.
  apply (gauss_unique (length A) (combine A b) y z H).
  - intros [r0 b0] Hr. apply in_combine_l in Hr. apply HA. exact Hr.
  - exact Hz.
  - intros [r0 b0] Hr. apply Hsol. exact Hr.
Qed.

(** ** The solver refuses only singular systems *)

Lemma dot_zeros u m : dot u (repeat 0 m) = 0.
Proof.
  revert m; induction u as [|a u IH]; intros [|m]; simpl; try lra.
  rewrite IH. lra.
Qed.

Lemma find_pivot_none rows :
  find_pivot rows = None -> forall r, In r rows -> hd 0 (fst r) = 0.
Proof.
  induction rows as [|r0 rows IH]; intros H r Hr; [contradiction |].
  cbn [find_pivot] in H. destruct (Reqb (hd 0 (fst r0)) 0) eqn:E.
  - destruct (find_pivot rows) as [[p others]|]; [discriminate |].
    destruct Hr as [<- | Hr]; [apply Reqb_spec; exact E | apply (IH eq_refl r Hr)].
  - discriminate.
Qed.

Lemma gauss_singular n : forall rows,
  gauss n rows = None ->
  (forall r, In r rows -> length (fst r) = n) ->
  exists z, length z = n /\ Exists (fun v => v <> 0) z /\
            forall r, In r rows -> dot (fst r) z = 0.
Proof.
  induction n as [|n IH]; intros rows H Hlen; [discriminate |].
  cbn [gauss] in H.
  destruct (find_pivot rows) as [[p others]|] eqn:Ep.
  - destruct (gauss n (map (eliminate p) others)) as [ys|] eqn:Eg; [discriminate |].
    destruct (find_pivot_spec _ _ _ Ep) as (Hp & _ & Hin).
    assert (Hplen : length (fst p) = S n)
      by (apply Hlen; apply Hin; left; reflexivity).
    destruct p as [prow prhs]. destruct prow as [|pa pu]; [discriminate |].
    cbn [fst snd hd tl] in *.
    destruct (IH (map (eliminate (pa :: pu, prhs)) others) Eg) as (z & Hz & Hnz & Hker).
    { intros r2 Hr2. apply in_map_iff in Hr2. destruct Hr2 as (r3 & <- & Hr3).
      unfold eliminate. cbn [fst snd hd tl].
      assert (length (fst r3) = S n) by (apply Hlen; apply Hin; right; exact Hr3).
      rewrite axpy_length; destruct (fst r3); simpl in *; try discriminate; lia. }
    exists (- dot pu z / pa :: z).
    split; [simpl; congruence |].
    split; [apply Exists_cons_tl; exact Hnz |].
    intros r Hr. apply Hin in Hr. destruct Hr as [-> | Hr].
    + cbn [fst dot]. field. exact Hp.
    + assert (Hrl : length (fst r) = S n) by (apply Hlen; apply Hin; right; exact Hr).
      pose proof (Hker _ (in_map (eliminate (pa :: pu, prhs)) others r Hr)) as Hk.
      unfold eliminate in Hk. cbn [fst snd hd tl] in Hk.
      destruct r as [row rhs]. destruct row as [|a u]; [discriminate |].
      cbn [fst snd hd tl dot] in *.
      rewrite dot_axpy in Hk by (simpl in *; lia).
      replace (dot u z) with (a / pa * dot pu z) by lra.
      field. exact Hp.
  - exists (1 :: repeat 0 n).
    split; [simpl; rewrite repeat_length; reflexivity |].
    split; [apply Exists_cons_hd; lra |].
    intros r Hr. pose proof (find_pivot_none _ Ep r Hr) as Hhd.
    assert (Hrl : length (fst r) = S n) by (apply Hlen; exact Hr).
    destruct (fst r) as [|a u]; [discriminate |].
    cbn [hd] in Hhd. subst a. cbn [dot]. rewrite dot_zeros. lra.
Qed.

Lemma solve_singular A b :
  solve A b = None ->
  length b = length A ->
  (forall row, In row A -> length row = length A) ->
  exists z, length z = length A /\ Exists (fun v => v <> 0) z /\
            forall row, In row A -> dot row z = 0.
Proof.
  unfold solve. intros H Hb HA.
  destruct (gauss_singular (length A) (combine A b) H) as (z & Hz & Hnz & Hker).
  - intros [r0 b0] Hr. apply in_combine_l in Hr. apply HA. exact Hr.
  - exists z. split; [exact Hz |]. split; [exact Hnz |].
    intros row Hrow.
    destruct (In_nth _ _ [] Hrow) as (i & Hi & Hnth).
    assert (Hin : In (row, nth i b 0) (combine A b)).
    { rewrite <- Hnth. rewrite <- (combine_nth A b i [] 0) by lia.
      apply nth_In. rewrite length_combine. lia. }
    apply (Hker _ Hin).
Qed.

(** * The sign flip of the reconstruction *)

(** The loop reads the reference outcome at [l], the position of the
    variable among the free coordinates, and not at the coordinate [j]. *)

Ltac norm_exp_ln := rewrite exp_ln by lra.

Ltac compatible_eval :=
  unfold compatible, createIndependentSource; cbn;
  rewrite ?bernoulli_factor_eq; reval.

(** C4: with the first coordinate fixed to 1 and the second free, on the
    distribution [0, 0, 1/5, 4/5] and the reference outcome 10, the free
    coordinate gets 1/5: the flip follows the first character of the
    outcome.  With the character at the free coordinate it would be 4/5,
    the parameter of the source that equals the distribution. *)
Theorem reconstruct_reads_position :
  computeVerticesHoles [0; 0; 1 / 5; 4 / 5] [true; false] [1; 1 / 2]
                       epsilon_default
  = Ok (1, [1; 1 / 5]) /\
  (let y := ln (4 / 5 / (1 / 5)) in
   let s := float_pow (exp y)
                      (1 - 2 * float_of_bit (nth 1 [true; false] false)) in
   s / (1 + s) = 4 / 5).
Proof.
  split.
  - cvh_eval_with norm_exp_ln. cvh_done.
  - cbn [nth]. cbv zeta. rewrite exp_ln by lra.
    rewrite float_pow_sign by lra. lra.
Qed.

Lemma skewed_call_11 :
  computeVerticesHoles [0; 0; 1 / 5; 4 / 5] [true; true] [1; 1 / 2]
                       epsilon_default
  = Ok (1, [1; 4 / 5]).
Proof. cvh_eval_with norm_exp_ln. cvh_done. Qed.

Lemma skewed_call_10 :
  computeVerticesHoles [0; 0; 1 / 5; 4 / 5] [true; false] [1; 1 / 2]
                       epsilon_default
  = Ok (1, [1; 1 / 5]).
Proof. cvh_eval_with norm_exp_ln. cvh_done. Qed.

(** The search then returns parameters whose source is not the
    distribution, although the distribution is itself independent. *)
Lemma indWeightHoles_skewed :
  indWeightHoles [0; 0; 1 / 5; 4 / 5] = Ok (1, [1; 1 / 5]) /\
  createIndependentSource [1; 1 / 5] = [0; 0; 4 / 5; 1 / 5] /\
  createIndependentSource [1; 4 / 5] = [0; 0; 1 / 5; 4 / 5].
Proof.
  split; [| split; source_eval].
  unfold indWeightHoles, compatible_configurations. reval.
  repeat (match goal with
          | |- context [compatible ?c ?P] =>
              let H := fresh in
              first [ assert (H : compatible c P = Ok true)
                        by (compatible_eval; reflexivity)
                    | assert (H : compatible c P = Ok false)
                        by (compatible_eval; reflexivity) ];
              rewrite H; clear H
          end).
  reval. sources_eval. reval. rewrite skewed_call_10, skewed_call_11.
  reval. max_eval. reval. reflexivity.
Qed.

(** * Point masses *)

Lemma product_In {X} (al : list X) d c :
  In c (product al d) -> length c = d /\ Forall (fun v => In v al) c.
Proof.
  revert c; induction d as [|d IH]; intros c H.
  - destruct H as [<- | []]. split; [reflexivity | constructor].
  - cbn [product] in H. apply in_flat_map in H. destruct H as (a & Ha & H).
    apply in_map_iff in H. destruct H as (c' & <- & Hc').
    destruct (IH _ Hc') as [Hl Hf]. split; [simpl; congruence |].
    constructor; assumption.
Qed.

Lemma product_probability_cons v c ch (x : outcome) :
  product_probability (v :: c) (ch :: x)
  = (if ch then v else 1 - v) * product_probability c x.
Proof. reflexivity. Qed.

Lemma sidestep_length c : forall x : outcome,
  length x = length c -> length (sidestep c x) = length c.
Proof.
  induction c as [|v c IH]; intros [|ch x] H; try discriminate; [reflexivity |].
  simpl. f_equal. apply IH. simpl in H. lia.
Qed.

Lemma sidestep_support c : forall x : outcome,
  length x = length c ->
  Forall (fun v => In v [0; 1; 1 / 2]) c ->
  product_probability c (sidestep c x) <> 0.
Proof.
  induction c as [|v c IH]; intros [|ch x] Hl Hc; try discriminate.
  - unfold product_probability, prod. simpl. lra.
  - inversion Hc as [|? ? Hv Hc']; subst.
    cbn [sidestep]. rewrite product_probability_cons.
    assert (IH' := IH x ltac:(simpl in Hl; lia) Hc').
    apply Rmult_integral_contrapositive_currified; [| exact IH'].
    destruct Hv as [<- | [<- | [<- | []]]].
    + rewrite Reqb_true by reflexivity. lra.
    + rewrite Reqb_false by lra. rewrite Reqb_true by reflexivity. lra.
    + rewrite !Reqb_false by lra. destruct (negb ch); lra.
Qed.

Lemma sidestep_differs c : forall x : outcome,
  length x = length c ->
  (0 < count (1 / 2) c)%nat ->
  sidestep c x <> x.
Proof.
  induction c as [|v c IH]; intros [|ch x] Hl Hc; try discriminate.
  - unfold count in Hc. simpl in Hc. lia.
  - cbn [sidestep]. intros E. inversion E as [[E1 E2]].
    unfold count in Hc. cbn [filter] in Hc.
    destruct (Req_dec_T v (1 / 2)) as [Hv | Hv].
    + subst v. rewrite !Reqb_false in E1 by lra. destruct ch; discriminate.
    + rewrite (Reqb_false _ _ Hv) in Hc.
      apply (IH x); [simpl in Hl; lia | exact Hc | exact E2].
Qed.

Lemma point_mass_length (x : outcome) :
  length (point_mass x) = (2 ^ length x)%nat.
Proof. unfold point_mass. rewrite length_map. apply outcomes_length. Qed.

Lemma point_mass_get (x y : outcome) :
  length y = length x ->
  get (point_mass x) (outcome_index y) = Ok (if outcome_eqb y x then 1 else 0).
Proof.
  intros H. apply get_Ok. unfold point_mass.
  rewrite nth_error_map, <- H, outcomes_nth_error. reflexivity.
Qed.

Lemma compatible_returns c P :
  length P = (2 ^ length c)%nat -> exists r, compatible c P = Ok r.
Proof.
  intros Hlen. unfold compatible.
  rewrite int_log2_pos
    by (rewrite Hlen; apply Nat.neq_0_lt_0, Nat.pow_nonzero; discriminate).
  cbn [bind].
  destruct (compatible_loop_spec P (createIndependentSource c) (seq 0 (length P)))
    as [[H _] | [H _]]; [| eauto | eauto].
  intros j Hj. apply in_seq in Hj.
  rewrite createIndependentSource_length. lia.
Qed.

Lemma point_mass_incompatible c (x : outcome) :
  length c = length x ->
  Forall (fun v => In v [0; 1; 1 / 2]) c ->
  (0 < count (1 / 2) c)%nat ->
  compatible c (point_mass x) = Ok false.
Proof.
  intros Hl Hc Hfree.
  destruct (compatible_decides c (point_mass x)) as [[_ Hr] | [Hm _]];
    [rewrite point_mass_length; congruence | exact Hr |].
  exfalso. apply Hm.
  exists (outcome_index (sidestep c x)). split.
  - rewrite point_mass_get by (rewrite sidestep_length; congruence).
    destruct (outcome_eqb (sidestep c x) x) eqn:E; [| reflexivity].
    apply outcome_eqb_eq in E. exfalso.
    apply (sidestep_differs c x); [congruence | exact Hfree | exact E].
  - exists (product_probability c (sidestep c x)). split.
    + apply get_Ok. apply createIndependentSource_nth.
      apply sidestep_length. congruence.
    + apply sidestep_support; [congruence | exact Hc].
Qed.

Lemma filter_none {A} (l : list A) : filter (fun _ => false) l = [].
Proof. induction l; [reflexivity | assumption]. Qed.

Lemma point_mass_no_configuration (x : outcome) :
  compatible_configurations (point_mass x) (length x) = Ok [].
Proof.
  unfold compatible_configurations.
  rewrite (filterM_Ok _ (fun _ => false)); [rewrite filter_none; reflexivity |].
  intros c Hc. apply product_In in Hc. destruct Hc as [Hl Hc].
  destruct (Nat.ltb_spec 0 (count (1 / 2) c)) as [Hfree | Hfree].
  - rewrite (point_mass_incompatible c x Hl Hc Hfree). reflexivity.
  - destruct (compatible_returns c (point_mass x)) as (r & ->).
    + rewrite point_mass_length. congruence.
    + cbn [bind]. rewrite andb_false_r. reflexivity.
Qed.

Lemma point_mass_raises (x : outcome) :
  indWeightHoles (point_mass x) = Raise ValueError_empty_max.
Proof.
  unfold indWeightHoles. rewrite point_mass_length.
  rewrite int_log2_pos by (apply Nat.neq_0_lt_0, Nat.pow_nonzero; discriminate).
  cbn [bind]. rewrite Nat.log2_pow2 by lia.
  rewrite point_mass_no_configuration. reflexivity.
Qed.

(** The deterministic source that matches [x] is the point mass on [x]. *)

Lemma createIndependentSource_eq params :
  createIndependentSource params
  = map (product_probability params) (outcomes (length params)).
Proof.
  unfold createIndependentSource. apply map_ext_in. intros x Hx.
  apply outcomes_In_length in Hx.
  rewrite fold_left_factors by exact Hx.
  unfold product_probability. rewrite Rmult_1_l. f_equal.
  apply map_ext. intros [p ch]. apply bernoulli_factor_eq.
Qed.

Lemma deterministic_probability (x : outcome) : forall y : outcome,
  length y = length x ->
  product_probability (map float_of_bit x) y
  = if outcome_eqb y x then 1 else 0.
Proof.
  induction x as [|xb x IH]; intros [|yb y] H; try discriminate.
  - unfold product_probability, prod. reflexivity.
  - cbn [map outcome_eqb]. rewrite product_probability_cons.
    rewrite IH by (simpl in H; lia).
    destruct yb, xb, (outcome_eqb y x); simpl; lra.
Qed.

Lemma deterministic_source (x : outcome) :
  createIndependentSource (map float_of_bit x) = point_mass x.
Proof.
  rewrite createIndependentSource_eq, length_map. unfold point_mass.
  apply map_ext_in. intros y Hy. apply outcomes_In_length in Hy.
  apply deterministic_probability. exact Hy.
Qed.

Lemma deterministic_not_free (x : outcome) :
  count (1 / 2) (map float_of_bit x) = O.
Proof.
  unfold count. induction x as [|xb x IH]; [reflexivity |].
  cbn [map filter]. rewrite Reqb_false by (destruct xb; simpl; lra).
  exact IH.
Qed.

(** C6: the code fails on a point mass.  The deterministic source that
    matches [x] is the point mass on [x] itself and its configuration is
    compatible with it, so the weight 1 with the bits of [x] as parameters
    is the answer that the search should give; but that configuration has
    no free coordinate and the filter [c.count(0.5)>0] leaves it out, while
    every configuration with a free coordinate is incompatible: no
    configuration is kept, and instead of returning the search raises the
    [ValueError] of [max] on an empty list. *)
Theorem indWeightHoles_point_mass (x : outcome) :
  createIndependentSource (map float_of_bit x) = point_mass x /\
  compatible (map float_of_bit x) (point_mass x) = Ok true /\
  count (1 / 2) (map float_of_bit x) = O /\
  compatible_configurations (point_mass x) (length x) = Ok [] /\
  indWeightHoles (point_mass x) = Raise ValueError_empty_max.
Proof.
  split; [apply deterministic_source |].
  split.
  - rewrite <- (deterministic_source x).
    unfold compatible.
    rewrite int_log2_pos
      by (rewrite createIndependentSource_length;
          apply Nat.neq_0_lt_0, Nat.pow_nonzero; discriminate).
    cbn [bind]. apply compatible_loop_self.
    intros j Hj. apply in_seq in Hj. lia.
  - split; [apply deterministic_not_free |].
    split; [apply point_mass_no_configuration |].
    apply point_mass_raises.
Qed.

(** The smallest failing input: on the point mass on the outcome 0 of one
    coordinate the search raises and does not return the weight 1 with
    the parameter 0. *)
Lemma point_mass_not_returned :
  indWeightHoles [1; 0] = Raise ValueError_empty_max /\
  indWeightHoles [1; 0] <> Ok (1, [0]).
Proof.
  change [1; 0] with (point_mass [false]).
  rewrite point_mass_raises. split; [reflexivity | discriminate].
Qed.

(** * The calls made by the search *)

Lemma int_log2_inv n d : int_log2 n = Ok d -> (2 ^ d <= n)%nat /\ d = Nat.log2 n.
Proof.
  destruct n as [|n]; [discriminate |]. intros H. inversion H; subst.
  split; [| reflexivity]. apply Nat.log2_spec. lia.
Qed.

Lemma compatible_loop_true P Q js :
  compatible_loop P Q js = Ok true ->
  forall j, In j js -> get P j = Ok 0 -> get Q j = Ok 0.
Proof.
  induction js as [|i js IH]; intros H j Hj HP; [contradiction |].
  cbn [compatible_loop] in H.
  apply bind_Ok in H. destruct H as (Pi & HPi & H).
  destruct Hj as [<- | Hj].
  - rewrite HP in HPi. inversion HPi; subst Pi.
    rewrite Reqb_true in H by reflexivity.
    apply bind_Ok in H. destruct H as (Qi & HQi & H).
    destruct (Reqb Qi 0) eqn:E; [| discriminate].
    apply Reqb_spec in E. subst Qi. exact HQi.
  - destruct (Reqb Pi 0).
    + apply bind_Ok in H. destruct H as (Qi & HQi & H).
      destruct (negb (Reqb Qi 0)); [discriminate |].
      apply (IH H j Hj HP).
    + apply (IH H j Hj HP).
Qed.

Lemma compatible_true c P :
  compatible c P = Ok true ->
  forall j, get P j = Ok 0 -> get (createIndependentSource c) j = Ok 0.
Proof.
  unfold compatible. intros H j HP.
  apply bind_Ok in H. destruct H as (d & _ & H).
  apply (compatible_loop_true _ _ _ H); [| exact HP].
  apply in_seq. apply get_Ok_lt in HP. lia.
Qed.

Lemma compatible_configurations_inv P d compatibles c :
  compatible_configurations P d = Ok compatibles ->
  In c compatibles ->
  length c = d /\ Forall (fun v => In v [0; 1; 1 / 2]) c /\
  compatible c P = Ok true /\ (0 < count (1 / 2) c)%nat.
Proof.
  unfold compatible_configurations. intros H Hc.
  destruct (filterM_inv _ _ _ H) as [_ Hin].
  apply Hin in Hc. destruct Hc as [Hc Hf].
  apply product_In in Hc. destruct Hc as [Hl Hall].
  apply bind_Ok in Hf. destruct Hf as (ok & Hok & Hf).
  injection Hf as E. apply andb_true_iff in E. destruct E as [E1 E2].
  subst ok. apply Nat.ltb_lt in E2. repeat split; assumption.
Qed.

Lemma system_loop_returns P Q Range K variables PK js :
  get P K = Ok PK -> PK <> 0 ->
  (forall j, In j js -> (j < length P)%nat /\ (j < length Q)%nat) ->
  exists A b, system_loop P Q Range K variables js = Ok (A, b).
Proof.
  intros HK HPK. induction js as [|j js IH]; intros Hjs.
  - exists [], []. reflexivity.
  - destruct IH as (A & b & IH); [intros i Hi; apply Hjs; right; exact Hi |].
    destruct (Hjs j (or_introl eq_refl)) as [HjP HjQ].
    cbn [system_loop].
    destruct (negb (j =? K)%nat); cbn [bind]; [| eauto].
    rewrite (get_nth P j 0 HjP). cbn [bind].
    destruct (Rltb 0 (nth j P 0)); cbn [bind]; [| eauto].
    rewrite (get_nth Q j 0 HjQ). cbn [bind].
    destruct (Rltb 0 (nth j Q 0)); [| eauto].
    rewrite HK. cbn [bind]. rewrite (Reqb_false _ _ HPK), IH. cbn [bind].
    eauto.
Qed.

(** C10: for every call that the search makes on a distribution with
    non-negative entries, the reference probability [P[K]] is positive, so
    every quotient [P[j]/P[K]] with [P[j] > 0] is positive and the loop that
    builds the right-hand sides raises nothing. *)
Theorem reference_probability_positive (P c : list R) (I0 : outcome) :
  Forall (fun p => 0 <= p) P ->
  invokes P c I0 ->
  exists K PK,
    index outcome_eqb I0 (outcomes (length I0)) = Ok K /\
    get P K = Ok PK /\
    0 < PK /\
    (forall j Pj, get P j = Ok Pj -> 0 < Pj -> 0 < Pj / PK) /\
    (forall variables, exists A b,
        system_loop P (createIndependentSource c) (outcomes (length I0)) K
                    variables (seq 0 (length (outcomes (length I0))))
        = Ok (A, b)).
Proof.
  intros Hpos (d & compatibles & i & Qi & Hd & Hcomp & Hc & HI & Hi & HQ & HQi).
  destruct (compatible_configurations_inv _ _ _ _ Hcomp Hc) as (Hl & _ & Hok & _).
  apply outcomes_In_length in HI.
  apply int_log2_inv in Hd. destruct Hd as [Hd _].
  assert (Hi' : i = outcome_index I0).
  { rewrite <- HI, index_outcome in Hi. inversion Hi. reflexivity. }
  subst i.
  pose proof (outcome_index_lt I0) as HK. rewrite HI in HK.
  destruct (get_lt P (outcome_index I0)) as (PK & HPK); [lia |].
  assert (HPK0 : PK <> 0).
  { intros ->. rewrite (compatible_true _ _ Hok _ HPK) in HQ.
    inversion HQ. lra. }
  assert (HPKpos : 0 < PK).
  { rewrite Forall_forall in Hpos.
    assert (0 <= PK) by (apply Hpos; apply get_Ok in HPK;
                         apply (nth_error_In _ _ HPK)).
    lra. }
  exists (outcome_index I0), PK.
  split; [apply index_outcome |].
  split; [exact HPK |].
  split; [exact HPKpos |].
  split.
  - intros j Pj _ HPj. apply Rdiv_lt_0_compat; assumption.
  - intros variables.
    apply (system_loop_returns _ _ _ _ _ PK); [exact HPK | exact HPK0 |].
    intros j Hj. apply in_seq in Hj.
    rewrite outcomes_length, HI in Hj.
    rewrite createIndependentSource_length, Hl. lia.
Qed.

Lemma reference_probability_positive_witness :
  Forall (fun p => 0 <= p) [1 / 2; 1 / 2] /\
  invokes [1 / 2; 1 / 2] [1 / 2] [false] /\
  exists K PK,
    index outcome_eqb [false] (outcomes (length [false])) = Ok K /\
    get [1 / 2; 1 / 2] K = Ok PK /\ 0 < PK.
Proof.
  assert (H1 : Forall (fun p => 0 <= p) [1 / 2; 1 / 2])
    by (repeat constructor; lra).
  assert (H2 : invokes [1 / 2; 1 / 2] [1 / 2] [false]).
  { exists 1%nat, [[1 / 2]], 0%nat, (1 / 2).
    split; [reflexivity |].
    split.
    - unfold compatible_configurations. cbn [product flat_map map app].
      cbn [filterM].
      rewrite !compatible_no_hole
        by (try discriminate; repeat constructor; lra).
      reval. reflexivity.
    - split; [left; reflexivity |].
      split; [left; reflexivity |].
      split; [reflexivity |].
      split; [| lra].
      unfold createIndependentSource. cbn. rewrite !bernoulli_factor_eq.
      unfold get. cbn. f_equal. lra. }
  split; [exact H1 |]. split; [exact H2 |].
  destruct (reference_probability_positive [1 / 2; 1 / 2] [1 / 2] [false] H1 H2)
    as (K & PK & HK & HPK & Hpos & _).
  exists K, PK. auto.
Defined.

(** * The objective as a sum over the support of the source *)

Lemma filter_map_S (f : nat -> bool) l :
  filter f (map S l) = map S (filter (fun i => f (S i)) l).
Proof.
  induction l as [|i l IH]; [reflexivity |].
  cbn [map filter]. destruct (f (S i)); cbn [map]; rewrite IH; reflexivity.
Qed.

Lemma row_diff_row c : forall k x : outcome,
  length k = length c -> length x = length c ->
  map (fun i => if negb (Bool.eqb (nth i x false) (nth i k false))
                then 1 else 0)
      (filter (fun i => Rltb 0 (nth i c 0) && Rltb (nth i c 0) 1)
              (seq 0 (length c)))
  = diff_row c k x.
Proof.
  induction c as [|v c IH]; intros [|kb k] [|xb x] Hk Hx; try discriminate;
    [reflexivity |].
  cbn [length seq]. rewrite <- seq_shift. cbn [filter nth diff_row].
  rewrite filter_map_S. cbn [nth].
  destruct (Rltb 0 v && Rltb v 1); cbn [map]; rewrite map_map; cbn [nth];
    rewrite IH by (simpl in Hk, Hx; lia); reflexivity.
Qed.

Lemma diff_row_length c : forall k x k' x' : outcome,
  length k = length c -> length x = length c ->
  length k' = length c -> length x' = length c ->
  length (diff_row c k x) = length (diff_row c k' x').
Proof.
  induction c as [|v c IH]; intros [|kb k] [|xb x] [|kb' k'] [|xb' x'] H1 H2 H3 H4;
    try discriminate; [reflexivity |].
  cbn [diff_row]. simpl in H1, H2, H3, H4.
  destruct (Rltb 0 v && Rltb v 1); cbn [length];
    rewrite (IH k x k' x') by lia; reflexivity.
Qed.

Lemma dot_diff_row_self c : forall (k : outcome) y, dot (diff_row c k k) y = 0.
Proof.
  induction c as [|v c IH]; intros [|kb k] y; try reflexivity.
  cbn [diff_row]. destruct (Rltb 0 v && Rltb v 1); [| apply IH].
  rewrite eqb_reflx. cbn [negb]. destruct y as [|y0 y]; [reflexivity |].
  cbn [dot]. rewrite IH. lra.
Qed.

Lemma sum_list_app l1 l2 : sum_list (l1 ++ l2) = sum_list l1 + sum_list l2.
Proof.
  induction l1 as [|a l1 IH]; unfold sum_list in *; simpl; [lra |].
  rewrite IH. lra.
Qed.

Lemma sum_list_scale {X} a (f : X -> R) l :
  sum_list (map (fun x => a * f x) l) = a * sum_list (map f l).
Proof.
  induction l as [|x l IH]; unfold sum_list in *; simpl; [lra |].
  rewrite IH. lra.
Qed.

Lemma sum_list_zero {X} (l : list X) : sum_list (map (fun _ => 0) l) = 0.
Proof. induction l as [|x l IH]; unfold sum_list in *; simpl; [| rewrite IH]; lra. Qed.

Lemma sum_list_le {X} (f g : X -> R) l :
  (forall x, In x l -> f x <= g x) ->
  sum_list (map f l) <= sum_list (map g l).
Proof.
  induction l as [|x l IH]; intros H; unfold sum_list in *; simpl; [lra |].
  assert (f x <= g x) by (apply H; left; reflexivity).
  assert (fold_right Rplus 0 (map f l) <= fold_right Rplus 0 (map g l))
    by (apply IH; intros z Hz; apply H; right; exact Hz).
  lra.
Qed.

Lemma Rltb_scale a p : 0 < a -> Rltb 0 (a * p) = Rltb 0 p.
Proof.
  intros Ha. destruct (Rlt_dec 0 p) as [Hp | Hp].
  - rewrite (Rltb_true _ _ Hp). apply Rltb_true. apply Rmult_lt_0_compat; assumption.
  - rewrite (Rltb_false _ _ Hp). apply Rltb_false. intros H.
    apply Hp. apply Rmult_lt_reg_l with a; [exact Ha |]. lra.
Qed.

(** The sum over the outcomes in the support of the source of [c] of
    [exp (row . y)] factors into the product of the [1 + exp y_l]. *)
Lemma support_sum c : forall (k : outcome) y,
  Forall (fun v => In v [0; 1; 1 / 2]) c ->
  length k = length c ->
  length y = length (diff_row c k k) ->
  sum_list (map (fun x : outcome =>
                   if Rltb 0 (product_probability c x)
                   then exp (dot (diff_row c k x) y) else 0)
                (outcomes (length c)))
  = prod (map (fun v => 1 + exp v) y).
Proof.
  induction c as [|v c IH]; intros k y Hc Hk Hy.
  - destruct k; [| discriminate]. destruct y; [| discriminate].
    unfold sum_list, prod, product_probability. simpl.
    rewrite Rltb_true by (unfold prod; simpl; lra). rewrite exp_0. lra.
  - destruct k as [|kb k]; [discriminate |].
    inversion Hc as [|? ? Hv Hc']; subst.
    assert (Hk' : length k = length c) by (simpl in Hk; lia).
    cbn [length]. rewrite outcomes_S, map_app, sum_list_app, !map_map.
    cbn [diff_row] in Hy |- *.
    destruct Hv as [<- | [<- | [<- | []]]].
    + (* fixed to 0 *)
      rewrite (Rltb_false 0 0) in * by lra. cbn [andb] in *.
      assert (Hkeep :
                sum_list (map (fun x : outcome =>
                   if Rltb 0 (product_probability (0 :: c) (false :: x))
                   then exp (dot (diff_row c k x) y) else 0)
                   (outcomes (length c)))
                = prod (map (fun v => 1 + exp v) y)).
      { rewrite <- (IH k y Hc' Hk' Hy). f_equal. apply map_ext. intros x.
        rewrite product_probability_cons. cbv iota.
        replace ((1 - 0) * product_probability c x)
          with (product_probability c x) by lra. reflexivity. }
      assert (Hdrop :
                sum_list (map (fun x : outcome =>
                   if Rltb 0 (product_probability (0 :: c) (true :: x))
                   then exp (dot (diff_row c k x) y) else 0)
                   (outcomes (length c))) = 0).
      { transitivity (sum_list (map (fun _ : outcome => 0)
                                    (outcomes (length c))));
          [| apply sum_list_zero].
        f_equal. apply map_ext. intros x. rewrite product_probability_cons.
        cbv iota. rewrite Rltb_false by lra. reflexivity. }
      rewrite Hkeep, Hdrop. lra.
    + (* fixed to 1 *)
      rewrite (Rltb_false 1 1) in * by lra. rewrite andb_false_r in *.
      assert (Hkeep :
                sum_list (map (fun x : outcome =>
                   if Rltb 0 (product_probability (1 :: c) (true :: x))
                   then exp (dot (diff_row c k x) y) else 0)
                   (outcomes (length c)))
                = prod (map (fun v => 1 + exp v) y)).
      { rewrite <- (IH k y Hc' Hk' Hy). f_equal. apply map_ext. intros x.
        rewrite product_probability_cons. cbv iota.
        replace (1 * product_probability c x)
          with (product_probability c x) by lra. reflexivity. }
      assert (Hdrop :
                sum_list (map (fun x : outcome =>
                   if Rltb 0 (product_probability (1 :: c) (false :: x))
                   then exp (dot (diff_row c k x) y) else 0)
                   (outcomes (length c))) = 0).
      { transitivity (sum_list (map (fun _ : outcome => 0)
                                    (outcomes (length c))));
          [| apply sum_list_zero].
        f_equal. apply map_ext. intros x. rewrite product_probability_cons.
        cbv iota. rewrite Rltb_false by lra. reflexivity. }
      rewrite Hkeep, Hdrop. lra.
    + (* free *)
      rewrite (Rltb_true 0 (1 / 2)), (Rltb_true (1 / 2) 1) in * by lra.
      cbn [andb] in *. rewrite eqb_reflx in Hy. cbn [negb length] in Hy.
      destruct y as [|y0 y]; [discriminate |].
      assert (Hy' : length y = length (diff_row c k k)) by (simpl in Hy; lia).
      assert (Hhalf : forall xb,
                 sum_list (map (fun x : outcome =>
                   if Rltb 0 (product_probability (1 / 2 :: c) (xb :: x))
                   then exp (dot ((if negb (Bool.eqb xb kb) then 1 else 0)
                                    :: diff_row c k x) (y0 :: y))
                   else 0) (outcomes (length c)))
                 = exp ((if negb (Bool.eqb xb kb) then 1 else 0) * y0)
                   * prod (map (fun v => 1 + exp v) y)).
      { intros xb. rewrite <- (IH k y Hc' Hk' Hy'), <- sum_list_scale.
        f_equal. apply map_ext. intros x. cbv beta.
        rewrite product_probability_cons, Rltb_scale by (destruct xb; lra).
        destruct (Rltb 0 (product_probability c x)); [| lra].
        cbn [dot]. apply exp_plus. }
      rewrite (Hhalf false), (Hhalf true).
      unfold prod. cbn [map fold_right].
      destruct kb; cbn [Bool.eqb negb];
        rewrite Rmult_0_l, Rmult_1_l, exp_0; lra.
Qed.

(** * Bounds on the weight that the search returns *)

Lemma system_loop_row P Q Range K variables : forall js A b,
  system_loop P Q Range K variables js = Ok (A, b) ->
  forall j Pj Qj PK,
    In j js -> j <> K ->
    get P j = Ok Pj -> 0 < Pj ->
    get Q j = Ok Qj -> 0 < Qj ->
    get P K = Ok PK ->
    In (map (fun i =>
               if negb (Bool.eqb (nth i (nth j Range []) false)
                                 (nth i (nth K Range []) false))
               then 1 else 0) variables,
        ln (Pj / PK))
       (combine A b).
Proof.
  induction js as [|j0 js IH]; intros A b H j Pj Qj PK Hj HjK HPj HPjpos HQj HQjpos HPK;
    [contradiction |].
  cbn [system_loop] in H.
  apply bind_Ok in H. destruct H as (take & Htake & H).
  destruct take.
  - apply bind_Ok in H. destruct H as (Pj0 & HPj0 & H).
    apply bind_Ok in H. destruct H as (PK0 & HPK0 & H).
    destruct (Reqb PK0 0); [discriminate |].
    apply bind_Ok in H. destruct H as ([A' b'] & Hrec & H).
    inversion H; subst A b. clear H.
    destruct Hj as [-> | Hj].
    + left. rewrite HPj in HPj0. rewrite HPK in HPK0.
      inversion HPj0; inversion HPK0; subst. reflexivity.
    + right. apply (IH _ _ Hrec j Pj Qj PK); assumption.
  - destruct Hj as [-> | Hj].
    + exfalso.
      assert (E : (j =? K)%nat = false) by (apply Nat.eqb_neq; exact HjK).
      rewrite E, HPj in Htake. cbn [negb bind] in Htake.
      rewrite (Rltb_true _ _ HPjpos), HQj in Htake. cbn [bind] in Htake.
      rewrite (Rltb_true _ _ HQjpos) in Htake. discriminate.
    + apply (IH _ _ H j Pj Qj PK); assumption.
Qed.

Lemma prod_exp_pos y : 0 < prod (map (fun v => 1 + exp v) y).
Proof.
  induction y as [|v y IH]; unfold prod in *; simpl; [lra |].
  apply Rmult_lt_0_compat; [| exact IH].
  pose proof (exp_pos v). lra.
Qed.

Lemma exp_ge_1 x : 0 <= x -> 1 <= exp x.
Proof.
  intros [H | <-]; [| rewrite exp_0; lra].
  assert (Hx : x <> 0) by lra.
  pose proof (exp_ineq1 x Hx). lra.
Qed.

Lemma outcomes_nth (x : outcome) :
  nth (outcome_index x) (outcomes (length x)) [] = x.
Proof. apply nth_error_nth. apply outcomes_nth_error. Qed.

Lemma outcome_index_inj (x y : outcome) :
  length x = length y -> outcome_index x = outcome_index y -> x = y.
Proof.
  intros Hl Hi. pose proof (outcomes_nth_error x) as Hx.
  rewrite Hl, Hi, outcomes_nth_error in Hx. congruence.
Qed.

Lemma outcomes_complete (x : outcome) : In x (outcomes (length x)).
Proof. apply (nth_error_In _ _ (outcomes_nth_error x)). Qed.

Lemma entries_by_outcome P d :
  length P = (2 ^ d)%nat ->
  map (fun x : outcome => nth (outcome_index x) P 0) (outcomes d) = P.
Proof.
  intros Hlen. apply nth_ext with (d := 0) (d' := 0).
  - rewrite length_map, outcomes_length. congruence.
  - intros n Hn. rewrite length_map in Hn.
    destruct (nth_error (outcomes d) n) as [x|] eqn:E.
    + rewrite (nth_error_nth _ _ 0 (map_nth_error _ _ _ E)).
      apply outcomes_nth_error_inv in E. destruct E as [_ ->]. reflexivity.
    + apply nth_error_None in E. lia.
Qed.

(** ** One call on a compatible configuration *)

Section WeightBound.

Variables (P : list R) (k : outcome) (c : list R) (epsilon : R).

Hypothesis Hcfg : Forall (fun v => In v [0; 1; 1 / 2]) c.
Hypothesis Hc : length c = length k.
Hypothesis HP : length P = (2 ^ length k)%nat.
Hypothesis Hpos : Forall (fun p => 0 <= p) P.
Hypothesis Hcompat : compatible c P = Ok true.
Hypothesis Heps : 0 <= epsilon.

(** Every term of the sum is below the probability of its outcome, up to
    the factor [exp epsilon]. *)
Lemma vertex_term_bound variables A b PK y (x : outcome) :
  free_coordinates c (length k) = Ok variables ->
  system_loop P (createIndependentSource c) (outcomes (length k))
              (outcome_index k) variables
              (seq 0 (length (outcomes (length k)))) = Ok (A, b) ->
  get P (outcome_index k) = Ok PK ->
  0 < PK ->
  feasible A b epsilon y = true ->
  length x = length k ->
  PK * (if Rltb 0 (product_probability c x)
        then exp (dot (diff_row c k x) y) else 0)
  <= exp epsilon * nth (outcome_index x) P 0.
Proof.
  intros Hvars Hsys HPK HPKpos Hfeas Hx.
  pose proof (exp_pos epsilon) as Hexp.
  pose proof (exp_ge_1 epsilon Heps) as Hexp1.
  pose proof (outcome_index_lt x) as Hj. rewrite Hx, <- HP in Hj.
  pose proof (get_nth P (outcome_index x) 0 Hj) as HPj.
  assert (HPj0 : 0 <= nth (outcome_index x) P 0).
  { pose proof Hpos as Hall. rewrite Forall_forall in Hall.
    apply Hall. apply nth_In. exact Hj. }
  destruct (Rlt_dec 0 (product_probability c x)) as [HQ | HQ].
  2:{ rewrite (Rltb_false _ _ HQ). rewrite Rmult_0_r.
      apply Rmult_le_pos; lra. }
  rewrite (Rltb_true _ _ HQ).
  destruct (outcome_eqb x k) eqn:Exk.
  - (* the reference outcome itself *)
    apply outcome_eqb_eq in Exk. subst x.
    rewrite dot_diff_row_self, exp_0.
    rewrite HPK in HPj. inversion HPj as [E]. rewrite <- E.
    nra.
  - (* another outcome of the support: its row is in the system *)
    assert (Hne : outcome_index x <> outcome_index k).
    { intros E. apply outcome_index_inj in E; [| exact Hx].
      subst x. rewrite (proj2 (outcome_eqb_eq k k) eq_refl) in Exk. discriminate. }
    assert (HQj : get (createIndependentSource c) (outcome_index x)
                  = Ok (product_probability c x)).
    { apply get_Ok. apply createIndependentSource_nth. congruence. }
    assert (HPjpos : 0 < nth (outcome_index x) P 0).
    { destruct HPj0 as [H | H]; [exact H |]. exfalso.
      rewrite <- H in HPj.
      rewrite (compatible_true _ _ Hcompat _ HPj) in HQj.
      inversion HQj. lra. }
    assert (Hin : In (outcome_index x) (seq 0 (length (outcomes (length k))))).
    { apply in_seq. rewrite outcomes_length. lia. }
    pose proof (system_loop_row _ _ _ _ _ _ _ _ Hsys (outcome_index x) _ _ _
                                Hin Hne HPj HPjpos HQj HQ HPK) as Hrow.
    assert (E1 : nth (outcome_index x) (outcomes (length k)) [] = x)
      by (rewrite <- Hx; apply outcomes_nth).
    rewrite E1, outcomes_nth in Hrow.
    destruct (free_coordinates_inv _ _ _ Hvars) as [_ ->].
    rewrite <- Hc in Hrow. rewrite row_diff_row in Hrow by congruence.
    apply (proj1 (feasible_spec A b epsilon y) Hfeas) in Hrow.
    set (D := dot (diff_row c k x) y) in *.
    set (Pj := nth (outcome_index x) P 0) in *.
    assert (Hq : 0 < Pj / PK) by (apply Rdiv_lt_0_compat; assumption).
    assert (Hle : exp D <= Pj / PK * exp epsilon).
    { rewrite <- (exp_ln (Pj / PK)) at 1 by exact Hq.
      rewrite <- exp_plus.
      destruct Hrow as [Hlt | Heq]; [left; apply exp_increasing; exact Hlt |].
      right. rewrite Heq. reflexivity. }
    apply Rmult_le_compat_l with (r := PK) in Hle; [| lra].
    replace (PK * (Pj / PK * exp epsilon)) with (exp epsilon * Pj) in Hle
      by (field; lra).
    exact Hle.
Qed.

(** The objective that the call returns is positive and at most
    [exp epsilon] times the total mass. *)
Lemma computeVerticesHoles_bound M q Qk :
  sum_list P = 1 ->
  get (createIndependentSource c) (outcome_index k) = Ok Qk ->
  0 < Qk ->
  computeVerticesHoles P k c epsilon = Ok (M, q) ->
  0 < M <= exp epsilon.
Proof.
  intros Hsum HQk HQkpos H.
  unfold computeVerticesHoles in H.
  apply bind_Ok in H. destruct H as (holes & _ & H).
  apply bind_Ok in H. destruct H as (variables & Hvars & H).
  apply bind_Ok in H. destruct H as (K & HK & H).
  rewrite index_outcome in HK. inversion HK; subst K. clear HK.
  apply bind_Ok in H. destruct H as ([A b] & Hsys & H).
  apply bind_Ok in H. destruct H as (v & Hv & H).
  apply bind_Ok in H. destruct H as (cv & Hcv & H).
  apply bind_Ok in H. destruct H as (M0 & HM & H).
  apply bind_Ok in H. destruct H as (i & _ & H).
  apply bind_Ok in H. destruct H as (yhat & _ & H).
  apply bind_Ok in H. destruct H as (q0 & _ & H).
  inversion H; subst M0 q0. clear H.
  destruct (mapM_objective _ _ _ _ Hcv) as [[-> ->] | (PK & HPK & ->)];
    [discriminate |].
  apply py_max_In in HM. apply in_map_iff in HM. destruct HM as (y & <- & Hy).
  pose proof (vertices_length _ _ _ _ _ _ _ Hv Hy) as Hylen.
  apply (proj1 (vertices_loop_In _ _ _ _ _ Hv y)) in Hy.
  destruct Hy as (_ & _ & _ & Hfeas).
  assert (HPKpos : 0 < PK).
  { assert (0 <= PK).
    { pose proof Hpos as Hall. rewrite Forall_forall in Hall. apply Hall.
      apply get_Ok in HPK. apply (nth_error_In _ _ HPK). }
    assert (PK <> 0).
    { intros ->. rewrite (compatible_true _ _ Hcompat _ HPK) in HQk.
      inversion HQk. lra. }
    lra. }
  pose proof (prod_exp_pos y) as Hprod.
  unfold objective. split; [apply Rmult_lt_0_compat; assumption |].
  assert (Hlen : length y = length (diff_row c k k)).
  { rewrite Hylen. destruct (free_coordinates_inv _ _ _ Hvars) as [_ ->].
    rewrite <- (row_diff_row c k k) by congruence.
    rewrite length_map, Hc. reflexivity. }
  rewrite <- (support_sum c k y Hcfg (eq_sym Hc) Hlen), <- sum_list_scale.
  rewrite Hc.
  etransitivity.
  - apply sum_list_le with
      (g := fun x : outcome => exp epsilon * nth (outcome_index x) P 0).
    intros x Hx. apply outcomes_In_length in Hx.
    apply (vertex_term_bound variables A b PK y x); assumption.
  - rewrite sum_list_scale, (entries_by_outcome P (length k) HP), Hsum. lra.
Qed.

End WeightBound.

(** ** From the result of the search back to one call *)

Lemma inner_loop_In P c Q Range : forall Is rs r,
  inner_loop P c Q Range Is = Ok rs ->
  In r rs ->
  exists I0 i Qi,
    In I0 Is /\ index outcome_eqb I0 Range = Ok i /\ get Q i = Ok Qi /\
    0 < Qi /\ computeVerticesHoles P I0 c epsilon_default = Ok r.
Proof.
  induction Is as [|I0 Is IH]; intros rs r H Hr.
  - inversion H; subst. contradiction.
  - cbn [inner_loop] in H.
    apply bind_Ok in H. destruct H as (i & Hi & H).
    apply bind_Ok in H. destruct H as (Qi & HQi & H).
    destruct (Rltb 0 Qi) eqn:E.
    + apply bind_Ok in H. destruct H as (r0 & Hr0 & H).
      apply bind_Ok in H. destruct H as (rs' & Hrs' & H).
      inversion H; subst rs. destruct Hr as [<- | Hr].
      * exists I0, i, Qi. apply Rltb_spec in E.
        repeat split; try assumption. left. reflexivity.
      * destruct (IH _ _ Hrs' Hr) as (I1 & i1 & Q1 & HI1 & Hrest).
        exists I1, i1, Q1. split; [right; exact HI1 | exact Hrest].
    + destruct (IH _ _ H Hr) as (I1 & i1 & Q1 & HI1 & Hrest).
      exists I1, i1, Q1. split; [right; exact HI1 | exact Hrest].
Qed.

Lemma outer_loop_In P Range : forall cs rs r,
  outer_loop P Range cs = Ok rs ->
  In r rs ->
  exists c I0 i Qi,
    In c cs /\ In I0 Range /\ index outcome_eqb I0 Range = Ok i /\
    get (createIndependentSource c) i = Ok Qi /\ 0 < Qi /\
    computeVerticesHoles P I0 c epsilon_default = Ok r.
Proof.
  induction cs as [|c cs IH]; intros rs r H Hr.
  - inversion H; subst. contradiction.
  - cbn [outer_loop] in H.
    apply bind_Ok in H. destruct H as (rs1 & Hrs1 & H).
    apply bind_Ok in H. destruct H as (rs2 & Hrs2 & H).
    inversion H; subst rs. apply in_app_or in Hr. destruct Hr as [Hr | Hr].
    + destruct (inner_loop_In _ _ _ _ _ _ _ Hrs1 Hr) as (I0 & i & Qi & HI & Hrest).
      exists c, I0, i, Qi. split; [left; reflexivity |]. split; assumption.
    + destruct (IH _ _ Hrs2 Hr) as (c' & I0 & i & Qi & Hc' & Hrest).
      exists c', I0, i, Qi. split; [right; exact Hc' | exact Hrest].
Qed.

Lemma indWeightHoles_result P Lambda q :
  indWeightHoles P = Ok (Lambda, q) ->
  exists c I0 q', invokes P c I0 /\
    computeVerticesHoles P I0 c epsilon_default = Ok (Lambda, q').
Proof.
  unfold indWeightHoles. intros H.
  apply bind_Ok in H. destruct H as (d & Hd & H).
  apply bind_Ok in H. destruct H as (compatibles & Hcs & H).
  apply bind_Ok in H. destruct H as (results & Hres & H).
  apply bind_Ok in H. destruct H as (L & HL & H).
  apply bind_Ok in H. destruct H as (i & _ & H).
  apply bind_Ok in H. destruct H as (m & _ & H).
  inversion H; subst L m. clear H.
  apply py_max_In in HL. apply in_map_iff in HL.
  destruct HL as ([L q'] & HLq & Hin). simpl in HLq. subst L.
  destruct (outer_loop_In _ _ _ _ _ Hres Hin)
    as (c & I0 & i0 & Qi & Hc & HI & Hi0 & HQi & HQipos & Hcall).
  exists c, I0, q'. split; [| exact Hcall].
  exists d, compatibles, i0, Qi. repeat split; assumption.
Qed.

Lemma epsilon_default_nonneg : 0 <= epsilon_default.
Proof. unfold epsilon_default. lra. Qed.

(** C7, amended: on a distribution the returned weight is positive and at
    most [exp epsilon] for the tolerance [epsilon] of the feasibility
    test. *)
Theorem indWeightHoles_weight_bound (P : list R) (d : nat) (Lambda : R)
        (q : list R) :
  length P = (2 ^ d)%nat ->
  Forall (fun p => 0 <= p) P ->
  sum_list P = 1 ->
  indWeightHoles P = Ok (Lambda, q) ->
  0 < Lambda <= exp epsilon_default.
Proof.
  intros HP Hpos Hsum H.
  destruct (indWeightHoles_result _ _ _ H) as (c & I0 & q' & Hinv & Hcall).
  destruct Hinv as (d' & compatibles & i & Qi & Hd & Hcomp & Hc & HI & Hi & HQ & HQi).
  apply int_log2_inv in Hd. destruct Hd as [_ Hd].
  rewrite HP, Nat.log2_pow2 in Hd by lia. subst d'.
  destruct (compatible_configurations_inv _ _ _ _ Hcomp Hc) as (Hl & Hcfg & Hok & _).
  apply outcomes_In_length in HI.
  rewrite <- HI, index_outcome in Hi. inversion Hi; subst i.
  apply (computeVerticesHoles_bound P I0 c epsilon_default) with (q := q') (Qk := Qi);
    try assumption; try congruence.
  apply epsilon_default_nonneg.
Qed.

(** * A distribution on which the returned weight exceeds 1 *)

(** On [tilted], with both coordinates free and reference outcome 01, the
    point [(-tilt, tilt)] solves two rows and misses the third by [tilt],
    which is below the tolerance. *)

Lemma tilt_pos : 0 < tilt.
Proof.
  unfold tilt. rewrite <- ln_1. apply ln_increasing; lra.
Qed.

Lemma tilt_small : tilt < 1 / 100000.
Proof.
  unfold tilt.
  assert (H : 1 / 100000 <> 0) by lra.
  pose proof (exp_ineq1 (1 / 100000) H) as Hexp.
  rewrite <- (ln_exp (1 / 100000)). apply ln_increasing; lra.
Qed.

Lemma exp_tilt : exp tilt = 100001 / 100000.
Proof. unfold tilt. apply exp_ln. lra. Qed.

Lemma exp_neg_tilt : exp (- tilt) = 100000 / 100001.
Proof. rewrite exp_Ropp, exp_tilt. field. Qed.

Lemma ln_same : ln (100001 / 400003 / (100001 / 400003)) = 0.
Proof.
  replace (100001 / 400003 / (100001 / 400003)) with 1 by (field; lra).
  apply ln_1.
Qed.

Lemma ln_up : ln (100001 / 400003 / (100000 / 400003)) = tilt.
Proof. unfold tilt. f_equal. field. Qed.

Lemma ln_down : ln (100000 / 400003 / (100001 / 400003)) = - tilt.
Proof. unfold tilt. rewrite <- ln_Rinv by lra. f_equal. field. Qed.

Ltac norm_tilt :=
  rewrite ?ln_same, ?ln_up, ?ln_down;
  repeat match goal with
  | |- context [exp ?u] =>
      lazymatch u with
      | 0 => fail
      | tilt => fail
      | - tilt => fail
      | _ => first [ replace u with 0 by lra
                   | replace u with tilt by lra
                   | replace u with (- tilt) by lra ]
      end
  end;
  rewrite ?exp_0, ?exp_tilt, ?exp_neg_tilt.

Ltac tilted_eval :=
  eexists; unfold tilted;
  pose proof tilt_pos; pose proof tilt_small;
  cvh_eval_with norm_tilt;
  apply f_equal; apply f_equal2; [lra | reflexivity].

Lemma tilted_0f_00 : exists q,
  computeVerticesHoles tilted [false; false] [0; 1 / 2] epsilon_default
  = Ok (200002 / 400003, q).
Proof. tilted_eval. Qed.

Lemma tilted_0f_01 : exists q,
  computeVerticesHoles tilted [false; true] [0; 1 / 2] epsilon_default
  = Ok (200002 / 400003, q).
Proof. tilted_eval. Qed.

Lemma tilted_1f_10 : exists q,
  computeVerticesHoles tilted [true; false] [1; 1 / 2] epsilon_default
  = Ok (200001 / 400003, q).
Proof. tilted_eval. Qed.

Lemma tilted_1f_11 : exists q,
  computeVerticesHoles tilted [true; true] [1; 1 / 2] epsilon_default
  = Ok (200001 / 400003, q).
Proof. tilted_eval. Qed.

Lemma tilted_f0_00 : exists q,
  computeVerticesHoles tilted [false; false] [1 / 2; 0] epsilon_default
  = Ok (200002 / 400003, q).
Proof. tilted_eval. Qed.

Lemma tilted_f0_10 : exists q,
  computeVerticesHoles tilted [true; false] [1 / 2; 0] epsilon_default
  = Ok (200002 / 400003, q).
Proof. tilted_eval. Qed.

Lemma tilted_f1_01 : exists q,
  computeVerticesHoles tilted [false; true] [1 / 2; 1] epsilon_default
  = Ok (200001 / 400003, q).
Proof. tilted_eval. Qed.

Lemma tilted_f1_11 : exists q,
  computeVerticesHoles tilted [true; true] [1 / 2; 1] epsilon_default
  = Ok (200001 / 400003, q).
Proof. tilted_eval. Qed.

Lemma tilted_ff_00 : exists q,
  computeVerticesHoles tilted [false; false] [1 / 2; 1 / 2] epsilon_default
  = Ok (400004 / 400003, q).
Proof. tilted_eval. Qed.

Lemma tilted_ff_01 : exists q,
  computeVerticesHoles tilted [false; true] [1 / 2; 1 / 2] epsilon_default
  = Ok (40000400001 / 40000300000, q).
Proof. tilted_eval. Qed.

Lemma tilted_ff_10 : exists q,
  computeVerticesHoles tilted [true; false] [1 / 2; 1 / 2] epsilon_default
  = Ok (40000400001 / 40000300000, q).
Proof. tilted_eval. Qed.

Lemma tilted_ff_11 : exists q,
  computeVerticesHoles tilted [true; true] [1 / 2; 1 / 2] epsilon_default
  = Ok (40000400001 / 40000300000, q).
Proof. tilted_eval. Qed.

Lemma tilted_compatible c : compatible c tilted = Ok true.
Proof.
  apply compatible_no_hole; [discriminate |].
  unfold tilted. repeat constructor; lra.
Qed.

Lemma tilted_search : exists q,
  indWeightHoles tilted = Ok (40000400001 / 40000300000, q).
Proof.
  destruct tilted_0f_00 as (q1 & H1). destruct tilted_0f_01 as (q2 & H2).
  destruct tilted_1f_10 as (q3 & H3). destruct tilted_1f_11 as (q4 & H4).
  destruct tilted_f0_00 as (q5 & H5). destruct tilted_f0_10 as (q6 & H6).
  destruct tilted_f1_01 as (q7 & H7). destruct tilted_f1_11 as (q8 & H8).
  destruct tilted_ff_00 as (q9 & H9). destruct tilted_ff_01 as (q10 & H10).
  destruct tilted_ff_10 as (q11 & H11). destruct tilted_ff_11 as (q12 & H12).
  exists q10.
  unfold indWeightHoles, compatible_configurations.
  change (length tilted) with 4%nat. reval.
  rewrite !tilted_compatible. reval. sources_eval. reval.
  rewrite H1, H2, H3, H4, H5, H6, H7, H8, H9, H10, H11, H12.
  reval. max_eval. reval. reflexivity.
Qed.

(** C7 fails as stated: [tilted] is a valid distribution and the search
    returns a weight above 1 on it. *)
Lemma weight_above_one :
  length tilted = (2 ^ 2)%nat /\
  Forall (fun p => 0 <= p) tilted /\
  sum_list tilted = 1 /\
  exists Lambda q,
    indWeightHoles tilted = Ok (Lambda, q) /\ ~ (0 <= Lambda <= 1).
Proof.
  unfold tilted. split; [reflexivity |].
  split; [repeat constructor; lra |].
  split; [unfold sum_list; simpl; lra |].
  destruct tilted_search as (q & H). unfold tilted in H.
  exists (40000400001 / 40000300000), q. split; [exact H | lra].
Qed.

Lemma indWeightHoles_weight_bound_witness :
  length [1 / 4; 1 / 4; 1 / 4; 1 / 4] = (2 ^ 2)%nat /\
  Forall (fun p => 0 <= p) [1 / 4; 1 / 4; 1 / 4; 1 / 4] /\
  sum_list [1 / 4; 1 / 4; 1 / 4; 1 / 4] = 1 /\
  indWeightHoles [1 / 4; 1 / 4; 1 / 4; 1 / 4] = Ok (1, [1 / 2; 1 / 2]) /\
  0 < 1 <= exp epsilon_default.
Proof.
  assert (H1 : length [1 / 4; 1 / 4; 1 / 4; 1 / 4] = (2 ^ 2)%nat)
    by reflexivity.
  assert (H2 : Forall (fun p => 0 <= p) [1 / 4; 1 / 4; 1 / 4; 1 / 4])
    by (repeat constructor; lra).
  assert (H3 : sum_list [1 / 4; 1 / 4; 1 / 4; 1 / 4] = 1)
    by (unfold sum_list; simpl; lra).
  assert (H4 : indWeightHoles [1 / 4; 1 / 4; 1 / 4; 1 / 4]
               = Ok (1, [1 / 2; 1 / 2])).
  { unfold indWeightHoles, compatible_configurations. reval.
    rewrite !uniform_compatible. reval. sources_eval. reval.
    rewrite uniform_0f_00, uniform_0f_01, uniform_1f_10, uniform_1f_11,
      uniform_f0_00, uniform_f0_10, uniform_f1_01, uniform_f1_11,
      uniform_ff_00, uniform_ff_01, uniform_ff_10, uniform_ff_11.
    reval. max_eval. reval. reflexivity. }
  split; [exact H1 |]. split; [exact H2 |]. split; [exact H3 |].
  split; [exact H4 |].
  exact (indWeightHoles_weight_bound [1 / 4; 1 / 4; 1 / 4; 1 / 4] 2 1
                                     [1 / 2; 1 / 2] H1 H2 H3 H4).
Defined.

(** * Further properties of createIndependentSource *)

Lemma product_probability_total params :
  sum_list (map (product_probability params) (outcomes (length params))) = 1.
Proof.
  induction params as [|p params IH].
  - unfold sum_list, product_probability, prod. simpl. lra.
  - cbn [length]. rewrite outcomes_S, map_app, sum_list_app, !map_map.
    rewrite (map_ext (fun x : outcome => product_probability (p :: params) (false :: x))
                     (fun x : outcome => (1 - p) * product_probability params x))
      by (intros x; apply product_probability_cons).
    rewrite (map_ext (fun x : outcome => product_probability (p :: params) (true :: x))
                     (fun x : outcome => p * product_probability params x))
      by (intros x; apply product_probability_cons).
    rewrite !sum_list_scale, IH. lra.
Qed.

Lemma product_probability_unit params : forall x : outcome,
  Forall (fun p => 0 <= p <= 1) params ->
  0 <= product_probability params x <= 1.
Proof.
  induction params as [|p params IH]; intros x Hp.
  - unfold product_probability, prod. simpl. lra.
  - destruct x as [|ch x].
    + unfold product_probability, prod. simpl. lra.
    + inversion Hp as [|? ? Hp0 Hp']; subst.
      rewrite product_probability_cons.
      specialize (IH x Hp'). destruct ch; nra.
Qed.

(** X1: whatever the parameters, the entries of the source sum to 1; with
    parameters in [0,1] every entry is in [0,1]. *)
Theorem createIndependentSource_distribution (params : list R) :
  sum_list (createIndependentSource params) = 1 /\
  (Forall (fun p => 0 <= p <= 1) params ->
   Forall (fun q => 0 <= q <= 1) (createIndependentSource params)).
Proof.
  rewrite createIndependentSource_eq. split.
  - apply product_probability_total.
  - intros Hp. apply Forall_forall. intros q Hq.
    apply in_map_iff in Hq. destruct Hq as (x & <- & _).
    apply product_probability_unit. exact Hp.
Qed.

Lemma configuration_probability c : forall x : outcome,
  Forall (fun v => In v [0; 1; 1 / 2]) c ->
  length x = length c ->
  product_probability c x = 0 \/
  product_probability c x = (1 / 2) ^ count (1 / 2) c.
Proof.
  induction c as [|v c IH]; intros [|ch x] Hc Hx; try discriminate.
  - right. unfold product_probability, prod, count. simpl. lra.
  - inversion Hc as [|? ? Hv Hc']; subst.
    rewrite product_probability_cons.
    assert (Hx' : length x = length c) by (simpl in Hx; lia).
    unfold count in *. cbn [filter].
    destruct Hv as [<- | [<- | [<- | []]]].
    + rewrite Reqb_false by lra.
      destruct (IH x Hc' Hx') as [-> | ->]; destruct ch; [left | left | left | right]; lra.
    + rewrite Reqb_false by lra.
      destruct (IH x Hc' Hx') as [-> | ->]; destruct ch; [left | left | right | left]; lra.
    + rewrite Reqb_true by reflexivity. cbn [length pow].
      destruct (IH x Hc' Hx') as [-> | ->]; destruct ch; [left | left | right | right]; lra.
Qed.

(** X2: the source of a configuration over 0, 1 and 0.5 is uniform on its
    support: every entry is 0 or [(1/2)^e] for the number [e] of free
    coordinates. *)
Theorem configuration_source_uniform (c : list R) :
  Forall (fun v => In v [0; 1; 1 / 2]) c ->
  Forall (fun q => q = 0 \/ q = (1 / 2) ^ count (1 / 2) c)
         (createIndependentSource c).
Proof.
  intros Hc. rewrite createIndependentSource_eq.
  apply Forall_forall. intros q Hq.
  apply in_map_iff in Hq. destruct Hq as (x & <- & Hx).
  apply outcomes_In_length in Hx.
  apply configuration_probability; assumption.
Qed.

Lemma configuration_source_uniform_witness :
  Forall (fun v => In v [0; 1; 1 / 2]) [0; 1 / 2] /\
  Forall (fun q => q = 0 \/ q = (1 / 2) ^ count (1 / 2) [0; 1 / 2])
         (createIndependentSource [0; 1 / 2]).
Proof.
  assert (H : Forall (fun v => In v [0; 1; 1 / 2]) [0; 1 / 2])
    by (repeat constructor; simpl; auto).
  split; [exact H |].
  exact (configuration_source_uniform [0; 1 / 2] H).
Defined.

(** * compatible on lists of any length *)

Lemma compatible_loop_passes P Q js :
  (forall j, In j js -> (j < length P)%nat /\ ~ stops_at P Q j) ->
  compatible_loop P Q js = Ok true.
Proof.
  induction js as [|j js IH]; intros H; [reflexivity |].
  destruct (H j (or_introl eq_refl)) as [Hj Hns].
  cbn [compatible_loop]. rewrite (get_nth P j 0 Hj). cbn [bind].
  assert (IH' : compatible_loop P Q js = Ok true)
    by (apply IH; intros i Hi; apply H; right; exact Hi).
  destruct (Req_dec_T (nth j P 0) 0) as [E | E].
  - rewrite (Reqb_true _ _ E).
    destruct (Nat.lt_ge_cases j (length Q)) as [HjQ | HjQ].
    + rewrite (get_nth Q j 0 HjQ). cbn [bind].
      destruct (Req_dec_T (nth j Q 0) 0) as [E' | E'].
      * rewrite (Reqb_true _ _ E'). exact IH'.
      * exfalso. apply Hns. split; [exact E | right; exact E'].
    + exfalso. apply Hns. split; [exact E | left; exact HjQ].
  - rewrite (Reqb_false _ _ E). exact IH'.
Qed.

Lemma compatible_loop_app P Q js1 js2 :
  compatible_loop P Q js1 = Ok true ->
  compatible_loop P Q (js1 ++ js2) = compatible_loop P Q js2.
Proof.
  induction js1 as [|j js1 IH]; intros H; [reflexivity |].
  cbn [app compatible_loop] in *.
  destruct (get P j) as [Pj|]; [| discriminate]. cbn [bind] in *.
  destruct (Reqb Pj 0).
  - destruct (get Q j) as [Qj|]; [| discriminate]. cbn [bind] in *.
    destruct (negb (Reqb Qj 0)); [discriminate | apply IH; exact H].
  - apply IH. exact H.
Qed.

Lemma compatible_loop_stops P Q j js :
  (j < length P)%nat -> stops_at P Q j ->
  compatible_loop P Q (j :: js)
  = if (j <? length Q)%nat then Ok false else Raise IndexError.
Proof.
  intros Hj [HP HQ]. cbn [compatible_loop].
  rewrite (get_nth P j 0 Hj). cbn [bind]. rewrite (Reqb_true _ _ HP).
  destruct (Nat.ltb_spec j (length Q)) as [HjQ | HjQ].
  - rewrite (get_nth Q j 0 HjQ). cbn [bind].
    destruct HQ as [HQ | HQ]; [lia |].
    rewrite (Reqb_false _ _ HQ). reflexivity.
  - rewrite (get_ge Q j HjQ). reflexivity.
Qed.

(** X3: [compatible] on lists of any length.  An empty [P] raises
    [OverflowError]; otherwise the loop stops at the first index where [P]
    is zero and [Q] is missing or non-zero, with [False] when [Q] has the
    index and [IndexError] when it has not; with no such index the result
    is [True]. *)
Theorem compatible_cases (c P : list R) :
  (P = [] -> compatible c P = Raise OverflowError) /\
  (P <> [] ->
   (forall j, (j < length P)%nat ->
              ~ stops_at P (createIndependentSource c) j) ->
   compatible c P = Ok true) /\
  (forall j, (j < length P)%nat ->
     stops_at P (createIndependentSource c) j ->
     (forall i, (i < j)%nat -> ~ stops_at P (createIndependentSource c) i) ->
     compatible c P
     = if (j <? 2 ^ length c)%nat then Ok false else Raise IndexError).
Proof.
  split; [intros ->; reflexivity |].
  split.
  - intros Hne Hall. unfold compatible.
    rewrite int_log2_pos by (destruct P; [contradiction | simpl; lia]).
    cbn [bind]. apply compatible_loop_passes.
    intros j Hj. apply in_seq in Hj. split; [lia | apply Hall; lia].
  - intros j Hj Hstop Hfirst. unfold compatible.
    rewrite int_log2_pos by lia. cbn [bind].
    replace (seq 0 (length P)) with (seq 0 j ++ j :: seq (S j) (length P - S j)).
    + rewrite compatible_loop_app.
      * rewrite (compatible_loop_stops _ _ _ _ Hj Hstop).
        rewrite createIndependentSource_length. reflexivity.
      * apply compatible_loop_passes. intros i Hi. apply in_seq in Hi.
        split; [lia | apply Hfirst; lia].
    + transitivity (seq 0 (j + S (length P - S j))).
      * rewrite seq_app. reflexivity.
      * f_equal. lia.
Qed.

(** * Errors of computeVerticesHoles *)

Lemma filterM_raise {A} (f : A -> result bool) l1 x l2 e :
  (forall y, In y l1 -> exists keep, f y = Ok keep) ->
  f x = Raise e ->
  filterM f (l1 ++ x :: l2) = Raise e.
Proof.
  intros H1 Hx. induction l1 as [|y l1 IH]; cbn [app filterM].
  - rewrite Hx. reflexivity.
  - destruct (H1 y (or_introl eq_refl)) as (keep & ->). cbn [bind].
    rewrite IH by (intros z Hz; apply H1; right; exact Hz). reflexivity.
Qed.

Lemma source_holes_returns c d :
  (d <= length c)%nat ->
  exists holes,
    filterM (fun x => Qx <- get (createIndependentSource c) x ;; Ok (Reqb Qx 0))
            (seq 0 (2 ^ d)) = Ok holes.
Proof.
  intros Hd. eexists.
  apply (filterM_Ok _ (fun x => Reqb (nth x (createIndependentSource c) 0) 0)).
  intros x Hx. apply in_seq in Hx.
  rewrite (get_nth _ x 0); [reflexivity |].
  rewrite createIndependentSource_length.
  assert (2 ^ d <= 2 ^ length c)%nat by (apply Nat.pow_le_mono_r; lia). lia.
Qed.

Lemma free_coordinates_returns c d :
  (d <= length c)%nat ->
  free_coordinates c d
  = Ok (filter (fun x => Rltb 0 (nth x c 0) && Rltb (nth x c 0) 1) (seq 0 d)).
Proof.
  intros Hd. unfold free_coordinates. apply filterM_Ok.
  intros x Hx. apply in_seq in Hx.
  rewrite (get_nth c x 0) by lia. reflexivity.
Qed.

(** X4: a configuration shorter than the reference outcome makes the call
    raise [IndexError]: the list of the holes of [Q] is built first and
    reads [Q] beyond its end. *)
Theorem computeVerticesHoles_short_configuration
        (P : list R) (k : outcome) (c : list R) (epsilon : R) :
  (length c < length k)%nat ->
  computeVerticesHoles P k c epsilon = Raise IndexError.
Proof.
  intros Hlen. unfold computeVerticesHoles.
  assert (Hpow : (2 ^ length c < 2 ^ length k)%nat)
    by (apply Nat.pow_lt_mono_r; lia).
  set (n := (2 ^ length c)%nat) in *.
  replace (seq 0 (2 ^ length k))
    with (seq 0 n ++ n :: seq (S n) (2 ^ length k - S n)).
  - rewrite (filterM_raise _ _ _ _ IndexError); [reflexivity | |].
    + intros y Hy. apply in_seq in Hy.
      rewrite (get_nth _ y 0)
        by (rewrite createIndependentSource_length; fold n; lia).
      eexists; reflexivity.
    + rewrite get_ge by (rewrite createIndependentSource_length; fold n; lia).
      reflexivity.
  - transitivity (seq 0 (n + S (2 ^ length k - S n))).
    + rewrite seq_app. reflexivity.
    + f_equal. lia.
Qed.

Lemma computeVerticesHoles_short_configuration_witness :
  (length [1 / 2] < length [false; false])%nat /\
  computeVerticesHoles [1 / 4; 1 / 4; 1 / 4; 1 / 4] [false; false] [1 / 2]
                       epsilon_default
  = Raise IndexError.
Proof.
  assert (H : (length [1 / 2] < length [false; false])%nat) by (simpl; lia).
  split; [exact H |].
  exact (computeVerticesHoles_short_configuration
           [1 / 4; 1 / 4; 1 / 4; 1 / 4] [false; false] [1 / 2]
           epsilon_default H).
Defined.

Lemma system_loop_zero_reference P Q Range K variables : forall js,
  get P K = Ok 0 ->
  (forall j, In j js -> (j < length P)%nat /\ (j < length Q)%nat) ->
  (exists j, In j js /\ j <> K /\ 0 < nth j P 0 /\ 0 < nth j Q 0) ->
  system_loop P Q Range K variables js = Raise ZeroDivisionError.
Proof.
  intros js HK. induction js as [|j0 js IH]; intros Hjs (j & Hj & HjK & HPj & HQj);
    [contradiction |].
  destruct (Hjs j0 (or_introl eq_refl)) as [H0P H0Q].
  cbn [system_loop].
  destruct (Nat.eqb_spec j0 K) as [E0 | E0]; cbn [negb bind].
  - destruct Hj as [-> | Hj]; [contradiction |].
    apply IH; [intros i Hi; apply Hjs; right; exact Hi |].
    exists j. auto.
  - rewrite (get_nth P j0 0 H0P). cbn [bind].
    destruct (Rlt_dec 0 (nth j0 P 0)) as [HP0 | HP0].
    + rewrite (Rltb_true _ _ HP0), (get_nth Q j0 0 H0Q). cbn [bind].
      destruct (Rlt_dec 0 (nth j0 Q 0)) as [HQ0 | HQ0].
      * rewrite (Rltb_true _ _ HQ0), HK. cbn [bind].
        rewrite Reqb_true by reflexivity. reflexivity.
      * rewrite (Rltb_false _ _ HQ0).
        destruct Hj as [-> | Hj]; [contradiction |].
        apply IH; [intros i Hi; apply Hjs; right; exact Hi |].
        exists j. auto.
    + rewrite (Rltb_false _ _ HP0). cbn [bind].
      destruct Hj as [-> | Hj]; [contradiction |].
      apply IH; [intros i Hi; apply Hjs; right; exact Hi |].
      exists j. auto.
Qed.

(** X5: when the reference outcome has probability exactly zero and some
    other outcome is positive under both [P] and [Q], building the
    right-hand side divides by zero and the call raises
    [ZeroDivisionError]. *)
Theorem computeVerticesHoles_zero_reference
        (P : list R) (k : outcome) (c : list R) (epsilon : R) :
  (length k <= length c)%nat ->
  (2 ^ length k <= length P)%nat ->
  get P (outcome_index k) = Ok 0 ->
  (exists j, (j < 2 ^ length k)%nat /\ j <> outcome_index k /\
             0 < nth j P 0 /\ 0 < nth j (createIndependentSource c) 0) ->
  computeVerticesHoles P k c epsilon = Raise ZeroDivisionError.
Proof.
  intros Hc HP HK (j & Hj & HjK & HPj & HQj).
  unfold computeVerticesHoles.
  destruct (source_holes_returns c (length k) Hc) as (holes & ->). cbn [bind].
  rewrite (free_coordinates_returns c (length k) Hc). cbn [bind].
  rewrite index_outcome. cbn [bind].
  rewrite system_loop_zero_reference; [reflexivity | exact HK | |].
  - intros i Hi. apply in_seq in Hi. rewrite outcomes_length in Hi.
    rewrite createIndependentSource_length.
    assert (2 ^ length k <= 2 ^ length c)%nat by (apply Nat.pow_le_mono_r; lia).
    lia.
  - exists j. split; [apply in_seq; rewrite outcomes_length; lia | auto].
Qed.

Lemma computeVerticesHoles_zero_reference_witness :
  (length [false] <= length [1 / 2])%nat /\
  (2 ^ length [false] <= length [0; 1])%nat /\
  get [0; 1] (outcome_index [false]) = Ok 0 /\
  computeVerticesHoles [0; 1] [false] [1 / 2] epsilon_default
  = Raise ZeroDivisionError.
Proof.
  assert (H1 : (length [false] <= length [1 / 2])%nat) by (simpl; lia).
  assert (H2 : (2 ^ length [false] <= length [0; 1])%nat) by (simpl; lia).
  assert (H3 : get [0; 1] (outcome_index [false]) = Ok 0) by reflexivity.
  assert (H4 : exists j, (j < 2 ^ length [false])%nat /\
                         j <> outcome_index [false] /\
                         0 < nth j [0; 1] 0 /\
                         0 < nth j (createIndependentSource [1 / 2]) 0).
  { exists 1%nat. split; [simpl; lia |]. split; [simpl; lia |].
    split; [simpl; lra |].
    unfold createIndependentSource. cbn. rewrite !bernoulli_factor_eq. lra. }
  split; [exact H1 |]. split; [exact H2 |]. split; [exact H3 |].
  exact (computeVerticesHoles_zero_reference [0; 1] [false] [1 / 2]
           epsilon_default H1 H2 H3 H4).
Defined.

(** * What computeVerticesHoles returns *)

Lemma existsb_filter (g : nat -> bool) l j :
  In j l -> existsb (Nat.eqb j) (filter g l) = g j.
Proof.
  intros Hj. destruct (g j) eqn:E.
  - apply existsb_exists. exists j. split; [| apply Nat.eqb_refl].
    apply filter_In. split; assumption.
  - destruct (existsb (Nat.eqb j) (filter g l)) eqn:E'; [| reflexivity].
    apply existsb_exists in E'. destruct E' as (x & Hx & Hjx).
    apply Nat.eqb_eq in Hjx. subst x. apply filter_In in Hx. destruct Hx. congruence.
Qed.

Lemma logistic_unit y ch :
  0 < float_pow (exp y) (1 - 2 * float_of_bit ch)
      / (1 + float_pow (exp y) (1 - 2 * float_of_bit ch)) < 1.
Proof.
  pose proof (exp_pos y) as Hy.
  rewrite float_pow_sign by exact Hy.
  assert (Hs : 0 < (if ch then / exp y else exp y))
    by (destruct ch; [apply Rinv_0_lt_compat |]; exact Hy).
  set (s := if ch then / exp y else exp y) in *.
  split.
  - apply Rdiv_lt_0_compat; lra.
  - apply Rmult_lt_reg_r with (1 + s); [lra |].
    unfold Rdiv. rewrite Rmult_assoc, Rinv_l by lra. lra.
Qed.

Lemma reconstruct_shape variables yhat (k : outcome) c : forall js l q,
  reconstruct variables yhat k c js l = Ok q ->
  length q = length js /\
  forall n, (n < length js)%nat ->
    if existsb (Nat.eqb (nth n js O)) variables
    then 0 < nth n q 0 < 1
    else get c (nth n js O) = Ok (nth n q 0).
Proof.
  induction js as [|j js IH]; intros l q H.
  - inversion H. split; [reflexivity | intros n Hn; simpl in Hn; lia].
  - cbn [reconstruct] in H.
    destruct (existsb (Nat.eqb j) variables) eqn:E.
    + apply bind_Ok in H. destruct H as (yl & _ & H).
      apply bind_Ok in H. destruct H as (kl & _ & H).
      apply bind_Ok in H. destruct H as (q' & Hq' & H).
      inversion H; subst q. destruct (IH _ _ Hq') as [Hl Hn].
      split; [simpl; congruence |].
      intros [|n] Hlt; cbn [nth].
      * rewrite E. apply logistic_unit.
      * apply Hn. simpl in Hlt. lia.
    + apply bind_Ok in H. destruct H as (cj & Hcj & H).
      apply bind_Ok in H. destruct H as (q' & Hq' & H).
      inversion H; subst q. destruct (IH _ _ Hq') as [Hl Hn].
      split; [simpl; congruence |].
      intros [|n] Hlt; cbn [nth].
      * rewrite E. exact Hcj.
      * apply Hn. simpl in Hlt. lia.
Qed.

(** A call that returns went through the reconstruction loop with the free
    coordinates among the first [len(k)] entries of [c]. *)
Lemma computeVerticesHoles_inv P (k : outcome) c epsilon M q :
  computeVerticesHoles P k c epsilon = Ok (M, q) ->
  (length k <= length c)%nat /\
  exists yhat,
    reconstruct (filter (fun x => Rltb 0 (nth x c 0) && Rltb (nth x c 0) 1)
                        (seq 0 (length k)))
                yhat k c (seq 0 (length k)) 0 = Ok q.
Proof.
  intros H. unfold computeVerticesHoles in H.
  apply bind_Ok in H. destruct H as (holes & _ & H).
  apply bind_Ok in H. destruct H as (variables & Hvars & H).
  apply bind_Ok in H. destruct H as (K & _ & H).
  apply bind_Ok in H. destruct H as ([A b] & _ & H).
  apply bind_Ok in H. destruct H as (v & _ & H).
  apply bind_Ok in H. destruct H as (cv & _ & H).
  apply bind_Ok in H. destruct H as (M0 & _ & H).
  apply bind_Ok in H. destruct H as (i & _ & H).
  apply bind_Ok in H. destruct H as (yhat & _ & H).
  apply bind_Ok in H. destruct H as (q0 & Hq & H).
  inversion H; subst M0 q0. clear H.
  destruct (free_coordinates_inv _ _ _ Hvars) as [Hd ->].
  split; [exact Hd | exists yhat; exact Hq].
Qed.

(** X6: over exact reals, the parameter vector that a call returns has one
    entry per coordinate; a coordinate with [0 < c[j] < 1] gets a value
    strictly between 0 and 1 and every other coordinate keeps [c[j]].
    (The value is [s/(1+s)] with [s > 0]; in floating point it rounds to 1
    once [s] is large and is [nan] when [s] overflows.) *)
Theorem computeVerticesHoles_returns_parameters
        (P : list R) (k : outcome) (c : list R) (epsilon M : R) (q : list R) :
  computeVerticesHoles P k c epsilon = Ok (M, q) ->
  length q = length k /\
  forall j, (j < length k)%nat ->
    (0 < nth j c 0 < 1 -> 0 < nth j q 0 < 1) /\
    (~ 0 < nth j c 0 < 1 -> nth j q 0 = nth j c 0).
Proof.
  intros H.
  destruct (computeVerticesHoles_inv _ _ _ _ _ _ H) as (Hd & yhat & Hq).
  destruct (reconstruct_shape _ _ _ _ _ _ _ Hq) as [Hl Hn].
  rewrite length_seq in Hl, Hn. split; [exact Hl |].
  intros j Hj. specialize (Hn j Hj).
  rewrite seq_nth in Hn by exact Hj. cbn [Nat.add] in Hn.
  rewrite existsb_filter in Hn by (apply in_seq; lia).
  destruct (Rlt_dec 0 (nth j c 0)) as [H0 | H0];
    destruct (Rlt_dec (nth j c 0) 1) as [H1 | H1].
  - rewrite (Rltb_true _ _ H0), (Rltb_true _ _ H1) in Hn. cbn [andb] in Hn.
    split; [intros _; exact Hn | intros Hn'; exfalso; apply Hn'; split; assumption].
  - rewrite (Rltb_true _ _ H0), (Rltb_false _ _ H1) in Hn. cbn [andb] in Hn.
    rewrite (get_nth c j 0) in Hn by lia. inversion Hn as [E].
    split; [intros [_ Hlt]; contradiction | intros _; reflexivity].
  - rewrite (Rltb_false _ _ H0) in Hn. cbn [andb] in Hn.
    rewrite (get_nth c j 0) in Hn by lia. inversion Hn as [E].
    split; [intros [Hlt _]; contradiction | intros _; reflexivity].
  - rewrite (Rltb_false _ _ H0) in Hn. cbn [andb] in Hn.
    rewrite (get_nth c j 0) in Hn by lia. inversion Hn as [E].
    split; [intros [Hlt _]; contradiction | intros _; reflexivity].
Qed.

Lemma computeVerticesHoles_returns_parameters_witness :
  length [1; 1 / 5] = length [true; false] /\
  forall j, (j < length [true; false])%nat ->
    (0 < nth j [1; 1 / 2] 0 < 1 -> 0 < nth j [1; 1 / 5] 0 < 1) /\
    (~ 0 < nth j [1; 1 / 2] 0 < 1 -> nth j [1; 1 / 5] 0 = nth j [1; 1 / 2] 0).
Proof.
  apply (computeVerticesHoles_returns_parameters
           [0; 0; 1 / 5; 4 / 5] [true; false] [1; 1 / 2]
           epsilon_default 1 [1; 1 / 5]).
  apply skewed_call_10.
Defined.

(** * The ways a well-formed call can end *)

Lemma vertices_loop_returns A b epsilon : forall subsets,
  A <> [] \/ subsets = [] ->
  exists vs, vertices_loop A b epsilon subsets = Ok vs.
Proof.
  induction subsets as [|s rest IH]; intros H; [exists []; reflexivity |].
  destruct H as [H | H]; [| discriminate].
  destruct (IH (or_introl H)) as (vs & Hvs).
  cbn [vertices_loop]. destruct A as [|r0 A0]; [contradiction |].
  destruct (solve _ _) as [y |]; [| eauto].
  destruct (feasible _ _ _ _); [| eauto].
  rewrite Hvs. cbn [bind]. eauto.
Qed.

Lemma combinations_nil {X} r : (0 < r)%nat -> combinations (@nil X) r = [].
Proof. destruct r; [lia | reflexivity]. Qed.

Lemma free_coordinate_listed c d i :
  (i < d)%nat -> 0 < nth i c 0 < 1 ->
  In i (filter (fun x => Rltb 0 (nth x c 0) && Rltb (nth x c 0) 1) (seq 0 d)).
Proof.
  intros Hi [H0 H1]. apply filter_In. split; [apply in_seq; lia |].
  rewrite (Rltb_true _ _ H0), (Rltb_true _ _ H1). reflexivity.
Qed.

(** The call up to the list of vertices, on input of the right sizes. *)
Lemma computeVerticesHoles_vertices P (k : outcome) c epsilon :
  (length k <= length c)%nat ->
  (2 ^ length k <= length P)%nat ->
  0 < nth (outcome_index k) P 0 ->
  (exists i, (i < length k)%nat /\ 0 < nth i c 0 < 1) ->
  exists A b vs,
    let variables :=
      filter (fun x => Rltb 0 (nth x c 0) && Rltb (nth x c 0) 1)
             (seq 0 (length k)) in
    system_loop P (createIndependentSource c) (outcomes (length k))
                (outcome_index k) variables
                (seq 0 (length (outcomes (length k)))) = Ok (A, b) /\
    vertices_loop A b epsilon
                  (combinations (seq 0 (length A)) (length variables)) = Ok vs /\
    computeVerticesHoles P k c epsilon
    = (critVals <- mapM (fun y => PK <- get P (outcome_index k) ;;
                                  Ok (objective PK y)) vs ;;
       M <- py_max critVals ;;
       i <- index Reqb M critVals ;;
       yhat <- get vs i ;;
       q <- reconstruct variables yhat k c (seq 0 (length k)) 0 ;;
       Ok (M, q)).
Proof.
  intros Hc HP HPK (i0 & Hi0 & Hfree).
  pose proof (outcome_index_lt k) as HK.
  set (variables := filter (fun x => Rltb 0 (nth x c 0) && Rltb (nth x c 0) 1)
                           (seq 0 (length k))).
  destruct (system_loop_returns P (createIndependentSource c)
              (outcomes (length k)) (outcome_index k) variables
              (nth (outcome_index k) P 0)
              (seq 0 (length (outcomes (length k)))))
    as (A & b & Hsys).
  { apply get_nth. lia. }
  { lra. }
  { intros j Hj. apply in_seq in Hj. rewrite outcomes_length in Hj.
    rewrite createIndependentSource_length.
    assert (2 ^ length k <= 2 ^ length c)%nat
      by (apply Nat.pow_le_mono_r; [discriminate | exact Hc]).
    lia. }
  destruct (vertices_loop_returns A b epsilon
              (combinations (seq 0 (length A)) (length variables)))
    as (vs & Hvs).
  { destruct A as [|r A0]; [right | left; discriminate].
    apply combinations_nil.
    pose proof (free_coordinate_listed c (length k) i0 Hi0 Hfree) as Hin.
    fold variables in Hin. destruct variables; [contradiction | simpl; lia]. }
  exists A, b, vs. cbv zeta. fold variables.
  split; [exact Hsys |]. split; [exact Hvs |].
  unfold computeVerticesHoles.
  destruct (source_holes_returns c (length k) Hc) as (holes & ->).
  rewrite (free_coordinates_returns c (length k) Hc). fold variables.
  rewrite index_outcome. cbn [bind]. rewrite Hsys. cbn [bind].
  rewrite Hvs. cbn [bind]. reflexivity.
Qed.

(** The only exception that such a call can raise. *)
Lemma computeVerticesHoles_raises P (k : outcome) c epsilon e :
  (length k <= length c)%nat ->
  (2 ^ length k <= length P)%nat ->
  0 < nth (outcome_index k) P 0 ->
  (exists i, (i < length k)%nat /\ 0 < nth i c 0 < 1) ->
  computeVerticesHoles P k c epsilon = Raise e ->
  e = ValueError_empty_max.
Proof.
  intros Hc HP HPK Hfree.
  destruct (computeVerticesHoles_vertices P k c epsilon Hc HP HPK Hfree)
    as (A & b & vs & _ & Hvs & ->).
  pose proof (outcome_index_lt k) as HK.
  rewrite (mapM_Ok _ (objective (nth (outcome_index k) P 0)))
    by (intros y _; rewrite (get_nth P _ 0) by lia; reflexivity).
  cbn [bind].
  destruct vs as [|y0 vs0] eqn:Evs;
    [intros H; inversion H; reflexivity |].
  rewrite <- Evs in *.
  destruct (py_max_nonempty (map (objective (nth (outcome_index k) P 0)) vs))
    as (M & HM); [rewrite Evs; discriminate |].
  rewrite HM. cbn [bind].
  destruct (index_Reqb_In M _ (py_max_In _ _ HM)) as (i & Hi & Hlt).
  rewrite Hi. cbn [bind]. rewrite length_map in Hlt.
  rewrite (get_nth vs i [] Hlt). cbn [bind].
  destruct (reconstruct_total c k _ (nth i vs [])
              (free_coordinates_returns c (length k) Hc)) as (q & Hq).
  { apply (vertices_length _ _ _ _ _ _ _ Hvs). apply nth_In. exact Hlt. }
  rewrite Hq. cbn [bind]. discriminate.
Qed.

(** X7: on input of the right sizes, with a positive reference probability
    and at least one free coordinate in the first [len(k)] entries of [c],
    the call either returns a pair or raises the [ValueError] of [max] on
    an empty list; no other exception is possible. *)
Theorem computeVerticesHoles_safe
        (P : list R) (k : outcome) (c : list R) (epsilon : R) :
  (length k <= length c)%nat ->
  (2 ^ length k <= length P)%nat ->
  0 < nth (outcome_index k) P 0 ->
  (exists i, (i < length k)%nat /\ 0 < nth i c 0 < 1) ->
  computeVerticesHoles P k c epsilon = Raise ValueError_empty_max \/
  exists M q, computeVerticesHoles P k c epsilon = Ok (M, q).
Proof.
  intros Hc HP HPK Hfree.
  destruct (computeVerticesHoles P k c epsilon) as [[M q] | e] eqn:E.
  - right. exists M, q. reflexivity.
  - left. f_equal.
    apply (computeVerticesHoles_raises P k c epsilon e Hc HP HPK Hfree E).
Qed.

Lemma computeVerticesHoles_safe_witness :
  computeVerticesHoles [1 / 2; 0; 0; 1 / 2] [false; false] [1 / 2; 1 / 2]
                       epsilon_default = Raise ValueError_empty_max \/
  exists M q,
    computeVerticesHoles [1 / 2; 0; 0; 1 / 2] [false; false] [1 / 2; 1 / 2]
                         epsilon_default = Ok (M, q).
Proof.
  apply (computeVerticesHoles_safe [1 / 2; 0; 0; 1 / 2] [false; false]
           [1 / 2; 1 / 2] epsilon_default).
  - simpl. lia.
  - simpl. lia.
  - simpl. lra.
  - exists O. simpl. split; [lia | lra].
Defined.

(** ** A negative tolerance *)

Lemma system_loop_shape P Q Range K variables : forall js A b,
  system_loop P Q Range K variables js = Ok (A, b) ->
  length A = length b /\
  forall row, In row A -> length row = length variables.
Proof.
  induction js as [|j js IH]; intros A b H.
  - inversion H. split; [reflexivity | intros row []].
  - cbn [system_loop] in H.
    apply bind_Ok in H. destruct H as (take & _ & H).
    destruct take; [| apply IH; exact H].
    apply bind_Ok in H. destruct H as (Pj & _ & H).
    apply bind_Ok in H. destruct H as (PK & _ & H).
    destruct (Reqb PK 0); [discriminate |].
    apply bind_Ok in H. destruct H as ([A' b'] & Hrec & H).
    inversion H; subst A b. destruct (IH _ _ Hrec) as [Hl Hrow].
    split; [simpl; congruence |].
    intros row [<- | Hin]; [apply length_map | apply Hrow; exact Hin].
Qed.

Lemma combinations_In {X} (l : list X) : forall r s,
  In s (combinations l r) -> forall x, In x s -> In x l.
Proof.
  induction l as [|a t IH]; intros r s H x Hx.
  - destruct r; simpl in H; [destruct H as [<- | []]; contradiction | contradiction].
  - destruct r as [|r]; simpl in H; [destruct H as [<- | []]; contradiction |].
    apply in_app_or in H. destruct H as [H | H].
    + apply in_map_iff in H. destruct H as (s' & <- & Hs').
      destruct Hx as [<- | Hx]; [left; reflexivity | right].
      apply (IH _ _ Hs' _ Hx).
    + right. apply (IH _ _ H _ Hx).
Qed.

Lemma combine_nth_In (A : list (list R)) (b : list R) i :
  (i < length A)%nat -> length A = length b ->
  In (nth i A [], nth i b 0) (combine A b).
Proof.
  intros Hi Hl. rewrite <- (combine_nth A b i [] 0 Hl).
  apply nth_In. rewrite length_combine. lia.
Qed.

(** A vertex meets the rows of its subsystem with equality. *)
Lemma vertex_tight A b epsilon n e vs y :
  length A = length b ->
  (forall row, In row A -> length row = e) ->
  vertices_loop A b epsilon (combinations (seq 0 n) e) = Ok vs ->
  (n <= length A)%nat ->
  In y vs ->
  (e = 0)%nat \/
  exists i, (i < length A)%nat /\ dot (nth i A []) y = nth i b 0.
Proof.
  intros Hl Hrows Hvs Hn Hy.
  apply (proj1 (vertices_loop_In _ _ _ _ _ Hvs y)) in Hy.
  destruct Hy as (s & Hs & Hsol & _).
  pose proof (combinations_length _ _ _ Hs) as Hlen.
  destruct s as [|i s']; [left; simpl in Hlen; lia | right].
  assert (Hi : (i < length A)%nat).
  { pose proof (combinations_In _ _ _ Hs i (or_introl eq_refl)) as Hin.
    apply in_seq in Hin. lia. }
  exists i. split; [exact Hi |].
  apply (solve_sound _ _ _ Hsol).
  - rewrite !length_map. reflexivity.
  - intros row Hrow. rewrite length_map, Hlen.
    apply in_map_iff in Hrow. destruct Hrow as (j & <- & Hj).
    apply Hrows. apply nth_In.
    pose proof (combinations_In _ _ _ Hs j Hj) as Hin.
    apply in_seq in Hin. lia.
  - left. reflexivity.
Qed.

(** X8: over exact reals, with a negative tolerance no vertex passes the
    feasibility test, because a vertex meets the rows of its own subsystem
    with equality: on input of the right sizes ([len(k) <= len(c)],
    [2^len(k) <= len(P)]) with a positive reference probability [P[K]] and
    a free coordinate the call raises the [ValueError] of [max] on an
    empty list.  (Without [P[K] > 0] the call can raise
    [ZeroDivisionError] first; in floating point a tolerance smaller than
    the rounding of [b] is absorbed by [b+epsilon].) *)
Theorem computeVerticesHoles_negative_tolerance
        (P : list R) (k : outcome) (c : list R) (epsilon : R) :
  epsilon < 0 ->
  (length k <= length c)%nat ->
  (2 ^ length k <= length P)%nat ->
  0 < nth (outcome_index k) P 0 ->
  (exists i, (i < length k)%nat /\ 0 < nth i c 0 < 1) ->
  computeVerticesHoles P k c epsilon = Raise ValueError_empty_max.
Proof.
  intros Heps Hc HP HPK Hfree.
  destruct (computeVerticesHoles_vertices P k c epsilon Hc HP HPK Hfree)
    as (A & b & vs & Hsys & Hvs & ->).
  destruct (system_loop_shape _ _ _ _ _ _ _ _ Hsys) as [Hl Hrows].
  destruct vs as [|y vs0]; [reflexivity | exfalso].
  assert (Hy : In y (y :: vs0)) by (left; reflexivity).
  destruct (vertex_tight _ _ _ _ _ _ _ Hl Hrows Hvs (Nat.le_refl _) Hy)
    as [He | (i & Hi & Htight)].
  - destruct Hfree as (i0 & Hi0 & Hfree).
    pose proof (free_coordinate_listed c (length k) i0 Hi0 Hfree) as Hin.
    apply length_zero_iff_nil in He. rewrite He in Hin. contradiction.
  - apply (proj1 (vertices_loop_In _ _ _ _ _ Hvs y)) in Hy.
    destruct Hy as (_ & _ & _ & Hfeas).
    pose proof (proj1 (feasible_spec A b epsilon y) Hfeas _ _
                      (combine_nth_In A b i Hi Hl)) as Hle.
    lra.
Qed.

Lemma computeVerticesHoles_negative_tolerance_witness :
  computeVerticesHoles [1 / 4; 1 / 4; 1 / 4; 1 / 4] [false; false]
                       [1 / 2; 1 / 2] (-1)
  = Raise ValueError_empty_max.
Proof.
  apply (computeVerticesHoles_negative_tolerance
           [1 / 4; 1 / 4; 1 / 4; 1 / 4] [false; false] [1 / 2; 1 / 2] (-1)).
  - lra.
  - simpl. lia.
  - simpl. lia.
  - simpl. lra.
  - exists O. simpl. split; [lia | lra].
Defined.

(** ** The mass of the support *)

(** A call that returns on a compatible configuration divided by a
    positive [P[K]], whether or not [k] is in the support of [Q]: were
    [P[K]] zero, the outcome [sidestep c k] of the support would give a
    row and the division would raise. *)
Lemma returned_reference_positive P (k : outcome) c variables A b PK :
  Forall (fun v => In v [0; 1; 1 / 2]) c ->
  length c = length k ->
  length P = (2 ^ length k)%nat ->
  Forall (fun p => 0 <= p) P ->
  compatible c P = Ok true ->
  system_loop P (createIndependentSource c) (outcomes (length k))
              (outcome_index k) variables
              (seq 0 (length (outcomes (length k)))) = Ok (A, b) ->
  get P (outcome_index k) = Ok PK ->
  0 < PK.
Proof.
  intros Hcfg Hc HP Hpos Hcompat Hsys HPK.
  rewrite Forall_forall in Hpos.
  assert (H0 : 0 <= PK)
    by (apply Hpos; apply get_Ok in HPK; apply (nth_error_In _ _ HPK)).
  destruct H0 as [Hlt | <-]; [exact Hlt | exfalso].
  assert (HQK : product_probability c k = 0).
  { pose proof (compatible_true _ _ Hcompat _ HPK) as HQ0.
    apply get_Ok in HQ0.
    rewrite createIndependentSource_nth in HQ0 by congruence.
    inversion HQ0. reflexivity. }
  set (x0 := sidestep c k).
  assert (Hx0 : length x0 = length c) by (apply sidestep_length; congruence).
  assert (HQx0 : 0 < product_probability c x0).
  { pose proof (sidestep_support c k (eq_sym Hc) Hcfg) as Hne. fold x0 in Hne.
    assert (Hunit : Forall (fun v => 0 <= v <= 1) c).
    { apply (Forall_impl _ (P := fun v => In v [0; 1; 1 / 2])); [| exact Hcfg].
      intros v [<- | [<- | [<- | []]]]; lra. }
    pose proof (product_probability_unit c x0 Hunit). lra. }
  pose proof (outcome_index_lt x0) as Hj. rewrite Hx0, Hc in Hj.
  assert (HjK : outcome_index x0 <> outcome_index k).
  { intros E. apply outcome_index_inj in E; [| congruence].
    rewrite E in HQx0. lra. }
  assert (HQj : nth (outcome_index x0) (createIndependentSource c) 0
                = product_probability c x0)
    by (apply nth_error_nth, createIndependentSource_nth; exact Hx0).
  assert (HPj : 0 < nth (outcome_index x0) P 0).
  { assert (Hin : In (nth (outcome_index x0) P 0) P)
      by (apply nth_In; rewrite HP; exact Hj).
    apply Hpos in Hin. destruct Hin as [Hlt | Heq]; [exact Hlt | exfalso].
    assert (HP0 : get P (outcome_index x0) = Ok 0).
    { rewrite (get_nth P _ 0) by (rewrite HP; exact Hj).
      rewrite <- Heq. reflexivity. }
    pose proof (compatible_true _ _ Hcompat _ HP0) as HQ0.
    apply get_Ok in HQ0.
    rewrite createIndependentSource_nth in HQ0 by exact Hx0.
    inversion HQ0 as [E]. lra. }
  rewrite (system_loop_zero_reference P (createIndependentSource c)
             (outcomes (length k)) (outcome_index k) variables
             (seq 0 (length (outcomes (length k)))) HPK) in Hsys;
    [discriminate | |].
  - intros j Hjs. apply in_seq in Hjs. rewrite outcomes_length in Hjs.
    rewrite createIndependentSource_length, HP, Hc. lia.
  - exists (outcome_index x0). split; [| split; [exact HjK | split]].
    + apply in_seq. rewrite outcomes_length. lia.
    + exact HPj.
    + rewrite HQj. exact HQx0.
Qed.

(** X9: over exact reals, on a configuration [c] over 0, 1 and 0.5 that is
    compatible with a list [P] of [2^d] non-negative numbers,
    [d = len(c) = len(k)], the objective that a call with tolerance
    [epsilon >= 0] returns is positive and at most [exp epsilon] times the
    mass that [P] gives to the support of the source [Q], for every
    reference outcome [k], in the support of [Q] or not. *)
Theorem computeVerticesHoles_support_mass
        (P : list R) (k : outcome) (c : list R) (epsilon M : R) (q : list R) :
  Forall (fun v => In v [0; 1; 1 / 2]) c ->
  length c = length k ->
  length P = (2 ^ length k)%nat ->
  Forall (fun p => 0 <= p) P ->
  compatible c P = Ok true ->
  0 <= epsilon ->
  computeVerticesHoles P k c epsilon = Ok (M, q) ->
  0 < M <=
  exp epsilon *
  sum_list (map (fun x : outcome =>
                   if Rltb 0 (product_probability c x)
                   then nth (outcome_index x) P 0 else 0)
                (outcomes (length k))).
Proof.
  intros Hcfg Hc HP Hpos Hcompat Heps H.
  unfold computeVerticesHoles in H.
  apply bind_Ok in H. destruct H as (holes & _ & H).
  apply bind_Ok in H. destruct H as (variables & Hvars & H).
  apply bind_Ok in H. destruct H as (K & HK & H).
  rewrite index_outcome in HK. inversion HK; subst K. clear HK.
  apply bind_Ok in H. destruct H as ([A b] & Hsys & H).
  apply bind_Ok in H. destruct H as (v & Hv & H).
  apply bind_Ok in H. destruct H as (cv & Hcv & H).
  apply bind_Ok in H. destruct H as (M0 & HM & H).
  apply bind_Ok in H. destruct H as (i & _ & H).
  apply bind_Ok in H. destruct H as (yhat & _ & H).
  apply bind_Ok in H. destruct H as (q0 & _ & H).
  inversion H; subst M0 q0. clear H.
  destruct (mapM_objective _ _ _ _ Hcv) as [[-> ->] | (PK & HPK & ->)];
    [discriminate |].
  apply py_max_In in HM. apply in_map_iff in HM. destruct HM as (y & <- & Hy).
  pose proof (vertices_length _ _ _ _ _ _ _ Hv Hy) as Hylen.
  apply (proj1 (vertices_loop_In _ _ _ _ _ Hv y)) in Hy.
  destruct Hy as (_ & _ & _ & Hfeas).
  pose proof (returned_reference_positive P k c variables A b PK
                Hcfg Hc HP Hpos Hcompat Hsys HPK) as HPKpos.
  pose proof (prod_exp_pos y) as Hprod.
  pose proof (exp_pos epsilon) as Hexp.
  unfold objective. split; [apply Rmult_lt_0_compat; assumption |].
  assert (Hlen : length y = length (diff_row c k k)).
  { rewrite Hylen. destruct (free_coordinates_inv _ _ _ Hvars) as [_ ->].
    rewrite <- (row_diff_row c k k) by congruence.
    rewrite length_map, Hc. reflexivity. }
  rewrite <- (support_sum c k y Hcfg (eq_sym Hc) Hlen), <- !sum_list_scale.
  rewrite Hc.
  apply sum_list_le. intros x Hx. apply outcomes_In_length in Hx.
  pose proof (vertex_term_bound P k c epsilon Hc HP Hpos Hcompat Heps
                variables A b PK y x Hvars Hsys HPK HPKpos Hfeas Hx) as Hterm.
  destruct (Rltb 0 (product_probability c x)); [exact Hterm | lra].
Qed.

(** A call whose reference outcome is outside the support of [Q]. *)

Lemma solve_0 b : solve [[0]] [b] = None.
Proof. unfold solve. repeat (progress cbn || rdecide). reflexivity. Qed.

Lemma ln_two_pos : 0 < ln (1 / 2 / (1 / 4)).
Proof.
  replace (1 / 2 / (1 / 4)) with 2 by lra.
  rewrite <- ln_1. apply ln_increasing; lra.
Qed.

Lemma outside_support_call :
  computeVerticesHoles [1 / 2; 1 / 4; 1 / 4; 0] [true; false] [0; 1 / 2]
                       epsilon_default
  = Ok (1 / 2, [0; 1 / 2]).
Proof.
  pose proof ln_two_pos.
  cvh_eval_with ltac:(rewrite ?solve_0, ?ln_quarter; norm_exp0).
  cvh_done.
Qed.

Lemma outside_support_compatible :
  compatible [0; 1 / 2] [1 / 2; 1 / 4; 1 / 4; 0] = Ok true.
Proof. compatible_eval. reflexivity. Qed.

Lemma computeVerticesHoles_support_mass_witness :
  0 < 1 / 2 <=
  exp epsilon_default *
  sum_list (map (fun x : outcome =>
                   if Rltb 0 (product_probability [0; 1 / 2] x)
                   then nth (outcome_index x) [1 / 2; 1 / 4; 1 / 4; 0] 0
                   else 0)
                (outcomes (length [true; false]))).
Proof.
  apply (computeVerticesHoles_support_mass
           [1 / 2; 1 / 4; 1 / 4; 0] [true; false] [0; 1 / 2]
           epsilon_default (1 / 2) [0; 1 / 2]).
  - apply Forall_cons; [simpl; tauto |].
    apply Forall_cons; [simpl; tauto | apply Forall_nil].
  - reflexivity.
  - reflexivity.
  - repeat constructor; lra.
  - apply outside_support_compatible.
  - apply epsilon_default_nonneg.
  - apply outside_support_call.
Defined.

(** * The search as a whole *)

(** ** Every call that the search makes is among its candidates *)

Lemma inner_loop_complete P c Q Range : forall Is rs,
  inner_loop P c Q Range Is = Ok rs ->
  forall I0 i Qi,
    In I0 Is -> index outcome_eqb I0 Range = Ok i -> get Q i = Ok Qi ->
    0 < Qi ->
    exists r, computeVerticesHoles P I0 c epsilon_default = Ok r /\ In r rs.
Proof.
  induction Is as [|I1 Is IH]; intros rs H I0 i Qi HI Hi HQ Hpos; [contradiction |].
  cbn [inner_loop] in H.
  apply bind_Ok in H. destruct H as (i1 & Hi1 & H).
  apply bind_Ok in H. destruct H as (Q1 & HQ1 & H).
  destruct (Rltb 0 Q1) eqn:E.
  - apply bind_Ok in H. destruct H as (r1 & Hr1 & H).
    apply bind_Ok in H. destruct H as (rs' & Hrs' & H).
    inversion H; subst rs. destruct HI as [-> | HI].
    + exists r1. split; [exact Hr1 | left; reflexivity].
    + destruct (IH _ Hrs' I0 i Qi HI Hi HQ Hpos) as (r & Hr & Hin).
      exists r. split; [exact Hr | right; exact Hin].
  - destruct HI as [-> | HI].
    + exfalso. rewrite Hi in Hi1. inversion Hi1; subst i1.
      rewrite HQ in HQ1. inversion HQ1; subst Q1.
      rewrite (Rltb_true _ _ Hpos) in E. discriminate.
    + apply (IH _ H I0 i Qi HI Hi HQ Hpos).
Qed.

Lemma outer_loop_complete P Range : forall cs rs,
  outer_loop P Range cs = Ok rs ->
  forall c I0 i Qi,
    In c cs -> In I0 Range -> index outcome_eqb I0 Range = Ok i ->
    get (createIndependentSource c) i = Ok Qi -> 0 < Qi ->
    exists r, computeVerticesHoles P I0 c epsilon_default = Ok r /\ In r rs.
Proof.
  induction cs as [|c1 cs IH]; intros rs H c I0 i Qi Hc HI Hi HQ Hpos;
    [contradiction |].
  cbn [outer_loop] in H.
  apply bind_Ok in H. destruct H as (rs1 & Hrs1 & H).
  apply bind_Ok in H. destruct H as (rs2 & Hrs2 & H).
  inversion H; subst rs. destruct Hc as [-> | Hc].
  - destruct (inner_loop_complete _ _ _ _ _ _ Hrs1 I0 i Qi HI Hi HQ Hpos)
      as (r & Hr & Hin).
    exists r. split; [exact Hr | apply in_or_app; left; exact Hin].
  - destruct (IH _ Hrs2 c I0 i Qi Hc HI Hi HQ Hpos) as (r & Hr & Hin).
    exists r. split; [exact Hr | apply in_or_app; right; exact Hin].
Qed.

(** The pair that the search returns is the result of one of its calls. *)
Lemma indWeightHoles_chosen P Lambda q :
  indWeightHoles P = Ok (Lambda, q) ->
  exists c I0, invokes P c I0 /\
    computeVerticesHoles P I0 c epsilon_default = Ok (Lambda, q).
Proof.
  unfold indWeightHoles. intros H.
  apply bind_Ok in H. destruct H as (d & Hd & H).
  apply bind_Ok in H. destruct H as (compatibles & Hcs & H).
  apply bind_Ok in H. destruct H as (results & Hres & H).
  apply bind_Ok in H. destruct H as (L & HL & H).
  apply bind_Ok in H. destruct H as (i & Hi & H).
  apply bind_Ok in H. destruct H as (m & Hm & H).
  inversion H; subst L m. clear H.
  apply index_Reqb_nth in Hi. apply get_Ok in Hm.
  rewrite nth_error_map in Hi, Hm.
  destruct (nth_error results i) as [[L q'] |] eqn:E; [| discriminate].
  cbn [option_map fst snd] in Hi, Hm.
  inversion Hi; inversion Hm; subst L q'.
  apply nth_error_In in E.
  destruct (outer_loop_In _ _ _ _ _ Hres E)
    as (c & I0 & i0 & Qi & Hc & HI & Hi0 & HQi & HQipos & Hcall).
  exists c, I0. split; [| exact Hcall].
  exists d, compatibles, i0, Qi. repeat split; assumption.
Qed.

(** X10: the pair that [indWeightHoles] returns is the result of one of the
    calls to [computeVerticesHoles] that it makes, and every call that it
    makes returned with an objective that is not larger. *)
Theorem indWeightHoles_best_call (P : list R) (Lambda : R) (q : list R) :
  indWeightHoles P = Ok (Lambda, q) ->
  (exists c I0, invokes P c I0 /\
     computeVerticesHoles P I0 c epsilon_default = Ok (Lambda, q)) /\
  (forall c I0, invokes P c I0 ->
     exists M q',
       computeVerticesHoles P I0 c epsilon_default = Ok (M, q') /\
       M <= Lambda).
Proof.
  intros H. split; [apply indWeightHoles_chosen; exact H |].
  intros c I0 (d & compatibles & i & Qi & Hd & Hcs & Hc & HI & Hi & HQ & Hpos).
  unfold indWeightHoles in H.
  rewrite Hd in H. cbn [bind] in H. rewrite Hcs in H. cbn [bind] in H.
  apply bind_Ok in H. destruct H as (results & Hres & H).
  apply bind_Ok in H. destruct H as (L & HL & H).
  apply bind_Ok in H. destruct H as (i' & _ & H).
  apply bind_Ok in H. destruct H as (m & _ & H).
  inversion H; subst L m. clear H.
  destruct (outer_loop_complete _ _ _ _ Hres c I0 i Qi Hc HI Hi HQ Hpos)
    as ([M q'] & Hr & Hin).
  exists M, q'. split; [exact Hr |].
  apply (py_max_upper _ _ _ HL).
  apply in_map_iff. exists (M, q'). split; [reflexivity | exact Hin].
Qed.

Lemma indWeightHoles_best_call_witness :
  (exists c I0, invokes [0; 0; 1 / 5; 4 / 5] c I0 /\
     computeVerticesHoles [0; 0; 1 / 5; 4 / 5] I0 c epsilon_default
     = Ok (1, [1; 1 / 5])) /\
  (forall c I0, invokes [0; 0; 1 / 5; 4 / 5] c I0 ->
     exists M q',
       computeVerticesHoles [0; 0; 1 / 5; 4 / 5] I0 c epsilon_default
       = Ok (M, q') /\
       M <= 1).
Proof.
  apply (indWeightHoles_best_call [0; 0; 1 / 5; 4 / 5] 1 [1; 1 / 5]).
  exact (proj1 indWeightHoles_skewed).
Defined.

(** ** The parameter vector that the search returns *)

Lemma count_pos_nth x c :
  (0 < count x c)%nat -> exists j, (j < length c)%nat /\ nth j c 0 = x.
Proof.
  unfold count. intros H.
  destruct (filter (fun v => Reqb v x) c) as [|v l] eqn:E; [simpl in H; lia |].
  assert (Hin : In v (filter (fun v => Reqb v x) c))
    by (rewrite E; left; reflexivity).
  apply filter_In in Hin. destruct Hin as [Hin Hv].
  apply Reqb_spec in Hv. subst v.
  destruct (In_nth c x 0 Hin) as (j & Hj & Hnth). eauto.
Qed.

(** X11: over exact reals, the parameter vector that [indWeightHoles]
    returns has [d = int(log2(len(P)))] entries, every entry is in [0,1]
    and at least one of them is strictly between 0 and 1.  (In floating
    point an entry [s/(1+s)] of a free coordinate rounds to 1 once [s] is
    large and is [nan] when [s] overflows.) *)
Theorem indWeightHoles_parameters (P : list R) (Lambda : R) (q : list R) :
  indWeightHoles P = Ok (Lambda, q) ->
  length q = Nat.log2 (length P) /\
  Forall (fun v => 0 <= v <= 1) q /\
  Exists (fun v => 0 < v < 1) q.
Proof.
  intros H.
  destruct (indWeightHoles_chosen _ _ _ H) as (c & I0 & Hinv & Hcall).
  destruct Hinv as (d & compatibles & i & Qi & Hd & Hcs & Hc & HI & _).
  apply int_log2_inv in Hd. destruct Hd as [_ Hd].
  destruct (compatible_configurations_inv _ _ _ _ Hcs Hc)
    as (Hl & Hcfg & _ & Hcount).
  apply outcomes_In_length in HI.
  destruct (computeVerticesHoles_inv _ _ _ _ _ _ Hcall) as (_ & yhat & Hrec).
  destruct (reconstruct_shape _ _ _ _ _ _ _ Hrec) as [Hq Hent].
  rewrite length_seq, HI in Hq, Hent.
  assert (Hentry : forall j, (j < d)%nat ->
            (nth j c 0 = 1 / 2 -> 0 < nth j q 0 < 1) /\
            (nth j c 0 = 0 \/ nth j c 0 = 1 -> nth j q 0 = nth j c 0)).
  { intros j Hj. specialize (Hent j Hj).
    rewrite seq_nth in Hent by exact Hj. cbn [Nat.add] in Hent.
    rewrite existsb_filter in Hent by (apply in_seq; lia).
    split.
    - intros E. rewrite E in Hent.
      rewrite (Rltb_true 0 (1 / 2)), (Rltb_true (1 / 2) 1) in Hent by lra.
      exact Hent.
    - intros E.
      assert (Hb : Rltb 0 (nth j c 0) && Rltb (nth j c 0) 1 = false).
      { destruct E as [E | E]; rewrite E.
        - rewrite (Rltb_false 0 0) by lra. reflexivity.
        - rewrite (Rltb_false 1 1) by lra. apply andb_false_r. }
      rewrite Hb, (get_nth c j 0) in Hent by lia.
      inversion Hent as [E']. reflexivity. }
  split; [congruence |]. split.
  - apply Forall_forall. intros v Hv.
    destruct (In_nth q v 0 Hv) as (j & Hj & <-).
    rewrite Hq in Hj. destruct (Hentry j Hj) as [Hfree Hfix].
    rewrite Forall_forall in Hcfg.
    assert (Hcj : In (nth j c 0) [0; 1; 1 / 2])
      by (apply Hcfg, nth_In; lia).
    destruct Hcj as [E | [E | [E | []]]].
    + rewrite Hfix by (left; congruence). lra.
    + rewrite Hfix by (right; congruence). lra.
    + assert (0 < nth j q 0 < 1) by (apply Hfree; congruence). lra.
  - destruct (count_pos_nth _ _ Hcount) as (j & Hj & E).
    apply Exists_exists. exists (nth j q 0).
    split; [apply nth_In; lia |].
    apply (proj1 (Hentry j ltac:(lia))). exact E.
Qed.

Lemma indWeightHoles_parameters_witness :
  length [1; 1 / 5] = Nat.log2 (length [0; 0; 1 / 5; 4 / 5]) /\
  Forall (fun v => 0 <= v <= 1) [1; 1 / 5] /\
  Exists (fun v => 0 < v < 1) [1; 1 / 5].
Proof.
  apply (indWeightHoles_parameters [0; 0; 1 / 5; 4 / 5] 1 [1; 1 / 5]).
  exact (proj1 indWeightHoles_skewed).
Defined.

(** ** The only exception on a list of [2^d] non-negative numbers *)

Lemma filterM_returns {A} (f : A -> result bool) l :
  (forall x, In x l -> exists keep, f x = Ok keep) ->
  exists r, filterM f l = Ok r.
Proof.
  induction l as [|x l IH]; intros H; [exists []; reflexivity |].
  destruct (H x (or_introl eq_refl)) as (keep & Hk).
  destruct IH as (r & Hr); [intros y Hy; apply H; right; exact Hy |].
  cbn [filterM]. rewrite Hk. cbn [bind]. rewrite Hr. cbn [bind]. eauto.
Qed.

Lemma compatible_configurations_returns P d :
  length P = (2 ^ d)%nat ->
  exists compatibles, compatible_configurations P d = Ok compatibles.
Proof.
  intros HP. unfold compatible_configurations. apply filterM_returns.
  intros c Hc. apply product_In in Hc. destruct Hc as [Hl _].
  destruct (compatible_returns c P) as (r & ->); [congruence |].
  cbn [bind]. eauto.
Qed.

Lemma inner_loop_ends P c d :
  length P = (2 ^ d)%nat ->
  Forall (fun p => 0 <= p) P ->
  length c = d ->
  compatible c P = Ok true ->
  (0 < count (1 / 2) c)%nat ->
  forall Is, (forall I0, In I0 Is -> length I0 = d) ->
  inner_loop P c (createIndependentSource c) (outcomes d) Is
  = Raise ValueError_empty_max \/
  exists rs, inner_loop P c (createIndependentSource c) (outcomes d) Is = Ok rs.
Proof.
  intros HP Hpos Hc Hcompat Hcount.
  induction Is as [|I0 Is IH]; intros HIs; [right; exists []; reflexivity |].
  pose proof (HIs I0 (or_introl eq_refl)) as HI.
  assert (IH' := IH (fun I1 H1 => HIs I1 (or_intror H1))). clear IH.
  pose proof (outcome_index_lt I0) as HK. rewrite HI in HK.
  assert (Estep :
    inner_loop P c (createIndependentSource c) (outcomes d) (I0 :: Is)
    = if Rltb 0 (nth (outcome_index I0) (createIndependentSource c) 0)
      then r <- computeVerticesHoles P I0 c epsilon_default ;;
           rs <- inner_loop P c (createIndependentSource c) (outcomes d) Is ;;
           Ok (r :: rs)
      else inner_loop P c (createIndependentSource c) (outcomes d) Is).
  { cbn [inner_loop]. rewrite <- HI at 1. rewrite index_outcome. cbn [bind].
    rewrite (get_nth (createIndependentSource c) (outcome_index I0) 0)
      by (rewrite createIndependentSource_length, Hc; exact HK).
    reflexivity. }
  rewrite Estep. clear Estep.
  destruct (Rltb 0 (nth (outcome_index I0) (createIndependentSource c) 0)) eqn:E;
    [| exact IH'].
  apply Rltb_spec in E.
  assert (Hraise : forall e,
            computeVerticesHoles P I0 c epsilon_default = Raise e ->
            e = ValueError_empty_max);
    [intros e; apply computeVerticesHoles_raises |].
  - lia.
  - rewrite HI, HP. lia.
  - assert (Hin : In (nth (outcome_index I0) P 0) P)
      by (apply nth_In; rewrite HP; exact HK).
    rewrite Forall_forall in Hpos. apply Hpos in Hin.
    destruct Hin as [Hlt | Heq]; [exact Hlt | exfalso].
    assert (HPK : get P (outcome_index I0) = Ok 0).
    { rewrite (get_nth P _ 0) by (rewrite HP; exact HK). rewrite <- Heq.
      reflexivity. }
    pose proof (compatible_true _ _ Hcompat _ HPK) as HQ.
    rewrite (get_nth _ _ 0) in HQ
      by (rewrite createIndependentSource_length, Hc; exact HK).
    inversion HQ as [HQ0]. lra.
  - destruct (count_pos_nth _ _ Hcount) as (j & Hj & Ej).
    exists j. split; [lia | rewrite Ej; lra].
  - destruct (computeVerticesHoles P I0 c epsilon_default) as [r | e].
    + cbn [bind].
      destruct IH' as [-> | (rs & ->)]; [left; reflexivity | right].
      cbn [bind]. eauto.
    + left. rewrite (Hraise e eq_refl). reflexivity.
Qed.

Lemma outer_loop_ends P d :
  length P = (2 ^ d)%nat ->
  Forall (fun p => 0 <= p) P ->
  forall cs,
    (forall c, In c cs ->
       length c = d /\ compatible c P = Ok true /\ (0 < count (1 / 2) c)%nat) ->
    outer_loop P (outcomes d) cs = Raise ValueError_empty_max \/
    exists rs, outer_loop P (outcomes d) cs = Ok rs.
Proof.
  intros HP Hpos. induction cs as [|c cs IH]; intros Hcs;
    [right; exists []; reflexivity |].
  destruct (Hcs c (or_introl eq_refl)) as (Hc & Hcompat & Hcount).
  assert (IH' := IH (fun c1 H1 => Hcs c1 (or_intror H1))). clear IH.
  cbn [outer_loop].
  destruct (inner_loop_ends P c d HP Hpos Hc Hcompat Hcount (outcomes d)
              (fun I0 => outcomes_In_length d I0)) as [-> | (rs & ->)];
    [left; reflexivity |].
  cbn [bind]. destruct IH' as [-> | (rs' & ->)]; [left; reflexivity | right].
  cbn [bind]. eauto.
Qed.

(** X12: on a list of [2^d] non-negative numbers the search either returns
    a pair or raises the [ValueError] of [max] on an empty list; no index,
    division or lookup error is possible. *)
Theorem indWeightHoles_safe (P : list R) (d : nat) :
  length P = (2 ^ d)%nat ->
  Forall (fun p => 0 <= p) P ->
  indWeightHoles P = Raise ValueError_empty_max \/
  exists Lambda q, indWeightHoles P = Ok (Lambda, q).
Proof.
  intros HP Hpos. unfold indWeightHoles.
  rewrite int_log2_pos
    by (rewrite HP; apply Nat.neq_0_lt_0, Nat.pow_nonzero; discriminate).
  rewrite HP, Nat.log2_pow2 by lia. cbn [bind].
  destruct (compatible_configurations_returns P d HP) as (cs & Hcs).
  rewrite Hcs. cbn [bind].
  destruct (outer_loop_ends P d HP Hpos cs) as [-> | (rs & ->)].
  - intros c Hc.
    destruct (compatible_configurations_inv _ _ _ _ Hcs Hc) as (Hl & _ & Hok & Hn).
    repeat split; assumption.
  - left. reflexivity.
  - cbn [bind]. destruct rs as [|r rs0] eqn:E; [left; reflexivity | right].
    rewrite <- E.
    destruct (py_max_nonempty (map fst rs)) as (L & HL);
      [rewrite E; discriminate |].
    rewrite HL. cbn [bind].
    destruct (index_Reqb_In L _ (py_max_In _ _ HL)) as (i & Hi & Hlt).
    rewrite Hi. cbn [bind].
    rewrite (get_nth (map snd rs) i [])
      by (rewrite length_map in *; exact Hlt).
    cbn [bind]. eauto.
Qed.

Lemma indWeightHoles_safe_witness :
  indWeightHoles [1; 0] = Raise ValueError_empty_max \/
  exists Lambda q, indWeightHoles [1; 0] = Ok (Lambda, q).
Proof.
  apply (indWeightHoles_safe [1; 0] 1).
  - reflexivity.
  - repeat constructor; lra.
Defined.

(** * Lists whose length is not a power of two *)

(** ** The functions read [P] only through [P[j]] *)

Lemma compatible_loop_ext P P' Q : forall js,
  (forall j, In j js -> get P j = get P' j) ->
  compatible_loop P Q js = compatible_loop P' Q js.
Proof.
  induction js as [|j js IH]; intros H; [reflexivity |].
  cbn [compatible_loop]. rewrite (H j (or_introl eq_refl)).
  rewrite IH by (intros i Hi; apply H; right; exact Hi). reflexivity.
Qed.

Lemma compatible_loop_suffix P Q js2 :
  (forall j, In j js2 -> (j < length P)%nat /\ nth j P 0 <> 0) ->
  forall js1,
    compatible_loop P Q (js1 ++ js2) = compatible_loop P Q js1.
Proof.
  intros H2. induction js1 as [|j js1 IH].
  - cbn [app compatible_loop]. apply compatible_loop_passes.
    intros j Hj. destruct (H2 j Hj) as [Hlt Hne].
    split; [exact Hlt |]. intros [Hz _]. contradiction.
  - cbn [app compatible_loop]. rewrite IH. reflexivity.
Qed.

Lemma system_loop_ext P P' Q Range K variables : forall js,
  get P K = get P' K ->
  (forall j, In j js -> get P j = get P' j) ->
  system_loop P Q Range K variables js = system_loop P' Q Range K variables js.
Proof.
  induction js as [|j js IH]; intros HK H; [reflexivity |].
  cbn [system_loop]. rewrite (H j (or_introl eq_refl)), HK.
  rewrite (IH HK) by (intros i Hi; apply H; right; exact Hi). reflexivity.
Qed.

Lemma mapM_ext {A B} (f g : A -> result B) l :
  (forall x, f x = g x) -> mapM f l = mapM g l.
Proof.
  intros H. induction l as [|x l IH]; [reflexivity |].
  cbn [mapM]. rewrite H, IH. reflexivity.
Qed.

Lemma filterM_ext {A} (f g : A -> result bool) l :
  (forall x, In x l -> f x = g x) -> filterM f l = filterM g l.
Proof.
  induction l as [|x l IH]; intros H; [reflexivity |].
  cbn [filterM]. rewrite (H x (or_introl eq_refl)).
  rewrite IH by (intros y Hy; apply H; right; exact Hy). reflexivity.
Qed.

Lemma computeVerticesHoles_ext P P' (k : outcome) c epsilon :
  (forall j, (j < 2 ^ length k)%nat -> get P j = get P' j) ->
  computeVerticesHoles P k c epsilon = computeVerticesHoles P' k c epsilon.
Proof.
  intros H. unfold computeVerticesHoles.
  destruct (filterM _ (seq 0 (2 ^ length k))) as [holes | e]; [| reflexivity].
  cbn [bind].
  destruct (free_coordinates c (length k)) as [variables | e]; [| reflexivity].
  cbn [bind]. rewrite index_outcome. cbn [bind].
  pose proof (outcome_index_lt k) as HK.
  rewrite (system_loop_ext P P' _ _ (outcome_index k) variables
             (seq 0 (length (outcomes (length k)))) (H _ HK))
    by (intros j Hj; apply in_seq in Hj; rewrite outcomes_length in Hj;
        apply H; lia).
  destruct (system_loop P' _ _ _ _ _) as [[A b] | e]; [| reflexivity].
  cbn [bind].
  destruct (vertices_loop A b epsilon _) as [vs | e]; [| reflexivity].
  cbn [bind].
  rewrite (mapM_ext _ (fun y => PK <- get P' (outcome_index k) ;;
                                Ok (objective PK y)) vs)
    by (intros y; rewrite (H _ HK); reflexivity).
  reflexivity.
Qed.

Lemma inner_loop_ext P P' c Q d : forall Is,
  (forall j, (j < 2 ^ d)%nat -> get P j = get P' j) ->
  (forall I0, In I0 Is -> length I0 = d) ->
  inner_loop P c Q (outcomes d) Is = inner_loop P' c Q (outcomes d) Is.
Proof.
  intros Is H. induction Is as [|I0 Is IH]; intros HIs; [reflexivity |].
  cbn [inner_loop].
  rewrite (computeVerticesHoles_ext P P' I0 c epsilon_default)
    by (rewrite (HIs I0 (or_introl eq_refl)); exact H).
  rewrite IH by (intros I1 H1; apply HIs; right; exact H1). reflexivity.
Qed.

Lemma outer_loop_ext P P' d : forall cs,
  (forall j, (j < 2 ^ d)%nat -> get P j = get P' j) ->
  outer_loop P (outcomes d) cs = outer_loop P' (outcomes d) cs.
Proof.
  intros cs H. induction cs as [|c cs IH]; [reflexivity |].
  cbn [outer_loop].
  rewrite (inner_loop_ext P P' c _ d (outcomes d) H
             (fun I0 => outcomes_In_length d I0)).
  rewrite IH. reflexivity.
Qed.

Lemma get_firstn {A} (l : list A) m j :
  (j < m)%nat -> get (firstn m l) j = get l j.
Proof.
  intros Hj. unfold get. rewrite nth_error_firstn.
  destruct (Nat.ltb_spec j m); [reflexivity | lia].
Qed.

(** The test of compatibility does not see non-zero entries past [2^d]. *)
Lemma compatible_firstn c P m :
  (0 < m <= length P)%nat ->
  (forall j, (m <= j < length P)%nat -> nth j P 0 <> 0) ->
  compatible c P = compatible c (firstn m P).
Proof.
  intros Hm Htail. unfold compatible.
  rewrite !int_log2_pos by (rewrite ?length_firstn; lia). cbn [bind].
  rewrite length_firstn, Nat.min_l by lia.
  transitivity (compatible_loop P (createIndependentSource c)
                                (seq 0 m ++ seq m (length P - m))).
  - f_equal. rewrite <- seq_app. f_equal. lia.
  - rewrite compatible_loop_suffix.
    + apply compatible_loop_ext. intros j Hj. apply in_seq in Hj.
      symmetry. apply get_firstn. lia.
    + intros j Hj. apply in_seq in Hj. split; [lia | apply Htail; lia].
Qed.

(** X13: when the length of [P] is not a power of two the search uses
    [d = int(log2(len(P)))] and, as long as the entries of [P] from
    position [2^d] on are non-zero, ignores them: the outcome is that of
    the search on the first [2^d] entries. *)
Theorem indWeightHoles_truncates (P : list R) :
  P <> [] ->
  (forall j, (2 ^ Nat.log2 (length P) <= j < length P)%nat -> nth j P 0 <> 0) ->
  indWeightHoles P = indWeightHoles (firstn (2 ^ Nat.log2 (length P)) P).
Proof.
  intros Hne Htail.
  set (d := Nat.log2 (length P)) in *.
  assert (Hlen : (0 < length P)%nat) by (destruct P; [contradiction | simpl; lia]).
  assert (Hd : (2 ^ d <= length P)%nat) by (apply Nat.log2_spec; exact Hlen).
  assert (Hpow : (0 < 2 ^ d)%nat)
    by (apply Nat.neq_0_lt_0, Nat.pow_nonzero; discriminate).
  assert (Hget : forall j, (j < 2 ^ d)%nat ->
                           get P j = get (firstn (2 ^ d) P) j)
    by (intros j Hj; symmetry; apply get_firstn; exact Hj).
  unfold indWeightHoles.
  rewrite length_firstn, Nat.min_l by exact Hd.
  rewrite !int_log2_pos by assumption.
  rewrite Nat.log2_pow2 by lia. fold d. cbn [bind].
  assert (Ecs : compatible_configurations P d
                = compatible_configurations (firstn (2 ^ d) P) d).
  { unfold compatible_configurations. apply filterM_ext. intros c _.
    rewrite (compatible_firstn c P (2 ^ d)); [reflexivity | lia | exact Htail]. }
  rewrite Ecs.
  destruct (compatible_configurations (firstn (2 ^ d) P) d) as [cs | e];
    [| reflexivity].
  cbn [bind]. rewrite (outer_loop_ext P (firstn (2 ^ d) P) d cs Hget).
  reflexivity.
Qed.

Lemma indWeightHoles_truncates_witness :
  indWeightHoles [1 / 4; 1 / 4; 1 / 4; 1 / 4; 1]
  = indWeightHoles
      (firstn (2 ^ Nat.log2 (length [1 / 4; 1 / 4; 1 / 4; 1 / 4; 1]))
              [1 / 4; 1 / 4; 1 / 4; 1 / 4; 1]).
Proof.
  apply (indWeightHoles_truncates [1 / 4; 1 / 4; 1 / 4; 1 / 4; 1]).
  - discriminate.
  - intros j Hj. change (Nat.log2 (length [1 / 4; 1 / 4; 1 / 4; 1 / 4; 1]))
      with 2%nat in Hj. simpl in Hj.
    assert (E : j = 4%nat) by lia. subst j. simpl. lra.
Defined.

(** ** Lists with fewer than two entries *)

(** X14: the search has no answer on a list with fewer than two entries:
    the empty list fails in [int(np.log2(0))], and on a list with one
    entry, where [d = 0], the only configuration is the empty one, which
    has no free coordinate, so [max] is taken of an empty list. *)
Theorem indWeightHoles_short_input :
  indWeightHoles [] = Raise OverflowError /\
  forall p, indWeightHoles [p] = Raise ValueError_empty_max.
Proof.
  split; [reflexivity |].
  intros p. unfold indWeightHoles, compatible_configurations.
  cbn [length int_log2 Nat.log2 bind product map flat_map app filterM].
  change (Nat.log2 1) with 0%nat. cbn [product filterM].
  destruct (compatible [] [p]) as [ok | e] eqn:E.
  - cbn [bind count filter length Nat.ltb Nat.leb andb].
    rewrite andb_false_r. reflexivity.
  - exfalso. unfold compatible in E.
    cbn [length int_log2 bind seq compatible_loop get nth_error] in E.
    unfold createIndependentSource in E. cbn in E.
    destruct (Reqb p 0); [| discriminate].
    destruct (negb (Reqb _ 0)); discriminate.
Qed.

(** * The search on the source of independent variables *)

(** ** The point that meets every row with equality *)

Lemma product_probability_pos p : forall x : outcome,
  Forall (fun v => 0 < v < 1) p ->
  0 < product_probability p x.
Proof.
  induction p as [|pj p IH]; intros x Hp.
  - unfold product_probability, prod. simpl. lra.
  - inversion Hp as [|? ? Hpj Hp']; subst. destruct x as [|xb x].
    + unfold product_probability, prod. simpl. lra.
    + rewrite product_probability_cons. specialize (IH x Hp').
      apply Rmult_lt_0_compat; [destruct xb; lra | exact IH].
Qed.

Lemma free_half : Rltb 0 (1 / 2) && Rltb (1 / 2) 1 = true.
Proof. rewrite (Rltb_true 0 (1 / 2)), (Rltb_true (1 / 2) 1) by lra. reflexivity. Qed.

Lemma fixed_zero : Rltb 0 0 && Rltb 0 1 = false.
Proof. rewrite (Rltb_false 0 0) by lra. reflexivity. Qed.

Lemma fixed_one : Rltb 0 1 && Rltb 1 1 = false.
Proof. rewrite (Rltb_false 1 1) by lra. apply andb_false_r. Qed.

(** The support of the source of a configuration, coordinate by
    coordinate. *)
Lemma support_cons v c xb (x : outcome) :
  In v [0; 1; 1 / 2] ->
  (0 < product_probability (v :: c) (xb :: x) <->
   (v = 0 /\ xb = false \/ v = 1 /\ xb = true \/ v = 1 / 2) /\
   0 < product_probability c x).
Proof.
  intros Hv. rewrite product_probability_cons.
  destruct Hv as [<- | [<- | [<- | []]]]; destruct xb; split.
  all: try (intros H; exfalso; lra).
  all: try (intros [[[H _] | [[H _] | H]] _]; exfalso; lra).
  all: try (intros [[[_ H] | [[_ H] | H]] _]; try discriminate; exfalso; lra).
  all: try (intros H; split; [tauto | lra]).
  all: try (intros [_ H]; lra).
Qed.

Lemma row_tight c : forall (k x : outcome) p,
  Forall (fun v => In v [0; 1; 1 / 2]) c ->
  Forall (fun v => 0 < v < 1) p ->
  length k = length c -> length x = length c -> length p = length c ->
  0 < product_probability c k ->
  0 < product_probability c x ->
  dot (diff_row c k x) (log_odds c k p)
  = ln (product_probability p x / product_probability p k).
Proof.
  induction c as [|v c IH]; intros [|kb k] [|xb x] [|pj p] Hc Hp Hk Hx Hlp HQk HQx;
    try discriminate.
  - unfold product_probability, prod. simpl.
    replace (1 / 1) with 1 by lra. rewrite ln_1. reflexivity.
  - inversion Hc as [|? ? Hv Hc']; subst.
    inversion Hp as [|? ? Hpj Hp']; subst.
    apply (support_cons v c kb k Hv) in HQk. destruct HQk as [Hkb HQk].
    apply (support_cons v c xb x Hv) in HQx. destruct HQx as [Hxb HQx].
    simpl in Hk, Hx, Hlp.
    specialize (IH k x p Hc' Hp' ltac:(lia) ltac:(lia) ltac:(lia) HQk HQx).
    pose proof (product_probability_pos p x Hp') as Hpx.
    pose proof (product_probability_pos p k Hp') as Hpk.
    rewrite !product_probability_cons.
    cbn [diff_row log_odds].
    destruct Hv as [<- | [<- | [<- | []]]].
    + rewrite fixed_zero.
      destruct Hkb as [[_ ->] | [[H _] | H]]; try (exfalso; lra).
      destruct Hxb as [[_ ->] | [[H _] | H]]; try (exfalso; lra).
      rewrite IH. f_equal. field. lra.
    + rewrite fixed_one.
      destruct Hkb as [[H _] | [[_ ->] | H]]; try (exfalso; lra).
      destruct Hxb as [[H _] | [[_ ->] | H]]; try (exfalso; lra).
      rewrite IH. f_equal. field. lra.
    + rewrite free_half. cbn [dot]. rewrite IH.
      assert (Hr : 0 < product_probability p x / product_probability p k)
        by (apply Rdiv_lt_0_compat; assumption).
      destruct kb, xb; cbn [Bool.eqb negb].
      * rewrite Rmult_0_l, Rplus_0_l. f_equal. field. lra.
      * rewrite Rmult_1_l, <- ln_mult;
          [f_equal; field; lra | apply Rdiv_lt_0_compat; lra | exact Hr].
      * rewrite Rmult_1_l, <- ln_mult;
          [f_equal; field; lra | apply Rdiv_lt_0_compat; lra | exact Hr].
      * rewrite Rmult_0_l, Rplus_0_l. f_equal. field. lra.
Qed.

Lemma log_odds_length c : forall (k : outcome) p,
  length k = length c -> length p = length c ->
  length (log_odds c k p) = length (diff_row c k k).
Proof.
  induction c as [|v c IH]; intros [|kb k] [|pj p] Hk Hp; try discriminate;
    [reflexivity |].
  cbn [log_odds diff_row]. simpl in Hk, Hp.
  destruct (Rltb 0 v && Rltb v 1); cbn [length]; rewrite IH by lia; reflexivity.
Qed.

(** ** The rows at distance one *)

Lemma filter_map_comm {A B} (f : B -> bool) (g : A -> B) l :
  filter f (map g l) = map g (filter (fun x => f (g x)) l).
Proof.
  induction l as [|a l IH]; [reflexivity |].
  cbn [map filter]. destruct (f (g a)); cbn [map]; rewrite IH; reflexivity.
Qed.

Lemma count_cons (f : outcome -> bool) d :
  length (filter f (outcomes (S d)))
  = (length (filter (fun x => f (false :: x)) (outcomes d))
     + length (filter (fun x => f (true :: x)) (outcomes d)))%nat.
Proof.
  rewrite outcomes_S, filter_app, length_app, !filter_map_comm, !length_map.
  reflexivity.
Qed.

Lemma supported_cons v c xb (x : outcome) :
  In v [0; 1; 1 / 2] ->
  Rltb 0 (product_probability (v :: c) (xb :: x))
  = (if Reqb v (1 / 2) then true else if xb then Reqb v 1 else Reqb v 0)
    && Rltb 0 (product_probability c x).
Proof.
  intros Hv.
  destruct (Rlt_dec 0 (product_probability c x)) as [H | H].
  - rewrite (Rltb_true _ _ H), andb_true_r.
    destruct Hv as [<- | [<- | [<- | []]]]; destruct xb;
      rewrite product_probability_cons.
    + rewrite (Reqb_false 0 (1 / 2)), (Reqb_false 0 1) by lra.
      apply Rltb_false. lra.
    + rewrite (Reqb_false 0 (1 / 2)), (Reqb_true 0 0) by lra.
      apply Rltb_true. lra.
    + rewrite (Reqb_false 1 (1 / 2)), (Reqb_true 1 1) by lra.
      apply Rltb_true. lra.
    + rewrite (Reqb_false 1 (1 / 2)), (Reqb_false 1 0) by lra.
      apply Rltb_false. lra.
    + rewrite (Reqb_true (1 / 2) (1 / 2)) by lra. apply Rltb_true. lra.
    + rewrite (Reqb_true (1 / 2) (1 / 2)) by lra. apply Rltb_true. lra.
  - rewrite (Rltb_false _ _ H), andb_false_r. apply Rltb_false.
    rewrite product_probability_cons. intros H'. apply H.
    destruct Hv as [<- | [<- | [<- | []]]]; destruct xb; lra.
Qed.

Ltac coordinate_eval :=
  rewrite supported_cons by (simpl; tauto);
  cbn [distance];
  rewrite ?fixed_zero, ?fixed_one, ?free_half;
  rewrite ?(Reqb_false 0 (1 / 2)), ?(Reqb_false 0 1), ?(Reqb_true 0 0),
    ?(Reqb_false 1 (1 / 2)), ?(Reqb_false 1 0), ?(Reqb_true 1 1),
    ?(Reqb_true (1 / 2) (1 / 2)) by lra;
  cbn [Bool.eqb negb andb Nat.add Nat.eqb];
  rewrite ?andb_false_r;
  reflexivity.

Ltac split_count G1 G2 :=
  rewrite count_cons;
  match goal with
  | |- (length (filter ?F1 _) + length (filter ?F2 _))%nat = _ =>
      rewrite (filter_ext F1 G1) by (intros x'; coordinate_eval);
      rewrite (filter_ext F2 G2) by (intros x'; coordinate_eval)
  end.

(** Among the outcomes of the support, one is at distance zero from [k]
    and as many as there are free coordinates are at distance one. *)
Lemma distance_count c : forall k : outcome,
  Forall (fun v => In v [0; 1; 1 / 2]) c ->
  length k = length c ->
  0 < product_probability c k ->
  length (filter (fun x => Rltb 0 (product_probability c x)
                           && (distance c k x =? 0)%nat)
                 (outcomes (length c))) = 1%nat /\
  length (filter (fun x => Rltb 0 (product_probability c x)
                           && (distance c k x =? 1)%nat)
                 (outcomes (length c))) = length (diff_row c k k).
Proof.
  induction c as [|v c IH]; intros [|kb k] Hc Hk HQk; try discriminate.
  - cbn [length outcomes product map flat_map app filter distance diff_row].
    unfold outcomes. cbn. unfold product_probability, prod. cbn.
    rewrite (Rltb_true 0 1) by lra. split; reflexivity.
  - inversion Hc as [|? ? Hv Hc']; subst.
    apply (support_cons v c kb k Hv) in HQk. destruct HQk as [Hkb HQk].
    simpl in Hk.
    destruct (IH k Hc' ltac:(lia) HQk) as [IH0 IH1].
    set (G0 := fun x : outcome =>
                 Rltb 0 (product_probability c x) && (distance c k x =? 0)%nat) in *.
    set (G1 := fun x : outcome =>
                 Rltb 0 (product_probability c x) && (distance c k x =? 1)%nat) in *.
    cbn [length diff_row]. rewrite eqb_reflx. cbn [negb].
    destruct Hv as [<- | [<- | [<- | []]]].
    + destruct Hkb as [[_ ->] | [[H _] | H]]; try (exfalso; lra).
      rewrite fixed_zero. split.
      * split_count G0 (fun _ : outcome => false).
        rewrite filter_none, IH0. reflexivity.
      * split_count G1 (fun _ : outcome => false).
        rewrite filter_none, IH1. simpl. lia.
    + destruct Hkb as [[H _] | [[_ ->] | H]]; try (exfalso; lra).
      rewrite fixed_one. split.
      * split_count (fun _ : outcome => false) G0.
        rewrite filter_none, IH0. reflexivity.
      * split_count (fun _ : outcome => false) G1.
        rewrite filter_none, IH1. reflexivity.
    + rewrite free_half. cbn [length]. destruct kb; split.
      * split_count (fun _ : outcome => false) G0.
        rewrite filter_none, IH0. reflexivity.
      * split_count G0 G1. rewrite IH0, IH1. reflexivity.
      * split_count G0 (fun _ : outcome => false).
        rewrite filter_none, IH0. reflexivity.
      * split_count G1 G0. rewrite IH0, IH1. lia.
Qed.

Lemma distance_self c : forall k : outcome, distance c k k = O.
Proof.
  induction c as [|v c IH]; intros [|kb k]; try reflexivity.
  cbn [distance]. rewrite eqb_reflx, IH. cbn [negb].
  destruct (Rltb 0 v && Rltb v 1); reflexivity.
Qed.

(** A vector orthogonal to every row at distance one is zero. *)
Lemma distance_one_kernel c : forall (k : outcome) z,
  Forall (fun v => In v [0; 1; 1 / 2]) c ->
  length k = length c ->
  0 < product_probability c k ->
  length z = length (diff_row c k k) ->
  (forall x : outcome,
     length x = length c -> 0 < product_probability c x ->
     distance c k x = 1%nat -> dot (diff_row c k x) z = 0) ->
  Forall (fun v => v = 0) z.
Proof.
  induction c as [|v c IH]; intros [|kb k] z Hc Hk HQk Hz Hker; try discriminate.
  - destruct z; [constructor | discriminate].
  - inversion Hc as [|? ? Hv Hc']; subst.
    pose proof HQk as HQk0.
    apply (support_cons v c kb k Hv) in HQk. destruct HQk as [Hkb HQk].
    simpl in Hk. cbn [diff_row] in Hz. rewrite eqb_reflx in Hz. cbn [negb] in Hz.
    destruct Hv as [Hv | [Hv | [Hv | []]]]; subst v.
    + rewrite fixed_zero in Hz.
      apply (IH k z Hc' ltac:(lia) HQk Hz). intros x Hx HQx Hd.
      specialize (Hker (kb :: x)). cbn [diff_row distance] in Hker.
      rewrite fixed_zero in Hker. apply Hker; [simpl; lia | | exact Hd].
      apply support_cons; [simpl; tauto |]. split; [exact Hkb | exact HQx].
    + rewrite fixed_one in Hz.
      apply (IH k z Hc' ltac:(lia) HQk Hz). intros x Hx HQx Hd.
      specialize (Hker (kb :: x)). cbn [diff_row distance] in Hker.
      rewrite fixed_one in Hker. apply Hker; [simpl; lia | | exact Hd].
      apply support_cons; [simpl; tauto |]. split; [exact Hkb | exact HQx].
    + rewrite free_half in Hz. destruct z as [|z0 z]; [discriminate |].
      simpl in Hz. constructor.
      * specialize (Hker (negb kb :: k)). cbn [diff_row distance] in Hker.
        rewrite free_half, distance_self in Hker. cbn [dot] in Hker.
        rewrite dot_diff_row_self in Hker.
        assert (E : negb (Bool.eqb (negb kb) kb) = true) by (destruct kb; reflexivity).
        rewrite E in Hker.
        assert (Hz0 : 1 * z0 + 0 = 0).
        { apply Hker; [simpl; lia | | reflexivity].
          apply support_cons; [simpl; tauto |]. split; [tauto | exact HQk]. }
        lra.
      * apply (IH k z Hc' ltac:(lia) HQk ltac:(lia)). intros x Hx HQx Hd.
        specialize (Hker (kb :: x)). cbn [diff_row distance] in Hker.
        rewrite free_half, eqb_reflx in Hker. cbn [negb dot Nat.add] in Hker.
        assert (Hrow : 0 * z0 + dot (diff_row c k x) z = 0).
        { apply Hker; [simpl; lia | | exact Hd].
          apply support_cons; [simpl; tauto |]. split; [tauto | exact HQx]. }
        lra.
Qed.

Lemma diff_row_length_free c : forall k x : outcome,
  length k = length c -> length x = length c ->
  length (diff_row c k x) = length (diff_row c k k).
Proof.
  induction c as [|v c IH]; intros [|kb k] [|xb x] Hk Hx; try discriminate;
    [reflexivity |].
  cbn [diff_row]. simpl in Hk, Hx.
  destruct (Rltb 0 v && Rltb v 1); cbn [length]; rewrite (IH k x) by lia;
    reflexivity.
Qed.

(** ** Choosing rows by a test on the positions *)

Lemma filter_in_combinations {X} (f : X -> bool) (l : list X) :
  In (filter f l) (combinations l (length (filter f l))).
Proof.
  induction l as [|a l IH]; [left; reflexivity |].
  cbn [filter]. destruct (f a).
  - cbn [length combinations]. apply in_or_app. left.
    apply in_map. exact IH.
  - destruct (filter f l) as [|b r] eqn:E.
    + left. reflexivity.
    + cbn [length combinations] in *. apply in_or_app. right. exact IH.
Qed.

Lemma map_nth_filter {X Y} (f : X -> bool) (g : X -> Y) (dx : X) (dy : Y) l :
  map (fun i => nth i (map g l) dy)
      (filter (fun i => f (nth i l dx)) (seq 0 (length l)))
  = map g (filter f l).
Proof.
  induction l as [|a l IH]; [reflexivity |].
  cbn [length seq]. rewrite <- seq_shift. cbn [filter nth].
  rewrite filter_map_comm. cbn [nth].
  destruct (f a); cbn [map nth]; rewrite map_map; cbn [nth];
    rewrite <- IH; reflexivity.
Qed.

Lemma seq_outcome_index d : map outcome_index (outcomes d) = seq 0 (2 ^ d).
Proof.
  apply nth_ext with (d := O) (d' := O).
  - rewrite length_map, outcomes_length, length_seq. reflexivity.
  - intros n Hn. rewrite length_map, outcomes_length in Hn.
    rewrite seq_nth by exact Hn. cbn [Nat.add].
    destruct (nth_error (outcomes d) n) as [x|] eqn:E.
    + rewrite (nth_error_nth _ _ O (map_nth_error _ _ _ E)).
      apply outcomes_nth_error_inv in E. destruct E as [_ ->]. reflexivity.
    + apply nth_error_None in E. rewrite outcomes_length in E. lia.
Qed.

(** ** The system of a call on a list without zero *)

Lemma outcome_index_eqb (x k : outcome) :
  length x = length k ->
  (outcome_index x =? outcome_index k)%nat = outcome_eqb x k.
Proof.
  intros Hl. destruct (outcome_eqb x k) eqn:E.
  - apply outcome_eqb_eq in E. subst. apply Nat.eqb_refl.
  - apply Nat.eqb_neq. intros Hi.
    apply (outcome_index_inj x k Hl) in Hi. subst.
    rewrite (proj2 (outcome_eqb_eq k k) eq_refl) in E. discriminate.
Qed.

Lemma system_loop_outcomes P c (k : outcome) :
  length k = length c ->
  length P = (2 ^ length c)%nat ->
  Forall (fun v => 0 < v) P ->
  forall xs : list outcome,
    (forall x, In x xs -> length x = length c) ->
    system_loop P (createIndependentSource c) (outcomes (length c))
                (outcome_index k)
                (filter (fun i => Rltb 0 (nth i c 0) && Rltb (nth i c 0) 1)
                        (seq 0 (length c)))
                (map outcome_index xs)
    = Ok (map (diff_row c k)
              (filter (fun x => negb (outcome_eqb x k)
                                && Rltb 0 (product_probability c x)) xs),
          map (fun x => ln (nth (outcome_index x) P 0
                            / nth (outcome_index k) P 0))
              (filter (fun x => negb (outcome_eqb x k)
                                && Rltb 0 (product_probability c x)) xs)).
Proof.
  intros Hk HP Hpos. rewrite Forall_forall in Hpos.
  pose proof (outcome_index_lt k) as HK. rewrite Hk, <- HP in HK.
  assert (HPK : 0 < nth (outcome_index k) P 0)
    by (apply Hpos, nth_In; exact HK).
  induction xs as [|x xs IH]; intros Hxs; [reflexivity |].
  pose proof (Hxs x (or_introl eq_refl)) as Hx.
  specialize (IH (fun y Hy => Hxs y (or_intror Hy))).
  pose proof (outcome_index_lt x) as Hj. rewrite Hx, <- HP in Hj.
  assert (HPj : 0 < nth (outcome_index x) P 0)
    by (apply Hpos, nth_In; exact Hj).
  cbn [map system_loop filter].
  rewrite (outcome_index_eqb x k) by congruence.
  rewrite (get_nth P (outcome_index x) 0 Hj), (get_nth P (outcome_index k) 0 HK).
  rewrite (proj2 (get_Ok _ _ _) (createIndependentSource_nth c x Hx)).
  cbn [bind]. rewrite (Rltb_true _ _ HPj). cbn [bind].
  destruct (negb (outcome_eqb x k)); cbn [bind andb]; [| exact IH].
  destruct (Rltb 0 (product_probability c x)); cbn [bind]; [| exact IH].
  rewrite (Reqb_false (nth (outcome_index k) P 0) 0) by lra.
  rewrite IH. cbn [bind map]. f_equal. f_equal. f_equal.
  assert (Ex : nth (outcome_index x) (outcomes (length c)) [] = x)
    by (rewrite <- Hx; apply outcomes_nth).
  assert (Ek : nth (outcome_index k) (outcomes (length c)) [] = k)
    by (rewrite <- Hk; apply outcomes_nth).
  rewrite Ex, Ek. apply row_diff_row; assumption.
Qed.

(** ** A call on the source of [p] *)

Lemma filter_twice {X} (f g : X -> bool) l :
  filter f (filter g l) = filter (fun x => g x && f x) l.
Proof.
  induction l as [|a l IH]; [reflexivity |].
  cbn [filter]. destruct (g a); cbn [filter andb]; [destruct (f a) |];
    rewrite IH; reflexivity.
Qed.

Lemma combine_maps {X Y Z} (f : X -> Y) (g : X -> Z) l :
  combine (map f l) (map g l) = map (fun x => (f x, g x)) l.
Proof. induction l as [|a l IH]; [reflexivity | cbn; rewrite IH; reflexivity]. Qed.

Lemma source_positive p :
  Forall (fun v => 0 < v < 1) p ->
  Forall (fun v => 0 < v) (createIndependentSource p).
Proof.
  intros Hp. rewrite createIndependentSource_eq. apply Forall_forall.
  intros v Hv. apply in_map_iff in Hv. destruct Hv as (x & <- & _).
  apply product_probability_pos. exact Hp.
Qed.

Lemma source_entry p (x : outcome) :
  length x = length p ->
  nth (outcome_index x) (createIndependentSource p) 0 = product_probability p x.
Proof.
  intros Hx. apply nth_error_nth. apply createIndependentSource_nth. exact Hx.
Qed.

Lemma free_coordinates_count c (k : outcome) :
  length k = length c ->
  length (filter (fun i => Rltb 0 (nth i c 0) && Rltb (nth i c 0) 1)
                 (seq 0 (length c)))
  = length (diff_row c k k).
Proof.
  intros Hk. rewrite <- (row_diff_row c k k Hk Hk), length_map. reflexivity.
Qed.

Section IndependentCall.

Variables (p c : list R) (k : outcome) (epsilon : R).

Hypothesis Hp : Forall (fun v => 0 < v < 1) p.
Hypothesis Hcfg : Forall (fun v => In v [0; 1; 1 / 2]) c.
Hypothesis Hlp : length p = length c.
Hypothesis Hk : length k = length c.
Hypothesis HQk : 0 < product_probability c k.
Hypothesis Heps : 0 <= epsilon.
Hypothesis Hcount : (0 < count (1 / 2) c)%nat.

Lemma rows_In x :
  In x (row_outcomes c k) <->
  length x = length c /\ x <> k /\ 0 < product_probability c x.
Proof.
  unfold row_outcomes. rewrite filter_In, andb_true_iff, negb_true_iff. split.
  - intros (Hin & Hne & HQ). apply outcomes_In_length in Hin.
    split; [exact Hin |]. split; [| apply Rltb_spec; exact HQ].
    intros ->. rewrite (proj2 (outcome_eqb_eq k k) eq_refl) in Hne. discriminate.
  - intros (Hl & Hne & HQ). split; [rewrite <- Hl; apply outcomes_complete |].
    split; [| apply Rltb_true; exact HQ].
    destruct (outcome_eqb x k) eqn:E; [| reflexivity].
    apply outcome_eqb_eq in E. contradiction.
Qed.

Lemma units_In x :
  In x (unit_outcomes c k) <->
  length x = length c /\ 0 < product_probability c x /\ distance c k x = 1%nat.
Proof.
  unfold unit_outcomes. rewrite filter_In, rows_In, Nat.eqb_eq. split.
  - intros ((Hl & _ & HQ) & Hd). repeat split; assumption.
  - intros (Hl & HQ & Hd). repeat split; try assumption.
    intros ->. rewrite distance_self in Hd. discriminate.
Qed.

Lemma units_length : length (unit_outcomes c k) = length (diff_row c k k).
Proof.
  unfold unit_outcomes, row_outcomes. rewrite filter_twice.
  rewrite <- (proj2 (distance_count c k Hcfg Hk HQk)).
  f_equal. apply filter_ext_in. intros x Hx.
  destruct (distance c k x =? 1)%nat eqn:Ed; [| rewrite !andb_false_r; reflexivity].
  rewrite !andb_true_r.
  destruct (outcome_eqb x k) eqn:E; [| reflexivity].
  apply outcome_eqb_eq in E. subst x.
  rewrite distance_self in Ed. discriminate.
Qed.

Lemma rows_tight x :
  In x (row_outcomes c k) ->
  dot (diff_row c k x) (log_odds c k p)
  = ln (nth (outcome_index x) (createIndependentSource p) 0
        / nth (outcome_index k) (createIndependentSource p) 0).
Proof.
  intros Hx. apply rows_In in Hx. destruct Hx as (Hl & _ & HQ).
  rewrite !source_entry by congruence.
  apply row_tight; assumption.
Qed.

(** The rows at distance one form a square system whose solution is
    [log_odds]. *)
Lemma units_solved :
  solve (map (diff_row c k) (unit_outcomes c k))
        (map (fun x => ln (nth (outcome_index x) (createIndependentSource p) 0
                           / nth (outcome_index k) (createIndependentSource p) 0))
             (unit_outcomes c k))
  = Some (log_odds c k p).
Proof.
  set (lnr := fun x : outcome =>
                ln (nth (outcome_index x) (createIndependentSource p) 0
                    / nth (outcome_index k) (createIndependentSource p) 0)).
  set (U := unit_outcomes c k).
  assert (Hb : length (map lnr U) = length (map (diff_row c k) U))
    by (rewrite !length_map; reflexivity).
  assert (Hrows : forall row, In row (map (diff_row c k) U) ->
                              length row = length (map (diff_row c k) U)).
  { intros row Hrow. apply in_map_iff in Hrow. destruct Hrow as (x & <- & Hx).
    apply units_In in Hx. destruct Hx as (Hl & _).
    unfold U. rewrite length_map, units_length.
    apply diff_row_length_free; assumption. }
  destruct (solve (map (diff_row c k) U) (map lnr U)) as [y|] eqn:Es.
  - f_equal. symmetry.
    apply (solve_unique _ _ _ _ Es Hb Hrows).
    + unfold U. rewrite length_map, units_length.
      apply log_odds_length; congruence.
    + intros row bi Hin. rewrite combine_maps in Hin.
      apply in_map_iff in Hin. destruct Hin as (x & E & Hx).
      inversion E; subst row bi. apply rows_tight.
      unfold U, unit_outcomes in Hx. apply filter_In in Hx. tauto.
  - exfalso.
    destruct (solve_singular _ _ Es Hb Hrows) as (z & Hz & Hnz & Hker).
    unfold U in Hz. rewrite length_map, units_length in Hz.
    assert (Hzero : Forall (fun v => v = 0) z).
    { apply (distance_one_kernel c k z Hcfg Hk HQk Hz).
      intros x Hl HQ Hd. apply Hker. apply in_map.
      apply units_In. repeat split; assumption. }
    apply Exists_exists in Hnz. destruct Hnz as (v & Hv & Hne).
    rewrite Forall_forall in Hzero. apply Hne, Hzero, Hv.
Qed.

(** The objective at [log_odds] is the mass of the support. *)
Lemma log_odds_objective :
  objective (nth (outcome_index k) (createIndependentSource p) 0)
            (log_odds c k p)
  = sum_list (map (fun x : outcome =>
                     if Rltb 0 (product_probability c x)
                     then product_probability p x else 0)
                  (outcomes (length c))).
Proof.
  unfold objective.
  rewrite <- (support_sum c k (log_odds c k p) Hcfg Hk)
    by (apply log_odds_length; congruence).
  rewrite <- sum_list_scale. f_equal. apply map_ext_in. intros x Hx.
  apply outcomes_In_length in Hx.
  destruct (Rlt_dec 0 (product_probability c x)) as [HQ | HQ].
  - rewrite (Rltb_true _ _ HQ).
    rewrite (row_tight c k x p Hcfg Hp Hk Hx Hlp HQk HQ).
    rewrite source_entry by congruence.
    pose proof (product_probability_pos p x Hp) as Hpx.
    pose proof (product_probability_pos p k Hp) as Hpk.
    rewrite exp_ln by (apply Rdiv_lt_0_compat; assumption).
    field. lra.
  - rewrite (Rltb_false _ _ HQ). lra.
Qed.

(** A call of the search on the source of [p] returns, with an objective
    that is at least the mass of the support. *)
Lemma independent_call :
  exists M q,
    computeVerticesHoles (createIndependentSource p) k c epsilon = Ok (M, q) /\
    sum_list (map (fun x : outcome =>
                     if Rltb 0 (product_probability c x)
                     then product_probability p x else 0)
                  (outcomes (length c))) <= M.
Proof.
  set (P := createIndependentSource p).
  assert (HP : length P = (2 ^ length c)%nat)
    by (unfold P; rewrite createIndependentSource_length, Hlp; reflexivity).
  pose proof (source_positive p Hp) as Hpos. fold P in Hpos.
  pose proof (outcome_index_lt k) as HK. rewrite Hk, <- HP in HK.
  assert (HPK : 0 < nth (outcome_index k) P 0).
  { pose proof Hpos as Hall. rewrite Forall_forall in Hall.
    apply Hall, nth_In. exact HK. }
  destruct (count_pos_nth _ _ Hcount) as (j & Hj & Ej).
  destruct (computeVerticesHoles_vertices P k c epsilon)
    as (A & b & vs & Hsys & Hvs & Hcall).
  { lia. }
  { rewrite Hk, HP. lia. }
  { exact HPK. }
  { exists j. split; [lia | rewrite Ej; lra]. }
  cbv zeta in Hsys, Hvs, Hcall.
  rewrite Hk in Hsys.
  rewrite outcomes_length, <- seq_outcome_index in Hsys.
  rewrite (system_loop_outcomes P c k Hk HP Hpos (outcomes (length c))
             (fun x => outcomes_In_length (length c) x)) in Hsys.
  fold (row_outcomes c k) in Hsys.
  set (lnr := fun x : outcome =>
                ln (nth (outcome_index x) P 0 / nth (outcome_index k) P 0)) in *.
  inversion Hsys as [[HA Hb]]. clear Hsys.
  assert (Hin : In (log_odds c k p) vs).
  { apply (proj2 (vertices_loop_In _ _ _ _ _ Hvs (log_odds c k p))).
    set (f := fun x : outcome => (distance c k x =? 1)%nat).
    set (S0 := filter (fun i => f (nth i (row_outcomes c k) []))
                      (seq 0 (length (row_outcomes c k)))).
    assert (HS : length S0 = length (unit_outcomes c k)).
    { pose proof (map_nth_filter f (diff_row c k) [] [] (row_outcomes c k)) as E.
      apply (f_equal (@length _)) in E. rewrite !length_map in E. exact E. }
    exists S0. split; [| split].
    - rewrite <- HA, length_map.
      replace (length (filter (fun x => Rltb 0 (nth x c 0) && Rltb (nth x c 0) 1)
                              (seq 0 (length k))))
        with (length S0)
        by (rewrite HS, Hk, (free_coordinates_count c k Hk);
            apply (units_length)).
      apply filter_in_combinations.
    - rewrite <- HA, <- Hb. unfold S0.
      rewrite (map_nth_filter f (diff_row c k) [] [] (row_outcomes c k)).
      rewrite (map_nth_filter f lnr [] 0 (row_outcomes c k)).
      apply units_solved.
    - apply feasible_spec. intros row bi Hrow.
      rewrite <- HA, <- Hb, combine_maps in Hrow.
      apply in_map_iff in Hrow. destruct Hrow as (x & E & Hx).
      inversion E; subst row bi.
      rewrite (rows_tight x Hx). fold P. unfold lnr. lra. }
  rewrite Hcall.
  rewrite (mapM_Ok _ (objective (nth (outcome_index k) P 0)))
    by (intros y _; rewrite (get_nth P _ 0) by exact HK; reflexivity).
  cbn [bind].
  destruct (py_max_nonempty (map (objective (nth (outcome_index k) P 0)) vs))
    as (M & HM); [destruct vs; [contradiction | discriminate] |].
  rewrite HM. cbn [bind].
  destruct (index_Reqb_In M _ (py_max_In _ _ HM)) as (i & Hi & Hlt).
  rewrite Hi. cbn [bind]. rewrite length_map in Hlt.
  rewrite (get_nth vs i [] Hlt). cbn [bind].
  destruct (reconstruct_total c k _ (nth i vs [])
              (free_coordinates_returns c (length k) ltac:(lia))) as (q & Hq).
  { apply (vertices_length _ _ _ _ _ _ _ Hvs). apply nth_In. exact Hlt. }
  rewrite Hq. cbn [bind]. exists M, q. split; [reflexivity |].
  rewrite <- log_odds_objective. fold P.
  apply (py_max_upper _ _ _ HM). apply in_map. exact Hin.
Qed.

End IndependentCall.

(** ** The search *)

Lemma product_complete {X} (al : list X) c :
  Forall (fun v => In v al) c -> In c (product al (length c)).
Proof.
  induction c as [|a c IH]; intros H; [left; reflexivity |].
  inversion H as [|? ? Ha Hc]; subst. cbn [length product].
  apply in_flat_map. exists a. split; [exact Ha |].
  apply in_map. apply IH. exact Hc.
Qed.

Lemma count_repeat v n : count v (repeat v n) = n.
Proof.
  unfold count. induction n as [|n IH]; [reflexivity |].
  cbn [repeat filter]. rewrite (Reqb_true v v eq_refl). cbn [length].
  rewrite IH. reflexivity.
Qed.

Lemma half_supported n : forall x : outcome,
  length x = n -> 0 < product_probability (repeat (1 / 2) n) x.
Proof.
  induction n as [|n IH]; intros [|xb x] Hx; try discriminate.
  - unfold product_probability, prod. simpl. lra.
  - cbn [repeat]. rewrite product_probability_cons.
    simpl in Hx. specialize (IH x ltac:(lia)). destruct xb; lra.
Qed.

Lemma inner_loop_cons P c I0 Is :
  length I0 = length c ->
  inner_loop P c (createIndependentSource c) (outcomes (length c)) (I0 :: Is)
  = if Rltb 0 (product_probability c I0)
    then r <- computeVerticesHoles P I0 c epsilon_default ;;
         rs <- inner_loop P c (createIndependentSource c)
                          (outcomes (length c)) Is ;;
         Ok (r :: rs)
    else inner_loop P c (createIndependentSource c) (outcomes (length c)) Is.
Proof.
  intros HI. cbn [inner_loop]. rewrite <- HI at 1. rewrite index_outcome.
  cbn [bind].
  rewrite (proj2 (get_Ok _ _ _) (createIndependentSource_nth c I0 HI)).
  reflexivity.
Qed.

Lemma inner_loop_returns P c : forall Is,
  (forall I0, In I0 Is ->
     length I0 = length c /\
     (0 < product_probability c I0 ->
      exists r, computeVerticesHoles P I0 c epsilon_default = Ok r)) ->
  exists rs,
    inner_loop P c (createIndependentSource c) (outcomes (length c)) Is = Ok rs.
Proof.
  induction Is as [|I0 Is IH]; intros H; [exists []; reflexivity |].
  destruct (H I0 (or_introl eq_refl)) as [HI Hcall].
  destruct (IH (fun I1 H1 => H I1 (or_intror H1))) as (rs & Hrs).
  rewrite (inner_loop_cons P c I0 Is HI).
  destruct (Rlt_dec 0 (product_probability c I0)) as [HQ | HQ].
  - rewrite (Rltb_true _ _ HQ). destruct (Hcall HQ) as (r & ->).
    cbn [bind]. rewrite Hrs. cbn [bind]. eauto.
  - rewrite (Rltb_false _ _ HQ). eauto.
Qed.

Lemma outer_loop_returns P d : forall cs,
  (forall c, In c cs ->
     length c = d /\
     forall I0, length I0 = d -> 0 < product_probability c I0 ->
       exists r, computeVerticesHoles P I0 c epsilon_default = Ok r) ->
  exists rs, outer_loop P (outcomes d) cs = Ok rs.
Proof.
  induction cs as [|c cs IH]; intros H; [exists []; reflexivity |].
  destruct (H c (or_introl eq_refl)) as [Hc Hcall].
  destruct (IH (fun c1 H1 => H c1 (or_intror H1))) as (rs' & Hrs').
  cbn [outer_loop]. subst d.
  destruct (inner_loop_returns P c (outcomes (length c))) as (rs & ->).
  { intros I0 HI0. apply outcomes_In_length in HI0.
    split; [exact HI0 | apply Hcall; exact HI0]. }
  cbn [bind]. rewrite Hrs'. cbn [bind]. eauto.
Qed.

(** X15: on the source of independent Bernoulli variables with parameters
    strictly between 0 and 1 the search returns, and the weight that it
    returns is at least 1 and at most [exp epsilon] for the tolerance
    [epsilon] of the feasibility test. *)
Theorem indWeightHoles_independent_source (p : list R) :
  p <> [] ->
  Forall (fun v => 0 < v < 1) p ->
  exists Lambda q,
    indWeightHoles (createIndependentSource p) = Ok (Lambda, q) /\
    1 <= Lambda <= exp epsilon_default.
Proof.
  intros Hne Hp.
  assert (Hd : (0 < length p)%nat) by (destruct p; [contradiction | simpl; lia]).
  set (P := createIndependentSource p). set (d := length p) in *.
  assert (HP : length P = (2 ^ d)%nat) by apply createIndependentSource_length.
  pose proof (source_positive p Hp) as Hpos. fold P in Hpos.
  assert (Hnonneg : Forall (fun v => 0 <= v) P)
    by (apply (Forall_impl _ (fun v (H : 0 < v) => Rlt_le _ _ H) Hpos)).
  assert (Hsum : sum_list P = 1)
    by (unfold P; rewrite createIndependentSource_eq;
        apply product_probability_total).
  assert (HPne : P <> [])
    by (intros E; rewrite E in HP; simpl in HP;
        pose proof (Nat.pow_nonzero 2 d ltac:(discriminate)); lia).
  destruct (compatible_configurations_returns P d HP) as (cs & Hcs).
  (* every call returns *)
  destruct (outer_loop_returns P d cs) as (rs & Hrs).
  { intros c Hc.
    destruct (compatible_configurations_inv _ _ _ _ Hcs Hc)
      as (Hl & Hcfg & _ & Hcount).
    split; [exact Hl |]. intros I0 HI HQ.
    destruct (independent_call p c I0 epsilon_default Hp Hcfg
                (eq_sym Hl) (eq_trans HI (eq_sym Hl)) HQ
                epsilon_default_nonneg Hcount) as (M & q & Hcall & _).
    exists (M, q). exact Hcall. }
  (* the call on the configuration without fixed coordinate *)
  set (c0 := repeat (1 / 2) d). set (I0 := repeat false d).
  assert (Hc0l : length c0 = d) by apply repeat_length.
  assert (HI0l : length I0 = d) by apply repeat_length.
  assert (Hc0cfg : Forall (fun v => In v [0; 1; 1 / 2]) c0).
  { apply Forall_forall. intros v Hv. apply repeat_spec in Hv. subst v.
    simpl. tauto. }
  assert (Hc0 : In c0 cs).
  { unfold compatible_configurations in Hcs.
    apply (proj2 (filterM_inv _ _ _ Hcs) c0). split.
    - rewrite <- Hc0l. apply product_complete. exact Hc0cfg.
    - rewrite (compatible_no_hole c0 P HPne).
      + cbn [bind]. unfold c0. rewrite count_repeat.
        destruct d; [lia | reflexivity].
      + apply (Forall_impl _ (fun v (H : 0 < v) => Rgt_not_eq _ _ H) Hpos). }
  pose proof (half_supported d I0 HI0l) as HQ0. fold c0 in HQ0.
  destruct (independent_call p c0 I0 epsilon_default Hp Hc0cfg
              (eq_sym Hc0l) (eq_trans HI0l (eq_sym Hc0l)) HQ0
              epsilon_default_nonneg)
    as (M & q0 & Hcall & HM).
  { unfold c0. rewrite count_repeat. exact Hd. }
  assert (HM1 : 1 <= M).
  { rewrite <- (product_probability_total p). fold d.
    replace (sum_list (map (product_probability p) (outcomes d)))
      with (sum_list (map (fun x : outcome =>
                             if Rltb 0 (product_probability c0 x)
                             then product_probability p x else 0)
                          (outcomes (length c0))));
      [exact HM |].
    rewrite Hc0l. f_equal. apply map_ext_in. intros x Hx.
    apply outcomes_In_length in Hx.
    unfold c0. rewrite (Rltb_true _ _ (half_supported d x Hx)). reflexivity. }
  destruct (outer_loop_complete P (outcomes d) cs rs Hrs c0 I0
              (outcome_index I0) (product_probability c0 I0) Hc0)
    as (r & Hr & Hin).
  { rewrite <- HI0l. apply outcomes_complete. }
  { rewrite <- HI0l. apply index_outcome. }
  { apply get_Ok. apply createIndependentSource_nth. congruence. }
  { exact HQ0. }
  fold P in Hcall. rewrite Hcall in Hr. inversion Hr; subst r. clear Hr.
  (* the maximum *)
  destruct (py_max_nonempty (map fst rs)) as (L & HL);
    [destruct rs; [contradiction | discriminate] |].
  destruct (index_Reqb_In L _ (py_max_In _ _ HL)) as (i & Hi & Hlt).
  assert (Hres : indWeightHoles P
                 = Ok (L, nth i (map snd rs) [])).
  { unfold indWeightHoles.
    rewrite int_log2_pos
      by (rewrite HP; apply Nat.neq_0_lt_0, Nat.pow_nonzero; discriminate).
    rewrite HP, Nat.log2_pow2 by lia. cbn [bind].
    rewrite Hcs. cbn [bind]. rewrite Hrs. cbn [bind].
    rewrite HL. cbn [bind]. rewrite Hi. cbn [bind].
    rewrite (get_nth (map snd rs) i [])
      by (rewrite length_map in *; exact Hlt).
    reflexivity. }
  exists L, (nth i (map snd rs) []). split; [exact Hres |]. split.
  - apply Rle_trans with M; [exact HM1 |].
    apply (py_max_upper _ _ _ HL).
    apply in_map_iff. exists (M, q0). split; [reflexivity | exact Hin].
  - destruct (indWeightHoles_result _ _ _ Hres) as (c & I1 & q' & Hinv & Hc1).
    destruct Hinv as (d' & cs' & j & Qj & Hd' & Hcs' & Hc & HI & Hj & HQ & HQj).
    apply int_log2_inv in Hd'. destruct Hd' as [_ Hd'].
    rewrite HP, Nat.log2_pow2 in Hd' by lia. subst d'.
    destruct (compatible_configurations_inv _ _ _ _ Hcs' Hc)
      as (Hl & Hcfg & Hok & _).
    apply outcomes_In_length in HI.
    rewrite <- HI, index_outcome in Hj. inversion Hj; subst j.
    apply (computeVerticesHoles_bound P I1 c epsilon_default)
      with (q := q') (Qk := Qj); try assumption; try congruence.
    apply epsilon_default_nonneg.
Qed.

Lemma indWeightHoles_independent_source_witness :
  exists Lambda q,
    indWeightHoles (createIndependentSource [1 / 3; 3 / 4]) = Ok (Lambda, q) /\
    1 <= Lambda <= exp epsilon_default.
Proof.
  apply (indWeightHoles_independent_source [1 / 3; 3 / 4]).
  - discriminate.
  - repeat constructor; lra.
Defined.
